(** * Sliding-window reductions of the tutorial notebooks

    A shallow embedding of the hand-written forward passes of the
    pooling, convolution and channel notebooks:

    - [pool2d]                  (pooling notebook),
    - [corr2d]                  (convolution and channel notebooks),
    - [corr2d_multi_in], [corr2d_multi_in_out], [corr2d_multi_in_out_1x1]
                                (channel notebook).

    The entries of a tensor are idealised as exact rationals ([Qc],
    rationals in lowest terms, whose equality is Leibniz equality), so
    rounding is not part of the model.  A value of type [tensor] holds the
    shape and the entries; the element type, which the code depends on in
    one place only (the framework's [mean] refuses tensors of integers), is
    given beside the tensor where it matters ([dtype], [pool2d_on]).
    Without an element type a tensor is one of the float tensors the
    notebooks build ([torch.tensor] of float literals, [torch.zeros],
    [torch.rand], [torch.normal]).
    A tensor carries its shape explicitly, as the framework's tensors do,
    so that a tensor of shape (0, n) is told apart from one of shape (0, 0). *)

From Stdlib Require Import String Bool Arith ZArith QArith Qcanon List Lia.
Import ListNotations.
From Stdlib Require DecimalString DecimalNat.


(** ** Outcomes of a call *)

(** What the framework complains about when it raises [RuntimeError]. *)
Inductive cause : Type :=
  | NegativeDimension   (* torch.zeros with a negative size *)
  | EmptyReduction      (* max() of a tensor without elements *)
  | ShapeMismatch       (* operands whose shapes do not agree *)
  | InvalidShape        (* reshape to a shape of another size *)
  | EmptyStack          (* torch.stack of an empty list *)
  | NotFloatingPoint.   (* mean() of a tensor of integers *)

(** The Python exceptions the modelled code can meet.  None of them is
    declared or caught by the notebooks: they all come from the framework
    and leave the function as they are. *)
Inductive exn : Type :=
  | RuntimeError (c : cause)
  | IndexError
  | TypeError.

(** A call returns a value, raises, or stores a NaN.  The last outcome is
    not an exception: the framework's [mean] of a float tensor without
    elements is NaN, a value the exact entries do not have, and the model stops there. *)
Inductive result (A : Type) : Type :=
  | Ok (a : A)
  | Raise (e : exn)
  | NotANumber.

Arguments Ok {A} a.
Arguments Raise {A} e.
Arguments NotANumber {A}.

Definition bind {A B : Type} (c : result A) (k : A -> result B) : result B :=
  match c with
  | Ok a => k a
  | Raise e => Raise e
  | NotANumber => NotANumber
  end.

Declare Scope result_scope.
Delimit Scope result_scope with result.
Notation "x <- c ;; k" := (bind c (fun x => k))
  (at level 61, c at next level, right associativity) : result_scope.
Local Open Scope result_scope.

(** [for i in l: s = body(i, s)], stopping at the first exception. *)
Fixpoint for_each {St : Type} (l : list nat) (body : nat -> St -> result St)
  (s : St) : result St :=
  match l with
  | [] => Ok s
  | i :: l' => s' <- body i s ;; for_each l' body s'
  end.

(** [for i in range(n)]. *)
Definition for_range {St : Type} (n : nat) (body : nat -> St -> result St)
  (s : St) : result St :=
  for_each (seq 0 n) body s.

(** ** Two-dimensional tensors *)

Local Open Scope nat_scope.

Record tensor : Type := Tensor {
  shape : nat * nat;
  rows : list (list Qc)
}.

(** The rows agree with the shape. *)
Definition wfb (t : tensor) : bool :=
  (length (rows t) =? fst (shape t))%nat
  && forallb (fun r => (length r =? snd (shape t))%nat) (rows t).

Definition wf (t : tensor) : Prop := wfb t = true.

(** [t[i, j]] read from the rows. *)
Definition cell (t : tensor) (i j : nat) : Qc := nth j (nth i (rows t) []) 0%Qc.

(** An integer as an entry. *)
Definition qc (z : Z) : Qc := Q2Qc (inject_Z z).

(** [torch.tensor([[...], ...])] of a rectangular literal. *)
Definition tensor_of (l : list (list Z)) : tensor :=
  Tensor (length l, length (hd [] l)) (map (map qc) l).

(** [torch.zeros((r, c))]; the sizes come from a subtraction and may be
    negative, which the framework refuses. *)
Definition zeros (r c : Z) : result tensor :=
  if ((r <? 0) || (c <? 0))%Z then Raise (RuntimeError NegativeDimension)
  else Ok (Tensor (Z.to_nat r, Z.to_nat c)
                  (repeat (repeat 0%Qc (Z.to_nat c)) (Z.to_nat r))).

(** [l[a:b]] for indices that are not negative: Python clamps both ends. *)
Definition slice1 {A : Type} (a b : nat) (l : list A) : list A :=
  firstn (b - a) (skipn a l).

(** [X[r0:r1, c0:c1]]. *)
Definition slice (X : tensor) (r0 r1 c0 c1 : nat) : tensor :=
  Tensor (Nat.min r1 (fst (shape X)) - Nat.min r0 (fst (shape X)),
          Nat.min c1 (snd (shape X)) - Nat.min c0 (snd (shape X)))
         (map (slice1 c0 c1) (slice1 r0 r1 (rows X))).

Fixpoint map2 {A B C : Type} (f : A -> B -> C) (l : list A) (m : list B)
  : list C :=
  match l, m with
  | a :: l', b :: m' => f a b :: map2 f l' m'
  | _, _ => []
  end.

Definition shape_eqb (s t : nat * nat) : bool :=
  (fst s =? fst t)%nat && (snd s =? snd t)%nat.

(** [A * B] for operands of one shape.  Inside [corr2d] the window always
    has the kernel's shape, so the framework's broadcasting of unequal
    shapes is never reached there; the model reports unequal shapes. *)
Definition tmul (A B : tensor) : result tensor :=
  if shape_eqb (shape A) (shape B)
  then Ok (Tensor (shape A) (map2 (map2 Qcmult) (rows A) (rows B)))
  else Raise (RuntimeError ShapeMismatch).

(** [A + B] for operands of one shape. *)
Definition tadd (A B : tensor) : result tensor :=
  if shape_eqb (shape A) (shape B)
  then Ok (Tensor (shape A) (map2 (map2 Qcplus) (rows A) (rows B)))
  else Raise (RuntimeError ShapeMismatch).

(** Sum of a list, accumulated from the left. *)
Definition lsum (l : list Qc) : Qc := fold_left Qcplus l 0%Qc.

(** [t.sum()]: all the entries, row after row. *)
Definition tsum (t : tensor) : Qc := lsum (concat (rows t)).

Definition Qcmax (a b : Qc) : Qc :=
  match (a ?= b)%Qc with
  | Lt => b
  | _ => a
  end.

(** [t.max()]: refused for a tensor without elements. *)
Definition tmax (t : tensor) : result Qc :=
  match concat (rows t) with
  | [] => Raise (RuntimeError EmptyReduction)
  | x :: l => Ok (fold_left Qcmax l x)
  end.

(** The element type of a tensor, as far as the code tells types apart:
    a floating-point type ([torch.float32], what [torch.zeros], [torch.rand]
    and [torch.tensor] of float literals give, or another float type) or a
    type of integers ([torch.int64], what [torch.tensor] of integer literals
    gives, or another integer type). *)
Inductive dtype : Type :=
  | Floating
  | Integral.

(** [t.mean()] on a tensor of element type [d]: refused for a tensor of
    integers, whatever it holds; for a float tensor the sum over the number
    of elements, and NaN without elements. *)
Definition tmean (d : dtype) (t : tensor) : result Qc :=
  match d with
  | Integral => Raise (RuntimeError NotFloatingPoint)
  | Floating =>
      match concat (rows t) with
      | [] => NotANumber
      | x :: l => Ok (lsum (x :: l) / qc (Z.of_nat (length (x :: l))))%Qc
      end
  end.

Arguments tmean : simpl never.

Fixpoint list_set {A : Type} (n : nat) (v : A) (l : list A) : list A :=
  match l, n with
  | [], _ => []
  | _ :: l', O => v :: l'
  | a :: l', S n' => a :: list_set n' v l'
  end.

(** [Y[i, j] = v] for indices that are not negative; out of range the
    framework raises [IndexError]. *)
Definition setitem (Y : tensor) (i j : nat) (v : Qc) : result tensor :=
  if ((i <? fst (shape Y)) && (j <? snd (shape Y)))%nat
  then Ok (Tensor (shape Y)
                  (list_set i (list_set j v (nth i (rows Y) [])) (rows Y)))
  else Raise IndexError.

(** ** The pooling notebook *)

(** [[
def pool2d(X, pool_size, mode='max'):
    p_h, p_w = pool_size
    Y = torch.zeros((X.shape[0] - p_h + 1, X.shape[1] - p_w + 1))
    for i in range(Y.shape[0]):
        for j in range(Y.shape[1]):
            if mode == 'max':
                Y[i, j] = X[i: i + p_h, j: j + p_w].max()
            elif mode == 'avg':
                Y[i, j] = X[i: i + p_h, j: j + p_w].mean()
    return Y
]]
    The window sizes are natural numbers.  There is no stride argument:
    the window always moves by one cell.  [pool2d_on d] is the function on
    a grid [X] of element type [d]; the buffer [Y] is a float tensor. *)
Definition pool2d_on (d : dtype) (X : tensor) (pool_size : nat * nat)
  (mode : string) : result tensor :=
  let '(p_h, p_w) := pool_size in
  Y <- zeros (Z.of_nat (fst (shape X)) - Z.of_nat p_h + 1)
             (Z.of_nat (snd (shape X)) - Z.of_nat p_w + 1) ;;
  for_range (fst (shape Y)) (fun i Y =>
    for_range (snd (shape Y)) (fun j Y =>
      if String.eqb mode "max" then
        v <- tmax (slice X i (i + p_h) j (j + p_w)) ;;
        setitem Y i j v
      else if String.eqb mode "avg" then
        v <- tmean d (slice X i (i + p_h) j (j + p_w)) ;;
        setitem Y i j v
      else Ok Y) Y) Y.

(** [pool2d] on a float grid, the grids the notebooks pass. *)
Definition pool2d (X : tensor) (pool_size : nat * nat) (mode : string)
  : result tensor :=
  pool2d_on Floating X pool_size mode.

(** ** The convolution notebook *)

(** [[
def corr2d(X, K):
    h, w = K.shape
    Y = torch.zeros((X.shape[0] - h + 1, X.shape[1] - w + 1))
    for i in range(Y.shape[0]):
        for j in range(Y.shape[1]):
            Y[i, j] = (X[i:i + h, j:j + w] * K).sum()
    return Y
]] *)
Definition corr2d (X K : tensor) : result tensor :=
  let '(h, w) := shape K in
  Y <- zeros (Z.of_nat (fst (shape X)) - Z.of_nat h + 1)
             (Z.of_nat (snd (shape X)) - Z.of_nat w + 1) ;;
  for_range (fst (shape Y)) (fun i Y =>
    for_range (snd (shape Y)) (fun j Y =>
      P <- tmul (slice X i (i + h) j (j + w)) K ;;
      setitem Y i j (tsum P)) Y) Y.

(** The grid and the kernel both notebooks validate their functions on. *)
Definition X_demo : tensor := tensor_of [[0; 1; 2]; [3; 4; 5]; [6; 7; 8]]%Z.
Definition K_demo : tensor := tensor_of [[0; 1]; [2; 3]]%Z.

(** ** The channel notebook *)

(** A stack of grids, shape (c, h, w), and a stack of those, shape
    (o, c, h, w). *)
Record tensor3 : Type := Tensor3 {
  shape3 : nat * (nat * nat);
  chans : list (list (list Qc))
}.

Record tensor4 : Type := Tensor4 {
  shape4 : nat * (nat * (nat * nat));
  kerns : list (list (list (list Qc)))
}.

Definition wfb3 (X : tensor3) : bool :=
  (length (chans X) =? fst (shape3 X))
  && forallb (fun c => wfb (Tensor (snd (shape3 X)) c)) (chans X).

Definition wfb4 (K : tensor4) : bool :=
  (length (kerns K) =? fst (shape4 K))
  && forallb (fun k => wfb3 (Tensor3 (snd (shape4 K)) k)) (kerns K).

Definition wf3 (X : tensor3) : Prop := wfb3 X = true.
Definition wf4 (K : tensor4) : Prop := wfb4 K = true.

(** Iterating over a tensor walks its leading dimension. *)
Definition iter3 (X : tensor3) : list tensor :=
  map (Tensor (snd (shape3 X))) (chans X).

Definition iter4 (K : tensor4) : list tensor3 :=
  map (Tensor3 (snd (shape4 K))) (kerns K).

(** What the builtin [sum] accumulates: it starts from the integer 0. *)
Inductive pyval : Type :=
  | PyInt (z : Z)
  | PyTensor (t : tensor).

(** [acc + t]: an integer is added to every entry, a tensor entry by entry. *)
Definition py_add (acc : pyval) (t : tensor) : result pyval :=
  match acc with
  | PyInt z => Ok (PyTensor (Tensor (shape t)
                     (map (map (Qcplus (qc z))) (rows t))))
  | PyTensor s => r <- tadd s t ;; Ok (PyTensor r)
  end.

(** [sum(gen)] from the accumulator [acc]: the items are produced one by
    one, and the first exception of an item or of an addition ends it. *)
Fixpoint py_sum (acc : pyval) (gen : list (result tensor)) : result pyval :=
  match gen with
  | [] => Ok acc
  | item :: gen' =>
      t <- item ;;
      acc' <- py_add acc t ;;
      py_sum acc' gen'
  end.

(** [[
def corr2d_multi_in(X, K):
    return sum(corr2d(x, k) for x, k in zip(X, K))
]] *)
Definition corr2d_multi_in (X K : tensor3) : result pyval :=
  py_sum (PyInt 0)
         (map (fun xk => corr2d (fst xk) (snd xk))
              (combine (iter3 X) (iter3 K))).

Fixpoint mapM {A B : Type} (f : A -> result B) (l : list A)
  : result (list B) :=
  match l with
  | [] => Ok []
  | a :: l' => b <- f a ;; bs <- mapM f l' ;; Ok (b :: bs)
  end.

Definition as_tensor (v : pyval) : result tensor :=
  match v with
  | PyInt _ => Raise TypeError
  | PyTensor t => Ok t
  end.

Definition same_shape (s : nat * nat) (t : tensor) : result (list (list Qc)) :=
  if shape_eqb (shape t) s then Ok (rows t)
  else Raise (RuntimeError ShapeMismatch).

(** [torch.stack(l, 0)]: every item has to be a tensor, the list must not
    be empty, and the shapes have to agree. *)
Definition stack (l : list pyval) : result tensor3 :=
  ts <- mapM as_tensor l ;;
  match ts with
  | [] => Raise (RuntimeError EmptyStack)
  | t :: _ =>
      r <- mapM (same_shape (shape t)) ts ;;
      Ok (Tensor3 (length ts, shape t) r)
  end.

(** [[
def corr2d_multi_in_out(X, K):
    return torch.stack([corr2d_multi_in(X, k) for k in K], 0)
]] *)
Definition corr2d_multi_in_out (X : tensor3) (K : tensor4) : result tensor3 :=
  ys <- mapM (corr2d_multi_in X) (iter4 K) ;;
  stack ys.

(** [n] consecutive pieces of length [c]. *)
Fixpoint chunks {A : Type} (n c : nat) (l : list A) : list (list A) :=
  match n with
  | O => []
  | S n' => firstn c l :: chunks n' c (skipn c l)
  end.

(** The entries in storage order. *)
Definition flat2 (t : tensor) : list Qc := concat (rows t).
Definition flat3 (X : tensor3) : list Qc :=
  concat (map (@concat Qc) (chans X)).
Definition flat4 (K : tensor4) : list Qc :=
  concat (map (fun k => concat (map (@concat Qc) k)) (kerns K)).

(** [reshape]: refused when the number of entries changes. *)
Definition reshape2 (data : list Qc) (s : nat * nat) : result tensor :=
  if length data =? fst s * snd s
  then Ok (Tensor s (chunks (fst s) (snd s) data))
  else Raise (RuntimeError InvalidShape).

Definition reshape3 (data : list Qc) (s : nat * (nat * nat))
  : result tensor3 :=
  let '(c, (h, w)) := s in
  if length data =? c * (h * w)
  then Ok (Tensor3 s (map (chunks h w) (chunks c (h * w) data)))
  else Raise (RuntimeError InvalidShape).

Definition column (j : nat) (B : tensor) : list Qc :=
  map (fun r => nth j r 0%Qc) (rows B).

Definition dot (a b : list Qc) : Qc := lsum (map2 Qcmult a b).

(** [torch.matmul(A, B)] of two matrices. *)
Definition matmul (A B : tensor) : result tensor :=
  if snd (shape A) =? fst (shape B)
  then Ok (Tensor (fst (shape A), snd (shape B))
                  (map (fun a => map (fun j => dot a (column j B))
                                     (seq 0 (snd (shape B))))
                       (rows A)))
  else Raise (RuntimeError ShapeMismatch).

(** [[
def corr2d_multi_in_out_1x1(X, K):
    c_i, h, w = X.shape
    c_o = K.shape[0]
    X = X.reshape((c_i, h * w))
    K = K.reshape((c_o, c_i))
    Y = torch.matmul(K, X)
    return Y.reshape((c_o, h, w))
]]
    The two [print] calls of the notebook write the shapes to the standard
    output and have no part in the value returned; they are left out. *)
Definition corr2d_multi_in_out_1x1 (X : tensor3) (K : tensor4)
  : result tensor3 :=
  let '(c_i, (h, w)) := shape3 X in
  let c_o := fst (shape4 K) in
  X' <- reshape2 (flat3 X) (c_i, h * w) ;;
  K' <- reshape2 (flat4 K) (c_o, c_i) ;;
  Y <- matmul K' X' ;;
  reshape3 (flat2 Y) (c_o, (h, w)).

(** ** The functions over a store of objects

    [pool2d] and [corr2d] once more, with the tensors held in a store and
    named by their addresses, to tell which objects a call writes.  A new
    object takes the next free address; an item assignment replaces the
    object at the address of [Y].  The objects are float tensors. *)
Definition store : Type := list tensor.

Definition lookup (st : store) (l : nat) : tensor := nth l st (Tensor (0, 0) []).

(** [Y = torch.zeros((r, c))]. *)
Definition alloc_zeros (r c : Z) (st : store) : result (nat * store) :=
  Y <- zeros r c ;; Ok (length st, st ++ [Y]).

(** [Y[i, j] = v] on the object at address [l]. *)
Definition store_item (l i j : nat) (v : Qc) (st : store) : result store :=
  Y' <- setitem (lookup st l) i j v ;; Ok (list_set l Y' st).

Definition pool2d_st (X : nat) (pool_size : nat * nat) (mode : string)
  (st : store) : result (nat * store) :=
  let '(p_h, p_w) := pool_size in
  a <- alloc_zeros (Z.of_nat (fst (shape (lookup st X))) - Z.of_nat p_h + 1)
                   (Z.of_nat (snd (shape (lookup st X))) - Z.of_nat p_w + 1)
                   st ;;
  let Y := fst a in
  st' <- for_range (fst (shape (lookup (snd a) Y))) (fun i st =>
    for_range (snd (shape (lookup st Y))) (fun j st =>
      if String.eqb mode "max" then
        v <- tmax (slice (lookup st X) i (i + p_h) j (j + p_w)) ;;
        store_item Y i j v st
      else if String.eqb mode "avg" then
        v <- tmean Floating (slice (lookup st X) i (i + p_h) j (j + p_w)) ;;
        store_item Y i j v st
      else Ok st) st) (snd a) ;;
  Ok (Y, st').

Definition corr2d_st (X K : nat) (st : store) : result (nat * store) :=
  let '(h, w) := shape (lookup st K) in
  a <- alloc_zeros (Z.of_nat (fst (shape (lookup st X))) - Z.of_nat h + 1)
                   (Z.of_nat (snd (shape (lookup st X))) - Z.of_nat w + 1)
                   st ;;
  let Y := fst a in
  st' <- for_range (fst (shape (lookup (snd a) Y))) (fun i st =>
    for_range (snd (shape (lookup st Y))) (fun j st =>
      P <- tmul (slice (lookup st X) i (i + h) j (j + w)) (lookup st K) ;;
      store_item Y i j (tsum P) st) st) (snd a) ;;
  Ok (Y, st').

(** ** Definitions for the statements *)

(** [f 0 + f 1 + ... + f (n-1)]. *)
Fixpoint sum_upto (n : nat) (f : nat -> Qc) : Qc :=
  match n with
  | O => 0%Qc
  | S k => (sum_upto k f + f k)%Qc
  end.


(** Decidable equality of entries, rows and tensors, to compare concrete
    results by computation. *)
Definition Qc_eqb (a b : Qc) : bool := Qeq_bool a b.

Fixpoint list_eqb {A : Type} (eqb : A -> A -> bool) (l m : list A) : bool :=
  match l, m with
  | [], [] => true
  | a :: l', b :: m' => eqb a b && list_eqb eqb l' m'
  | _, _ => false
  end.

Definition tensor_eqb (s t : tensor) : bool :=
  shape_eqb (shape s) (shape t) && list_eqb (list_eqb Qc_eqb) (rows s) (rows t).

(** The tensors of the channel notebook's first example. *)
Definition X2_demo : tensor3 :=
  Tensor3 (2, (3, 3))
    (map (map (map qc)) [[[0; 1; 2]; [3; 4; 5]; [6; 7; 8]];
                         [[1; 2; 3]; [4; 5; 6]; [7; 8; 9]]]%Z).
Definition K2_demo : tensor3 :=
  Tensor3 (2, (2, 2))
    (map (map (map qc)) [[[0; 1]; [2; 3]]; [[1; 2]; [3; 4]]]%Z).


(** An 8 x 8 grid, the size of the padding and stride notebook's input. *)
Definition X8_demo : tensor := Tensor (8, 8) (repeat (repeat 0%Qc 8) 8).

(** A kernel of [r] rows and [c] columns of ones. *)
Definition ones (r c : nat) : tensor := Tensor (r, c) (repeat (repeat (qc 1) c) r).

(** A store holding the demonstration grid and kernel. *)
Definition demo_store : store := [X_demo; K_demo].

(** Three output channels of two 1 x 1 kernels each, on the two-channel
    demonstration grid. *)
Definition K1_demo : tensor4 :=
  Tensor4 (3, (2, (1, 1)))
    (map (map (map (map qc))) [[[[2]]; [[3]]]; [[[5]]; [[-1]]]; [[[0]]; [[7]]]]%Z).

(** ** More of the convolution notebook *)

(** [[
class Conv2D(nn.Module):
    def __init__(self, kernel_size):
        super().__init__()
        self.weight = nn.Parameter(torch.rand(kernel_size))
        self.bias = nn.Parameter(torch.zeros(1))

    def forward(self, x):
        return corr2d(x, self.weight) + self.bias
]]
    The two parameters of the layer: the kernel, and the bias, a tensor of
    one element. *)
Record Conv2D : Type := {
  weight : tensor;
  bias : Qc
}.

(** [Conv2D(kernel_size)]: the kernel is what [torch.rand(kernel_size)]
    draws, given here as [draw]; the bias starts at zero. *)
Definition Conv2D_init (draw : tensor) : Conv2D :=
  {| weight := draw; bias := 0%Qc |}.

(** [Y + b] for a tensor [b] of one element: broadcasting adds it to every
    cell. *)
Definition add_scalar (Y : tensor) (b : Qc) : tensor :=
  Tensor (shape Y) (map (map (fun v => Qcplus v b)) (rows Y)).

Definition Conv2D_forward (self : Conv2D) (x : tensor) : result tensor :=
  Y <- corr2d x (weight self) ;;
  Ok (add_scalar Y (bias self)).

(** The kernel of the edge detection, [torch.tensor([[1.0, -1.0]])]. *)
Definition K_edge : tensor := tensor_of [[1; -1]]%Z.

(** [X.t()]. *)
Definition transpose (X : tensor) : tensor :=
  Tensor (snd (shape X), fst (shape X))
         (map (fun j => column j X) (seq 0 (snd (shape X)))).

(** [X[:, a:b] = v] for indices that are not negative: the columns from
    [a] up to, and without, [b] of every row are overwritten. *)
Definition assign_cols (X : tensor) (a b : nat) (v : Qc) : tensor :=
  Tensor (shape X)
         (map (fun r => map (fun j => if (a <=? j) && (j <? b) then v
                                      else nth j r 0%Qc)
                            (seq 0 (length r)))
              (rows X)).

(** [[
X = torch.ones((H, W))
X[:, a:b] = 0
]]
    the image of the edge detection, which has H = 6, W = 8, a = 2, b = 6. *)
Definition edge_image (H W a b : nat) : tensor :=
  assign_cols (ones H W) a b 0%Qc.

(** The grid of shape (h, w) whose cell (i, j) is [f i j]. *)
Definition tabulate (h w : nat) (f : nat -> nat -> Qc) : tensor :=
  Tensor (h, w) (map (fun i => map (fun j => f i j) (seq 0 w)) (seq 0 h)).

(** ** More definitions for the statements *)

(** [X[c, i, j]] and [K[o, c, i, j]] read from the nested rows. *)
Definition cell3 (X : tensor3) (c i j : nat) : Qc :=
  nth j (nth i (nth c (chans X) []) []) 0%Qc.

Definition cell4 (K : tensor4) (o c i j : nat) : Qc :=
  nth j (nth i (nth c (nth o (kerns K) []) []) []) 0%Qc.

(** The stack of three pairs of kernels of the channel notebook,
    [torch.stack((K, K + 1, K + 2), 0)]. *)
Definition K4_demo : tensor4 :=
  Tensor4 (3, (2, (2, 2)))
    (map (map (map (map qc)))
       [[[[0; 1]; [2; 3]]; [[1; 2]; [3; 4]]];
        [[[1; 2]; [3; 4]]; [[2; 3]; [4; 5]]];
        [[[2; 3]; [4; 5]]; [[3; 4]; [5; 6]]]]%Z).

(** ** The graph notebook *)

(** [nn.Linear(c_in, c_out)]: its parameters are a weight of shape
    (c_out, c_in) and a bias of c_out entries. *)
Module Linear.
Record t : Type := {
  weight : tensor;
  bias : list Qc
}.
End Linear.

(** The sizes [nn.Linear(c_in, c_out)] gives its parameters. *)
Definition wf_linear (L : Linear.t) (c_in c_out : nat) : Prop :=
  wf (Linear.weight L) /\ shape (Linear.weight L) = (c_out, c_in)
  /\ length (Linear.bias L) = c_out.

(** The layer on one vector of features: [W v + b]. *)
Definition linear_vec (L : Linear.t) (v : list Qc) : list Qc :=
  map2 Qcplus (map (dot v) (rows (Linear.weight L))) (Linear.bias L).

(** The layer on a tensor of shape (B, N, c): it works on the last
    dimension, which has to be the layer's input size. *)
Definition Linear_forward3 (L : Linear.t) (x : tensor3) : result tensor3 :=
  let '(B, (N, c)) := shape3 x in
  if c =? snd (shape (Linear.weight L))
  then Ok (Tensor3 (B, (N, fst (shape (Linear.weight L))))
                   (map (map (linear_vec L)) (chans x)))
  else Raise (RuntimeError ShapeMismatch).

(** [a.sum(dim=-1, keepdims=True)]. *)
Definition sum_last (a : tensor3) : tensor3 :=
  let '(B, (N, _)) := shape3 a in
  Tensor3 (B, (N, 1)) (map (map (fun row => [lsum row])) (chans a)).

(** [torch.bmm(a, b)]: a matrix product per batch entry; the batch sizes
    and the inner sizes have to agree. *)
Definition bmm (a b : tensor3) : result tensor3 :=
  let '(Ba, (n, m)) := shape3 a in
  let '(Bb, (m', p)) := shape3 b in
  if (Ba =? Bb) && (m =? m')
  then ts <- mapM (fun ab => matmul (fst ab) (snd ab))
                  (combine (iter3 a) (iter3 b)) ;;
       Ok (Tensor3 (Ba, (n, p)) (map rows ts))
  else Raise (RuntimeError ShapeMismatch).

(** [a / d] for two entries.  A division by zero raises nothing: it gives
    an infinity or NaN, values the exact entries do not have, and the model
    stops there as it does for NaN. *)
Definition div_entry (a d : Qc) : result Qc :=
  if Qc_eqb d 0%Qc then NotANumber else Ok (Qcdiv a d).

(** [x / d] for [x] of shape (B, N, P) and [d] of shape (B, N, 1):
    broadcasting divides every row of [x] by the one entry of the row of
    [d]. *)
Definition div_last (x d : tensor3) : result tensor3 :=
  cs <- mapM (fun xd =>
          mapM (fun rd =>
            mapM (fun a => div_entry a (hd 0%Qc (snd rd))) (fst rd))
            (combine (fst xd) (snd xd)))
          (combine (chans x) (chans d)) ;;
  Ok (Tensor3 (shape3 x) cs).

(** [[
class GCNLayer(nn.Module):
    def __init__(self, c_in, c_out):
        super().__init__()
        self.projection = nn.Linear(c_in, c_out)

    def forward(self, node_feats, adj_matrix):
        # Num neighbours = number of incoming edges
        num_neighbours = adj_matrix.sum(dim=-1, keepdims=True)
        node_feats = self.projection(node_feats)
        node_feats = torch.bmm(adj_matrix, node_feats)
        node_feats = node_feats / num_neighbours
        return node_feats
]]
    [node_feats] has the shape (batch_size, num_nodes, c_in) and
    [adj_matrix] the shape (batch_size, num_nodes, num_nodes). *)
Record GCNLayer : Type := {
  projection : Linear.t
}.

Definition GCNLayer_forward (self : GCNLayer) (node_feats adj_matrix : tensor3)
  : result tensor3 :=
  let num_neighbours := sum_last adj_matrix in
  node_feats <- Linear_forward3 (projection self) node_feats ;;
  node_feats <- bmm adj_matrix node_feats ;;
  div_last node_feats num_neighbours.

(** The graph of the notebook: four nodes with two features each, the
    adjacency matrix with the self-connections added, and the layer whose
    weight is set to the identity and whose bias is set to zero. *)
Definition node_feats_demo : tensor3 :=
  Tensor3 (1, (4, 2)) (map (map (map qc)) [[[0; 1]; [2; 3]; [4; 5]; [6; 7]]]%Z).

Definition adj_demo : tensor3 :=
  Tensor3 (1, (4, 4))
    (map (map (map qc))
       [[[1; 1; 0; 0]; [1; 1; 1; 1]; [0; 1; 1; 1]; [0; 1; 1; 1]]]%Z).

Definition layer_demo : GCNLayer :=
  {| projection := {| Linear.weight := tensor_of [[1; 0]; [0; 1]]%Z;
                      Linear.bias := [qc 0; qc 0] |} |}.

(** ** The model construction notebook *)

(** The layer [nn.Linear] on a matrix of shape (n, c), one row per
    example: the number of columns has to be the layer's input size. *)
Definition Linear_forward (L : Linear.t) (X : tensor) : result tensor :=
  if snd (shape X) =? snd (shape (Linear.weight L))
  then Ok (Tensor (fst (shape X), fst (shape (Linear.weight L)))
                  (map (linear_vec L) (rows X)))
  else Raise (RuntimeError ShapeMismatch).

(** [F.relu(X)], and [nn.ReLU()] as a block. *)
Definition relu (X : tensor) : tensor :=
  Tensor (shape X) (map (map (Qcmax 0%Qc)) (rows X)).

(** A block is anything that can be called on a tensor. *)
Definition block : Type := tensor -> result tensor.

Definition ReLU : block := fun X => Ok (relu X).

(** [[
class MLP(nn.Module):
    def __init__(self):
        super().__init__()
        self.hidden = nn.Linear(20, 256)  # Hidden layer
        self.out = nn.Linear(256, 10)  # Output layer

    def forward(self, X):
        return self.out(F.relu(self.hidden(X)))
]] *)
Record MLP : Type := {
  hidden : Linear.t;
  out : Linear.t
}.

Definition MLP_forward (self : MLP) (X : tensor) : result tensor :=
  H <- Linear_forward (hidden self) X ;;
  Linear_forward (out self) (relu H).

(** [str(idx)], the decimal numeral of an index. *)
Definition str (idx : nat) : string :=
  DecimalString.NilEmpty.string_of_uint (Nat.to_uint idx).

(** [d[key] = value] on an ordered dictionary: the value of a key that is
    present is replaced where it stands, a new key goes to the end. *)
Fixpoint od_set {V : Type} (key : string) (value : V)
  (d : list (string * V)) : list (string * V) :=
  match d with
  | [] => [(key, value)]
  | (k, v) :: d' =>
      if String.eqb k key then (k, value) :: d'
      else (k, v) :: od_set key value d'
  end.

(** [enumerate(args)]. *)
Definition enumerate {A : Type} (args : list A) : list (nat * A) :=
  combine (seq 0 (length args)) args.

(** [[
class MySequential(nn.Module):
    def __init__(self, *args):
        super().__init__()
        for idx, module in enumerate(args):
            self._modules[str(idx)] = module

    def forward(self, X):
        for block in self._modules.values():
            X = block(X)
        return X
]] *)
Record MySequential : Type := {
  _modules : list (string * block)
}.

Definition MySequential_init (args : list block) : MySequential :=
  {| _modules :=
       fold_left (fun d im => od_set (str (fst im)) (snd im) d)
                 (enumerate args) [] |}.

(** [for block in blocks: X = block(X)]. *)
Fixpoint run_blocks (blocks : list block) (X : tensor) : result tensor :=
  match blocks with
  | [] => Ok X
  | b :: blocks' => X' <- b X ;; run_blocks blocks' X'
  end.

Definition MySequential_forward (self : MySequential) (X : tensor)
  : result tensor :=
  run_blocks (map snd (_modules self)) X.

(** ** The padding and stride notebook *)

(** [[
def comp_conv2d(conv2d, X):
    X = X.reshape((1, 1) + X.shape)
    Y = conv2d(X)
    return Y.reshape(Y.shape[2:])
]]
    The layer [conv2d] is a parameter; the [print] calls, which write the
    shapes to the standard output, are left out. *)
Definition comp_conv2d (conv2d : tensor4 -> result tensor4) (X : tensor)
  : result tensor :=
  let X4 := Tensor4 (1, (1, shape X)) [[rows X]] in
  Y <- conv2d X4 ;;
  reshape2 (flat4 Y) (snd (snd (shape4 Y))).

(** * Properties *)

(** ** Loops *)

Section Loops.
Context {St : Type}.
Implicit Types (body : nat -> St -> result St) (s : St).

Lemma for_each_app l1 l2 body s :
  for_each (l1 ++ l2) body s = s' <- for_each l1 body s ;; for_each l2 body s'.
Proof.
  revert s; induction l1 as [|i l1 IH]; intros s; simpl; [reflexivity|].
  destruct (body i s); simpl; auto.
Qed.

Lemma for_range_succ n body s :
  for_range (S n) body s = s' <- for_range n body s ;; body n s'.
Proof.
  unfold for_range. rewrite seq_S, for_each_app. simpl.
  destruct (for_each (seq 0 n) body s); simpl; auto.
  destruct (body n a); reflexivity.
Qed.

(** A loop that keeps an invariant and never raises ends with it. *)
Lemma for_range_inv (P : nat -> St -> Prop) n body s :
  P 0 s ->
  (forall k t, k < n -> P k t -> exists t', body k t = Ok t' /\ P (S k) t') ->
  exists t, for_range n body s = Ok t /\ P n t.
Proof.
  intros H0 Hstep. induction n as [|n IH].
  - exists s. split; [reflexivity | assumption].
  - destruct IH as (t & Ht & HP).
    + intros k u Hk. apply Hstep. lia.
    + destruct (Hstep n t (Nat.lt_succ_diag_r n) HP) as (t' & Hb & HP').
      exists t'. rewrite for_range_succ, Ht. simpl. auto.
Qed.

(** A loop whose first round raises, raises. *)
Lemma for_range_first n body s (r : result St) :
  0 < n -> body 0 s = r -> (forall t, r <> Ok t) -> for_range n body s = r.
Proof.
  intros Hn Hb Hr. destruct n as [|n]; [lia|].
  unfold for_range. simpl. rewrite Hb.
  destruct r; simpl; [exfalso; eapply Hr; reflexivity | reflexivity ..].
Qed.

End Loops.

(** ** Lists *)

Lemma list_set_length {A} n (v : A) l : length (list_set n v l) = length l.
Proof.
  revert n; induction l as [|a l IH]; intros [|n]; simpl; auto.
Qed.

Lemma nth_list_set_same {A} n (v d : A) l :
  n < length l -> nth n (list_set n v l) d = v.
Proof.
  revert n; induction l as [|a l IH]; intros [|n] H; simpl in *;
    try lia; auto with arith.
Qed.

Lemma nth_list_set_other {A} n m (v d : A) l :
  m <> n -> nth m (list_set n v l) d = nth m l d.
Proof.
  revert n m; induction l as [|a l IH]; intros [|n] [|m] H; simpl;
    try reflexivity; try congruence.
  apply IH. congruence.
Qed.

Lemma slice1_length {A} a b (l : list A) :
  b <= length l -> length (slice1 a b l) = b - a.
Proof.
  intros H. unfold slice1. rewrite length_firstn, length_skipn. lia.
Qed.

Lemma nth_slice1 {A} a b k (l : list A) d :
  k < b - a -> nth k (slice1 a b l) d = nth (a + k) l d.
Proof.
  intros H. unfold slice1.
  rewrite nth_firstn.
  destruct (Nat.ltb_spec k (b - a)); [|lia].
  apply nth_skipn.
Qed.

Lemma map2_length {A B C} (f : A -> B -> C) l m :
  length m = length l -> length (map2 f l m) = length l.
Proof.
  revert m; induction l as [|a l IH]; intros [|b m] H; simpl in *;
    try discriminate; auto.
Qed.

Lemma nth_map2 {A B C} (f : A -> B -> C) l m k da db dc :
  k < length l -> length m = length l ->
  nth k (map2 f l m) dc = f (nth k l da) (nth k m db).
Proof.
  revert m k; induction l as [|a l IH]; intros [|b m] [|k] Hk H;
    simpl in *; try lia; try discriminate; auto.
  apply IH; lia.
Qed.

(** ** Tensors *)

Lemma wf_iff t :
  wf t <->
  length (rows t) = fst (shape t) /\
  forall i, i < fst (shape t) -> length (nth i (rows t) []) = snd (shape t).
Proof.
  unfold wf, wfb. rewrite andb_true_iff, Nat.eqb_eq, forallb_forall.
  split; intros [Hl Hr]; split; auto.
  - intros i Hi. apply Nat.eqb_eq, Hr, nth_In. lia.
  - intros r Hin. apply Nat.eqb_eq.
    destruct (In_nth _ _ [] Hin) as (i & Hi & <-). apply Hr. lia.
Qed.

Lemma shape_eqb_eq s t : shape_eqb s t = true <-> s = t.
Proof.
  unfold shape_eqb. rewrite andb_true_iff, !Nat.eqb_eq.
  destruct s, t; simpl. split; [intros []; congruence | intros [= -> ->]; auto].
Qed.

Lemma zeros_spec r c :
  (0 <= r)%Z -> (0 <= c)%Z ->
  exists Y, zeros r c = Ok Y /\ wf Y /\ shape Y = (Z.to_nat r, Z.to_nat c)
            /\ forall i j, cell Y i j = 0%Qc.
Proof.
  intros Hr Hc. unfold zeros.
  destruct (Z.ltb_spec r 0); [lia|]. destruct (Z.ltb_spec c 0); [lia|]. simpl.
  eexists. split; [reflexivity|]. split; [|split; [reflexivity|]].
  - apply wf_iff. simpl. rewrite repeat_length. split; [reflexivity|].
    intros i Hi. rewrite nth_repeat_lt by assumption. apply repeat_length.
  - intros i j. unfold cell. simpl.
    destruct (Nat.lt_ge_cases i (Z.to_nat r)).
    + rewrite nth_repeat_lt by assumption.
      destruct (Nat.lt_ge_cases j (Z.to_nat c)).
      * now rewrite nth_repeat_lt.
      * apply nth_overflow. now rewrite repeat_length.
    + rewrite (nth_overflow (repeat _ _)) by now rewrite repeat_length.
      now destruct j.
Qed.

Lemma zeros_negative r c :
  (r < 0)%Z \/ (c < 0)%Z -> zeros r c = Raise (RuntimeError NegativeDimension).
Proof.
  intros H. unfold zeros.
  destruct (Z.ltb_spec r 0); [reflexivity|].
  destruct (Z.ltb_spec c 0); [reflexivity|]. lia.
Qed.

Lemma setitem_spec Y i j v :
  wf Y -> i < fst (shape Y) -> j < snd (shape Y) ->
  exists Y', setitem Y i j v = Ok Y' /\ wf Y' /\ shape Y' = shape Y
             /\ cell Y' i j = v
             /\ forall i' j', (i' <> i \/ j' <> j) -> cell Y' i' j' = cell Y i' j'.
Proof.
  intros Hwf Hi Hj. apply wf_iff in Hwf. destruct Hwf as [Hl Hr].
  unfold setitem.
  destruct (Nat.ltb_spec i (fst (shape Y))); [|lia].
  destruct (Nat.ltb_spec j (snd (shape Y))); [|lia]. simpl.
  eexists. split; [reflexivity|]. repeat split.
  - apply wf_iff. simpl. rewrite list_set_length. split; [assumption|].
    intros k Hk. destruct (Nat.eq_dec k i) as [->|Hne].
    + rewrite nth_list_set_same by lia. rewrite list_set_length. auto.
    + rewrite nth_list_set_other by assumption. auto.
  - unfold cell. simpl. rewrite nth_list_set_same by lia.
    apply nth_list_set_same. rewrite Hr; assumption.
  - intros i' j' Hne. unfold cell. simpl.
    destruct (Nat.eq_dec i' i) as [->|Hi'].
    + rewrite nth_list_set_same by lia.
      apply nth_list_set_other. destruct Hne; congruence.
    + now rewrite nth_list_set_other.
Qed.

(** ** The two nested loops over the output buffer *)

(** When every round assigns [g i j] to the cell (i, j), the loops end
    with a buffer holding [g] in every cell. *)
Lemma fill_cells Ho Wo (body : nat -> nat -> tensor -> result tensor) g Y0 :
  wf Y0 -> shape Y0 = (Ho, Wo) ->
  (forall i j Y, i < Ho -> j < Wo -> wf Y -> shape Y = (Ho, Wo) ->
                 body i j Y = setitem Y i j (g i j)) ->
  exists Y,
    for_range (fst (shape Y0)) (fun i Y =>
      for_range (snd (shape Y)) (fun j Y => body i j Y) Y) Y0 = Ok Y
    /\ wf Y /\ shape Y = (Ho, Wo)
    /\ forall i j, i < Ho -> j < Wo -> cell Y i j = g i j.
Proof.
  intros Hwf Hsh Hbody. rewrite Hsh. simpl.
  destruct (for_range_inv
    (fun i Y => wf Y /\ shape Y = (Ho, Wo)
                /\ forall i' j, i' < i -> j < Wo -> cell Y i' j = g i' j)
    Ho (fun i Y => for_range (snd (shape Y)) (fun j Y => body i j Y) Y) Y0)
    as (Y & HY & HwfY & HshY & Hc).
  - repeat split; auto. intros; lia.
  - intros i Y Hi (HwfY & HshY & Hdone). rewrite HshY. simpl.
    destruct (for_range_inv
      (fun j Y' => wf Y' /\ shape Y' = (Ho, Wo)
                   /\ (forall i' j', i' < i -> j' < Wo -> cell Y' i' j' = g i' j')
                   /\ forall j', j' < j -> cell Y' i j' = g i j')
      Wo (fun j Y => body i j Y) Y) as (Y' & HY' & HwfY' & HshY' & Hold & Hrow).
    + repeat split; auto. intros; lia.
    + intros j Y' Hj (HwfY' & HshY' & Hold & Hrow).
      rewrite Hbody by assumption.
      destruct (setitem_spec Y' i j (g i j) HwfY') as (Y'' & -> & Hw & Hs & Hv & Hrest);
        try (rewrite HshY'; simpl; assumption).
      exists Y''. split; [reflexivity|]. repeat split; try congruence.
      * intros i' j' Hi' Hj'. rewrite Hrest by lia. auto.
      * intros j' Hj'. destruct (Nat.eq_dec j' j) as [->|Hne]; [assumption|].
        rewrite Hrest by lia. apply Hrow. lia.
    + exists Y'. split; [assumption|]. repeat split; auto.
      intros i' j Hi' Hj. destruct (Nat.eq_dec i' i) as [->|Hne]; [now apply Hrow|].
      apply Hold; lia.
  - exists Y. repeat split; auto.
Qed.

(** When no round assigns anything, the buffer is returned as it was. *)
Lemma fill_nothing (body : nat -> nat -> tensor -> result tensor) Y0 :
  (forall i j Y, i < fst (shape Y0) -> j < snd (shape Y0) -> body i j Y = Ok Y) ->
  for_range (fst (shape Y0)) (fun i Y =>
    for_range (snd (shape Y)) (fun j Y => body i j Y) Y) Y0 = Ok Y0.
Proof.
  intros Hbody.
  destruct (for_range_inv (fun _ Y => Y = Y0) (fst (shape Y0))
    (fun i Y => for_range (snd (shape Y)) (fun j Y => body i j Y) Y) Y0)
    as (Y & HY & ->); auto.
  intros i Y Hi ->.
  destruct (for_range_inv (fun _ Y => Y = Y0) (snd (shape Y0))
    (fun j Y => body i j Y) Y0) as (Y & HY & ->); auto.
  - intros j Y Hj ->. exists Y0. split; auto.
  - exists Y0. split; auto.
Qed.

(** When the very first round does not return, neither do the loops. *)
Lemma fill_first (body : nat -> nat -> tensor -> result tensor) Y0 r :
  0 < fst (shape Y0) -> 0 < snd (shape Y0) ->
  body 0 0 Y0 = r -> (forall Y, r <> Ok Y) ->
  for_range (fst (shape Y0)) (fun i Y =>
    for_range (snd (shape Y)) (fun j Y => body i j Y) Y) Y0 = r.
Proof.
  intros H0 H1 Hb Hr.
  apply for_range_first; auto.
  apply for_range_first; auto.
Qed.

(** ** Windows, products and sums *)

Lemma nth_map_lt {A B} (f : A -> B) l k da db :
  k < length l -> nth k (map f l) db = f (nth k l da).
Proof.
  intros H. rewrite (nth_indep _ db (f da)) by now rewrite length_map.
  apply map_nth.
Qed.

Lemma slice_spec X H W i h j w :
  wf X -> shape X = (H, W) -> i + h <= H -> j + w <= W ->
  wf (slice X i (i + h) j (j + w))
  /\ shape (slice X i (i + h) j (j + w)) = (h, w)
  /\ forall p q, p < h -> q < w ->
       cell (slice X i (i + h) j (j + w)) p q = cell X (i + p) (j + q).
Proof.
  intros Hwf Hsh Hi Hj. apply wf_iff in Hwf. rewrite Hsh in Hwf. simpl in Hwf.
  destruct Hwf as [Hl Hr].
  assert (Hlen : length (slice1 i (i + h) (rows X)) = h)
    by (rewrite slice1_length; lia).
  assert (Hrow : forall p, p < h ->
            nth p (map (slice1 j (j + w)) (slice1 i (i + h) (rows X))) []
            = slice1 j (j + w) (nth (i + p) (rows X) [])).
  { intros p Hp. rewrite (nth_map_lt _ _ _ []) by lia.
    rewrite nth_slice1 by lia. reflexivity. }
  assert (Hs : shape (slice X i (i + h) j (j + w)) = (h, w)).
  { unfold slice. simpl. rewrite Hsh. simpl. f_equal; lia. }
  split; [|split; [assumption|]].
  - apply wf_iff. rewrite Hs. simpl. rewrite length_map. split; [assumption|].
    intros p Hp. rewrite Hrow by assumption.
    rewrite slice1_length; [lia|]. rewrite Hr; lia.
  - intros p q Hp Hq. unfold cell. simpl. rewrite Hrow by assumption.
    apply nth_slice1. lia.
Qed.

(** Combining two grids of one shape cell by cell. *)
Lemma map2_grid (f : Qc -> Qc -> Qc) A B h w :
  wf A -> wf B -> shape A = (h, w) -> shape B = (h, w) ->
  wf (Tensor (h, w) (map2 (map2 f) (rows A) (rows B)))
  /\ forall p q, p < h -> q < w ->
       cell (Tensor (h, w) (map2 (map2 f) (rows A) (rows B))) p q
       = f (cell A p q) (cell B p q).
Proof.
  intros HA HB HsA HsB. apply wf_iff in HA, HB.
  rewrite HsA in HA. rewrite HsB in HB. simpl in *.
  destruct HA as [HlA HrA], HB as [HlB HrB].
  assert (Hrow : forall p, p < h ->
            nth p (map2 (map2 f) (rows A) (rows B)) []
            = map2 f (nth p (rows A) []) (nth p (rows B) [])).
  { intros p Hp. apply nth_map2; lia. }
  split.
  - apply wf_iff. simpl. rewrite map2_length by lia. split; [assumption|].
    intros p Hp. rewrite Hrow by assumption.
    rewrite map2_length; rewrite ?HrA, ?HrB; auto.
  - intros p q Hp Hq. unfold cell. simpl. rewrite Hrow by assumption.
    apply nth_map2; rewrite ?HrA, ?HrB; auto.
Qed.

Lemma tmul_spec A B h w :
  wf A -> wf B -> shape A = (h, w) -> shape B = (h, w) ->
  exists P, tmul A B = Ok P /\ wf P /\ shape P = (h, w)
            /\ forall p q, p < h -> q < w ->
                 cell P p q = (cell A p q * cell B p q)%Qc.
Proof.
  intros HA HB HsA HsB.
  destruct (map2_grid Qcmult A B h w HA HB HsA HsB) as [Hw Hc].
  unfold tmul. rewrite HsA, HsB.
  replace (shape_eqb (h, w) (h, w)) with true
    by (symmetry; now apply shape_eqb_eq).
  eexists. split; [reflexivity|]. auto.
Qed.

Lemma tadd_spec A B h w :
  wf A -> wf B -> shape A = (h, w) -> shape B = (h, w) ->
  exists P, tadd A B = Ok P /\ wf P /\ shape P = (h, w)
            /\ forall p q, p < h -> q < w ->
                 cell P p q = (cell A p q + cell B p q)%Qc.
Proof.
  intros HA HB HsA HsB.
  destruct (map2_grid Qcplus A B h w HA HB HsA HsB) as [Hw Hc].
  unfold tadd. rewrite HsA, HsB.
  replace (shape_eqb (h, w) (h, w)) with true
    by (symmetry; now apply shape_eqb_eq).
  eexists. split; [reflexivity|]. auto.
Qed.

Lemma sum_upto_ext n f g :
  (forall k, k < n -> f k = g k) -> sum_upto n f = sum_upto n g.
Proof.
  intros H. induction n as [|n IH]; simpl; [reflexivity|].
  rewrite IH, H; auto.
Qed.

Lemma fold_left_Qcplus l a : fold_left Qcplus l a = (a + lsum l)%Qc.
Proof.
  unfold lsum. revert a. induction l as [|x l IH]; intros a; simpl.
  - now rewrite Qcplus_0_r.
  - rewrite IH, (IH (0 + x)%Qc). ring.
Qed.

Lemma lsum_app l m : lsum (l ++ m) = (lsum l + lsum m)%Qc.
Proof.
  unfold lsum at 1. rewrite fold_left_app. fold (lsum l).
  apply fold_left_Qcplus.
Qed.

(** The sum of a list is the sum of its entries taken by index. *)
Lemma lsum_nth l : lsum l = sum_upto (length l) (fun q => nth q l 0%Qc).
Proof.
  induction l as [|x l IH] using rev_ind; [reflexivity|].
  rewrite lsum_app, length_app, Nat.add_1_r. simpl.
  rewrite app_nth2, Nat.sub_diag by lia. simpl.
  rewrite IH. unfold lsum at 1. simpl. rewrite Qcplus_0_l. f_equal.
  apply sum_upto_ext. intros k Hk. now rewrite app_nth1.
Qed.

Lemma lsum_concat (ll : list (list Qc)) :
  lsum (concat ll) = sum_upto (length ll) (fun p => lsum (nth p ll [])).
Proof.
  induction ll as [|r ll IH] using rev_ind; [reflexivity|].
  rewrite concat_app, lsum_app, length_app, Nat.add_1_r. simpl.
  rewrite app_nil_r, app_nth2, Nat.sub_diag by lia. simpl.
  rewrite IH. f_equal.
  apply sum_upto_ext. intros k Hk. now rewrite app_nth1.
Qed.

(** [t.sum()] is the double sum over the rows and the columns. *)
Lemma tsum_spec T h w :
  wf T -> shape T = (h, w) ->
  tsum T = sum_upto h (fun p => sum_upto w (fun q => cell T p q)).
Proof.
  intros Hwf Hs. apply wf_iff in Hwf. rewrite Hs in Hwf. simpl in Hwf.
  destruct Hwf as [Hl Hr].
  unfold tsum. rewrite lsum_concat, Hl.
  apply sum_upto_ext. intros p Hp.
  rewrite lsum_nth, Hr by assumption. reflexivity.
Qed.

(** ** [corr2d] *)

(** The whole behaviour of [corr2d] on kernels that exceed the grid by at
    most one row and one column. *)
Lemma corr2d_cells X K H W kh kw :
  wf X -> shape X = (H, W) -> wf K -> shape K = (kh, kw) ->
  kh <= H + 1 -> kw <= W + 1 ->
  exists Y, corr2d X K = Ok Y /\ wf Y /\ shape Y = (H + 1 - kh, W + 1 - kw)
    /\ forall i j, i < H + 1 - kh -> j < W + 1 - kw ->
         cell Y i j =
         sum_upto kh (fun p => sum_upto kw (fun q =>
           (cell X (i + p) (j + q) * cell K p q)%Qc)).
Proof.
  intros HX HsX HK HsK Hh Hw. unfold corr2d. rewrite HsK, HsX. simpl.
  destruct (zeros_spec (Z.of_nat H - Z.of_nat kh + 1) (Z.of_nat W - Z.of_nat kw + 1))
    as (Y0 & -> & HwfY0 & HsY0 & _); try lia.
  replace (Z.to_nat (Z.of_nat H - Z.of_nat kh + 1)) with (H + 1 - kh) in HsY0 by lia.
  replace (Z.to_nat (Z.of_nat W - Z.of_nat kw + 1)) with (W + 1 - kw) in HsY0 by lia.
  simpl.
  apply (fill_cells (H + 1 - kh) (W + 1 - kw)
           (fun i j Y => P <- tmul (slice X i (i + kh) j (j + kw)) K ;;
                         setitem Y i j (tsum P))
           (fun i j => sum_upto kh (fun p => sum_upto kw (fun q =>
              (cell X (i + p) (j + q) * cell K p q)%Qc)))); auto.
  intros i j Y Hi Hj _ _.
  destruct (slice_spec X H W i kh j kw HX HsX) as (HwS & HsS & HcS); try lia.
  destruct (tmul_spec _ K kh kw HwS HK HsS HsK) as (P & -> & HwP & HsP & HcP).
  simpl. f_equal. rewrite (tsum_spec P kh kw HwP HsP).
  apply sum_upto_ext. intros p Hp. apply sum_upto_ext. intros q Hq.
  rewrite HcP, HcS by assumption. reflexivity.
Qed.

Lemma Qc_eqb_eq a b : Qc_eqb a b = true -> a = b.
Proof. intros H. apply Qc_is_canon, Qeq_bool_eq, H. Qed.

Lemma list_eqb_eq {A} (eqb : A -> A -> bool) :
  (forall a b, eqb a b = true -> a = b) ->
  forall l m, list_eqb eqb l m = true -> l = m.
Proof.
  intros Heq. induction l as [|a l IH]; intros [|b m] H; simpl in H;
    try discriminate; auto.
  apply andb_true_iff in H. destruct H as [H1 H2].
  f_equal; auto.
Qed.

Lemma tensor_eqb_eq s t : tensor_eqb s t = true -> s = t.
Proof.
  unfold tensor_eqb. intros H. apply andb_true_iff in H. destruct H as [H1 H2].
  apply shape_eqb_eq in H1.
  apply (list_eqb_eq _ (list_eqb_eq _ Qc_eqb_eq)) in H2.
  destruct s, t; simpl in *; congruence.
Qed.

(** Two outcomes that compute to equal tensors are equal. *)
Lemma Ok_by_eqb (r : result tensor) t :
  match r with Ok Y => tensor_eqb Y t | _ => false end = true -> r = Ok t.
Proof.
  destruct r; try discriminate. intros H. f_equal. now apply tensor_eqb_eq.
Qed.

(** C1.  On a grid of shape (H, W) and a kernel of shape (kh, kw) with
    1 <= kh <= H and 1 <= kw <= W, [corr2d] returns a grid of shape
    (H - kh + 1, W - kw + 1) whose cell (i, j) is the sum over the window
    positions (p, q) of X[i+p, j+q] * K[p, q]; on the notebook's grid and
    kernel the result is [[19, 25], [37, 43]]. *)
Theorem corr2d_weighted_sum (X K : tensor) (H W kh kw : nat) :
  wf X -> shape X = (H, W) -> wf K -> shape K = (kh, kw) ->
  1 <= kh <= H -> 1 <= kw <= W ->
  (exists Y, corr2d X K = Ok Y /\ wf Y
     /\ shape Y = (H - kh + 1, W - kw + 1)
     /\ forall i j, i < H - kh + 1 -> j < W - kw + 1 ->
          cell Y i j =
          sum_upto kh (fun p => sum_upto kw (fun q =>
            (cell X (i + p) (j + q) * cell K p q)%Qc)))
  /\ corr2d X_demo K_demo = Ok (tensor_of [[19; 25]; [37; 43]]%Z).
Proof.
  intros HX HsX HK HsK Hh Hw. split.
  - destruct (corr2d_cells X K H W kh kw HX HsX HK HsK) as (Y & HY & HwY & HsY & Hc);
      try lia.
    exists Y. split; [assumption|]. split; [assumption|].
    replace (H - kh + 1) with (H + 1 - kh) by lia.
    replace (W - kw + 1) with (W + 1 - kw) by lia.
    auto.
  - apply Ok_by_eqb. vm_compute. reflexivity.
Qed.

Lemma corr2d_weighted_sum_witness :
  wf X_demo /\ wf K_demo /\
  exists Y, corr2d X_demo K_demo = Ok Y /\ wf Y /\ shape Y = (2, 2)
    /\ forall i j, i < 2 -> j < 2 ->
         cell Y i j =
         sum_upto 2 (fun p => sum_upto 2 (fun q =>
           (cell X_demo (i + p) (j + q) * cell K_demo p q)%Qc)).
Proof.
  split; [reflexivity|]. split; [reflexivity|].
  apply (corr2d_weighted_sum X_demo K_demo 3 3 2 2);
    try reflexivity; lia.
Defined.

(** ** Maxima and means of windows *)

Lemma Qcmax_cases a b : Qcmax a b = a \/ Qcmax a b = b.
Proof. unfold Qcmax. destruct (a ?= b)%Qc; auto. Qed.

Lemma Qcmax_ub_l a b : (a <= Qcmax a b)%Qc.
Proof.
  unfold Qcmax. destruct (a ?= b)%Qc eqn:E; try apply Qcle_refl.
  apply Qclt_le_weak, Qclt_alt, E.
Qed.

Lemma Qcmax_ub_r a b : (b <= Qcmax a b)%Qc.
Proof.
  unfold Qcmax. destruct (a ?= b)%Qc eqn:E; try apply Qcle_refl.
  - apply Qceq_alt in E. subst. apply Qcle_refl.
  - apply Qclt_le_weak, Qcgt_alt, E.
Qed.

(** The running maximum is one of the entries and bounds them all. *)
Lemma fold_Qcmax_spec l x :
  In (fold_left Qcmax l x) (x :: l)
  /\ forall y, In y (x :: l) -> (y <= fold_left Qcmax l x)%Qc.
Proof.
  revert x. induction l as [|a l IH]; intros x; simpl.
  - split; [auto|]. intros y [<-|[]]. apply Qcle_refl.
  - destruct (IH (Qcmax x a)) as [Hin Hub]. split.
    + destruct Hin as [Hin|Hin]; [|auto].
      rewrite <- Hin. destruct (Qcmax_cases x a) as [->| ->]; auto.
    + intros y [<-|[<-|Hy]].
      * eapply Qcle_trans; [apply Qcmax_ub_l | apply Hub; left; reflexivity].
      * eapply Qcle_trans; [apply Qcmax_ub_r | apply Hub; left; reflexivity].
      * apply Hub. right. assumption.
Qed.

(** The entries of a well-formed tensor are its cells. *)
Lemma in_flat_iff T h w y :
  wf T -> shape T = (h, w) ->
  In y (concat (rows T)) <-> exists p q, p < h /\ q < w /\ y = cell T p q.
Proof.
  intros Hwf Hs. apply wf_iff in Hwf. rewrite Hs in Hwf. simpl in Hwf.
  destruct Hwf as [Hl Hr]. rewrite in_concat. split.
  - intros (r & Hr1 & Hy).
    destruct (In_nth _ _ [] Hr1) as (p & Hp & <-).
    destruct (In_nth _ _ 0%Qc Hy) as (q & Hq & <-).
    exists p, q. rewrite Hr in Hq by lia. repeat split; auto; lia.
  - intros (p & q & Hp & Hq & ->).
    exists (nth p (rows T) []). split; apply nth_In; [lia|].
    rewrite Hr; assumption.
Qed.

Lemma concat_length_uniform {A} (ll : list (list A)) w :
  forallb (fun r => length r =? w) ll = true ->
  length (concat ll) = length ll * w.
Proof.
  induction ll as [|r l IH]; simpl; [reflexivity|].
  intros Hr. apply andb_true_iff in Hr. destruct Hr as [Hr1 Hr2].
  apply Nat.eqb_eq in Hr1. rewrite length_app, IH, Hr1; auto.
Qed.

Lemma flat_length T h w :
  wf T -> shape T = (h, w) -> length (concat (rows T)) = h * w.
Proof.
  intros Hwf Hs. unfold wf, wfb in Hwf. rewrite Hs in Hwf. simpl in Hwf.
  apply andb_true_iff in Hwf. destruct Hwf as [Hl Hr].
  apply Nat.eqb_eq in Hl. rewrite <- Hl.
  now apply concat_length_uniform.
Qed.

Lemma tmax_spec T h w :
  wf T -> shape T = (h, w) -> 0 < h -> 0 < w ->
  exists m, tmax T = Ok m
    /\ (exists p q, p < h /\ q < w /\ m = cell T p q)
    /\ forall p q, p < h -> q < w -> (cell T p q <= m)%Qc.
Proof.
  intros Hwf Hs Hh Hw.
  pose proof (in_flat_iff T h w) as Hin.
  unfold tmax. destruct (concat (rows T)) as [|x l] eqn:E.
  - exfalso. apply (proj2 (Hin (cell T 0 0) Hwf Hs)). eauto.
  - destruct (fold_Qcmax_spec l x) as [Hm Hub].
    exists (fold_left Qcmax l x). split; [reflexivity|]. split.
    + apply (Hin _ Hwf Hs). assumption.
    + intros p q Hp Hq. apply Hub. apply (Hin _ Hwf Hs). eauto.
Qed.

Lemma tmax_empty T h w :
  wf T -> shape T = (h, w) -> h * w = 0 ->
  tmax T = Raise (RuntimeError EmptyReduction).
Proof.
  intros Hwf Hs H0. pose proof (flat_length T h w Hwf Hs) as Hlen.
  unfold tmax. destruct (concat (rows T)); [reflexivity|].
  simpl in Hlen. lia.
Qed.

Lemma tmean_spec T h w :
  wf T -> shape T = (h, w) -> 0 < h -> 0 < w ->
  tmean Floating T = Ok (tsum T / qc (Z.of_nat (h * w)))%Qc.
Proof.
  intros Hwf Hs Hh Hw. pose proof (flat_length T h w Hwf Hs) as Hlen.
  unfold tmean, tsum. destruct (concat (rows T)) as [|x l] eqn:E.
  - simpl in Hlen. nia.
  - rewrite Hlen. reflexivity.
Qed.

(** ** [pool2d] *)

(** The buffer [pool2d] and [corr2d] allocate when the window exceeds the
    grid by at most one row and one column. *)
Lemma buffer_spec H W kh kw :
  kh <= H + 1 -> kw <= W + 1 ->
  exists Y0,
    zeros (Z.of_nat H - Z.of_nat kh + 1) (Z.of_nat W - Z.of_nat kw + 1) = Ok Y0
    /\ wf Y0 /\ shape Y0 = (H + 1 - kh, W + 1 - kw)
    /\ forall i j, cell Y0 i j = 0%Qc.
Proof.
  intros Hh Hw.
  destruct (zeros_spec (Z.of_nat H - Z.of_nat kh + 1) (Z.of_nat W - Z.of_nat kw + 1))
    as (Y0 & HY0 & HwfY0 & HsY0 & Hc); try lia.
  replace (Z.to_nat (Z.of_nat H - Z.of_nat kh + 1)) with (H + 1 - kh) in HsY0 by lia.
  replace (Z.to_nat (Z.of_nat W - Z.of_nat kw + 1)) with (W + 1 - kw) in HsY0 by lia.
  eauto.
Qed.

(** [pool2d] fills the buffer with whatever its reduction returns. *)
Lemma pool2d_on_cells d X H W kh kw mode (g : nat -> nat -> Qc) :
  shape X = (H, W) -> kh <= H + 1 -> kw <= W + 1 ->
  (forall i j Y, i < H + 1 - kh -> j < W + 1 - kw ->
     (if String.eqb mode "max" then
        v <- tmax (slice X i (i + kh) j (j + kw)) ;; setitem Y i j v
      else if String.eqb mode "avg" then
        v <- tmean d (slice X i (i + kh) j (j + kw)) ;; setitem Y i j v
      else Ok Y) = setitem Y i j (g i j)) ->
  exists Y, pool2d_on d X (kh, kw) mode = Ok Y /\ wf Y
    /\ shape Y = (H + 1 - kh, W + 1 - kw)
    /\ forall i j, i < H + 1 - kh -> j < W + 1 - kw -> cell Y i j = g i j.
Proof.
  intros HsX Hh Hw Hbody. unfold pool2d_on. rewrite HsX. simpl fst. simpl snd.
  destruct (buffer_spec H W kh kw Hh Hw) as (Y0 & -> & HwfY0 & HsY0 & _).
  simpl.
  apply (fill_cells (H + 1 - kh) (W + 1 - kw)
           (fun i j Y =>
              if String.eqb mode "max" then
                v <- tmax (slice X i (i + kh) j (j + kw)) ;; setitem Y i j v
              else if String.eqb mode "avg" then
                v <- tmean d (slice X i (i + kh) j (j + kw)) ;; setitem Y i j v
              else Ok Y) g); auto.
Qed.

Lemma pool2d_cells X H W kh kw mode (g : nat -> nat -> Qc) :
  shape X = (H, W) -> kh <= H + 1 -> kw <= W + 1 ->
  (forall i j Y, i < H + 1 - kh -> j < W + 1 - kw ->
     (if String.eqb mode "max" then
        v <- tmax (slice X i (i + kh) j (j + kw)) ;; setitem Y i j v
      else if String.eqb mode "avg" then
        v <- tmean Floating (slice X i (i + kh) j (j + kw)) ;; setitem Y i j v
      else Ok Y) = setitem Y i j (g i j)) ->
  exists Y, pool2d X (kh, kw) mode = Ok Y /\ wf Y
    /\ shape Y = (H + 1 - kh, W + 1 - kw)
    /\ forall i j, i < H + 1 - kh -> j < W + 1 - kw -> cell Y i j = g i j.
Proof. apply pool2d_on_cells. Qed.

(** Mode 'max' on windows that fit the grid. *)
Lemma pool2d_max_cells X H W kh kw :
  wf X -> shape X = (H, W) -> 1 <= kh <= H -> 1 <= kw <= W ->
  exists Y, pool2d X (kh, kw) "max" = Ok Y /\ wf Y
    /\ shape Y = (H + 1 - kh, W + 1 - kw)
    /\ forall i j, i < H + 1 - kh -> j < W + 1 - kw ->
         (exists p q, p < kh /\ q < kw /\ cell Y i j = cell X (i + p) (j + q))
         /\ forall p q, p < kh -> q < kw ->
              (cell X (i + p) (j + q) <= cell Y i j)%Qc.
Proof.
  intros HX HsX Hh Hw.
  set (g := fun i j => match tmax (slice X i (i + kh) j (j + kw)) with
                       | Ok m => m
                       | _ => 0%Qc
                       end).
  assert (Hg : forall i j, i < H + 1 - kh -> j < W + 1 - kw ->
            tmax (slice X i (i + kh) j (j + kw)) = Ok (g i j)
            /\ (exists p q, p < kh /\ q < kw /\ g i j = cell X (i + p) (j + q))
            /\ forall p q, p < kh -> q < kw ->
                 (cell X (i + p) (j + q) <= g i j)%Qc).
  { intros i j Hi Hj.
    destruct (slice_spec X H W i kh j kw HX HsX) as (HwS & HsS & HcS); try lia.
    destruct (tmax_spec _ kh kw HwS HsS) as (m & Hm & (p & q & Hp & Hq & Hpq) & Hub);
      try lia.
    unfold g. rewrite Hm. split; [reflexivity|]. split.
    - exists p, q. rewrite <- HcS by assumption. auto.
    - intros p' q' Hp' Hq'. rewrite <- HcS by assumption. auto. }
  destruct (pool2d_cells X H W kh kw "max" g HsX) as (Y & HY & HwY & HsY & Hc);
    try lia.
  - intros i j Y Hi Hj. simpl. destruct (Hg i j Hi Hj) as [-> _]. reflexivity.
  - exists Y. repeat split; auto; rewrite Hc by assumption; apply Hg; assumption.
Qed.

(** Mode 'avg' on windows that fit the grid. *)
Lemma pool2d_avg_cells X H W kh kw :
  wf X -> shape X = (H, W) -> 1 <= kh <= H -> 1 <= kw <= W ->
  exists Y, pool2d X (kh, kw) "avg" = Ok Y /\ wf Y
    /\ shape Y = (H + 1 - kh, W + 1 - kw)
    /\ forall i j, i < H + 1 - kh -> j < W + 1 - kw ->
         cell Y i j =
         (sum_upto kh (fun p => sum_upto kw (fun q => cell X (i + p) (j + q)))
          / qc (Z.of_nat (kh * kw)))%Qc.
Proof.
  intros HX HsX Hh Hw.
  apply pool2d_cells; try lia; try assumption.
  intros i j Y Hi Hj. simpl.
  destruct (slice_spec X H W i kh j kw HX HsX) as (HwS & HsS & HcS); try lia.
  rewrite (tmean_spec _ kh kw HwS HsS) by lia. simpl.
  rewrite (tsum_spec _ kh kw HwS HsS). do 2 f_equal.
  apply sum_upto_ext. intros p Hp. apply sum_upto_ext. intros q Hq. auto.
Qed.

(** Any other mode: no cell is ever assigned. *)
Lemma pool2d_other_cells X H W kh kw mode :
  shape X = (H, W) -> kh <= H + 1 -> kw <= W + 1 ->
  mode <> "max"%string -> mode <> "avg"%string ->
  exists Y, pool2d X (kh, kw) mode = Ok Y
    /\ zeros (Z.of_nat H - Z.of_nat kh + 1) (Z.of_nat W - Z.of_nat kw + 1) = Ok Y
    /\ wf Y /\ shape Y = (H + 1 - kh, W + 1 - kw)
    /\ forall i j, cell Y i j = 0%Qc.
Proof.
  intros HsX Hh Hw Hmax Havg. unfold pool2d, pool2d_on. rewrite HsX. simpl fst. simpl snd.
  destruct (buffer_spec H W kh kw Hh Hw) as (Y0 & -> & HwfY0 & HsY0 & Hc).
  simpl. exists Y0. repeat split; auto.
  apply (fill_nothing (fun i j Y =>
           if String.eqb mode "max" then
             v <- tmax (slice X i (i + kh) j (j + kw)) ;; setitem Y i j v
           else if String.eqb mode "avg" then
             v <- tmean Floating (slice X i (i + kh) j (j + kw)) ;; setitem Y i j v
           else Ok Y)).
  intros i j Y _ _.
  apply String.eqb_neq in Hmax, Havg. now rewrite Hmax, Havg.
Qed.

(** A window more than one cell larger than the grid: the buffer cannot
    be allocated. *)
Lemma pool2d_negative X H W kh kw mode :
  shape X = (H, W) -> H + 1 < kh \/ W + 1 < kw ->
  pool2d X (kh, kw) mode = Raise (RuntimeError NegativeDimension).
Proof.
  intros HsX Hbig. unfold pool2d, pool2d_on. rewrite HsX. simpl fst. simpl snd.
  rewrite zeros_negative by lia. reflexivity.
Qed.

Lemma corr2d_negative X K H W kh kw :
  shape X = (H, W) -> shape K = (kh, kw) -> H + 1 < kh \/ W + 1 < kw ->
  corr2d X K = Raise (RuntimeError NegativeDimension).
Proof.
  intros HsX HsK Hbig. unfold corr2d. rewrite HsX, HsK. simpl fst. simpl snd.
  rewrite zeros_negative by lia. reflexivity.
Qed.

(** On well-formed operands [corr2d] either cannot allocate its buffer or
    returns: the window always has the kernel's shape and every index is
    in range, so no other exception leaves it. *)
Lemma corr2d_exceptions X K e :
  wf X -> wf K -> corr2d X K = Raise e ->
  e = RuntimeError NegativeDimension.
Proof.
  intros HX HK He.
  destruct (shape X) as [H W] eqn:HsX. destruct (shape K) as [kh kw] eqn:HsK.
  destruct (Nat.lt_ge_cases (H + 1) kh) as [Hh|Hh];
    [rewrite (corr2d_negative X K H W kh kw HsX HsK (or_introl Hh)) in He;
     congruence|].
  destruct (Nat.lt_ge_cases (W + 1) kw) as [Hw|Hw];
    [rewrite (corr2d_negative X K H W kh kw HsX HsK (or_intror Hw)) in He;
     congruence|].
  destruct (corr2d_cells X K H W kh kw HX HsX HK HsK Hh Hw) as (Y & HY & _).
  congruence.
Qed.

(** A window exactly one cell larger than the grid on an axis: the buffer
    has no cell, the loops make no round, and the buffer is returned. *)
Lemma pool2d_no_cell X H W kh kw mode :
  shape X = (H, W) -> kh <= H + 1 -> kw <= W + 1 ->
  kh = H + 1 \/ kw = W + 1 ->
  exists Y, pool2d X (kh, kw) mode = Ok Y /\ wf Y
    /\ shape Y = (H + 1 - kh, W + 1 - kw).
Proof.
  intros HsX Hh Hw Hone.
  destruct (pool2d_cells X H W kh kw mode (fun _ _ => 0%Qc) HsX Hh Hw)
    as (Y & HY & HwY & HsY & _).
  - intros i j Y Hi Hj. lia.
  - eauto.
Qed.

(** C2.  On a grid of shape (H, W) and a window (kh, kw) with 1 <= kh <= H
    and 1 <= kw <= W, [pool2d] in mode 'max' returns a grid whose cell
    (i, j) is the maximum of the window X[i..i+kh-1, j..j+kw-1]: it is one
    of the window's entries and no entry of the window exceeds it.  On the
    notebook's grid with window (2, 2) the result is [[4, 5], [7, 8]]. *)
Theorem pool2d_max_is_window_max (X : tensor) (H W kh kw : nat) :
  wf X -> shape X = (H, W) -> 1 <= kh <= H -> 1 <= kw <= W ->
  (exists Y, pool2d X (kh, kw) "max" = Ok Y /\ wf Y
     /\ shape Y = (H - kh + 1, W - kw + 1)
     /\ forall i j, i < H - kh + 1 -> j < W - kw + 1 ->
          (exists p q, p < kh /\ q < kw /\ cell Y i j = cell X (i + p) (j + q))
          /\ forall p q, p < kh -> q < kw ->
               (cell X (i + p) (j + q) <= cell Y i j)%Qc)
  /\ pool2d X_demo (2, 2) "max" = Ok (tensor_of [[4; 5]; [7; 8]]%Z).
Proof.
  intros HX HsX Hh Hw. split; [|apply Ok_by_eqb; vm_compute; reflexivity].
  replace (H - kh + 1) with (H + 1 - kh) by lia.
  replace (W - kw + 1) with (W + 1 - kw) by lia.
  now apply pool2d_max_cells.
Qed.

Lemma pool2d_max_is_window_max_witness :
  wf X_demo /\
  exists Y, pool2d X_demo (2, 2) "max" = Ok Y /\ wf Y /\ shape Y = (2, 2)
    /\ forall i j, i < 2 -> j < 2 ->
         (exists p q, p < 2 /\ q < 2 /\ cell Y i j = cell X_demo (i + p) (j + q))
         /\ forall p q, p < 2 -> q < 2 ->
              (cell X_demo (i + p) (j + q) <= cell Y i j)%Qc.
Proof.
  split; [reflexivity|].
  apply (pool2d_max_is_window_max X_demo 3 3 2 2); try reflexivity; lia.
Defined.

(** ** The element type of the grid *)

Lemma for_each_ext {St : Type} (l : list nat)
  (f g : nat -> St -> result St) :
  (forall i s, f i s = g i s) ->
  forall s, for_each l f s = for_each l g s.
Proof.
  intros Hfg. induction l as [|i l IH]; intros s; simpl; [reflexivity|].
  rewrite Hfg. destruct (g i s); simpl; auto.
Qed.

(** Only mode 'avg' looks at the element type: in every other mode a grid
    of integers is treated as the float grid of the same entries. *)
Lemma pool2d_on_other_modes d X pool_size mode :
  mode <> "avg"%string ->
  pool2d_on d X pool_size mode = pool2d X pool_size mode.
Proof.
  intros Hm. apply String.eqb_neq in Hm. destruct pool_size as [p_h p_w].
  unfold pool2d, pool2d_on.
  destruct (zeros _ _) as [Y| |]; simpl; try reflexivity.
  unfold for_range. apply for_each_ext. intros i Yi.
  apply for_each_ext. intros j Yj. now rewrite Hm.
Qed.

(** Mode 'avg' on a grid of integers: as soon as there is an output cell,
    that is a window with kh <= H and kw <= W, the first round of the loops
    calls [mean] on a tensor of integers, which the framework refuses. *)
Lemma pool2d_on_integral_avg X H W kh kw :
  shape X = (H, W) -> kh <= H -> kw <= W ->
  pool2d_on Integral X (kh, kw) "avg"
  = Raise (RuntimeError NotFloatingPoint).
Proof.
  intros HsX Hh Hw. unfold pool2d_on. rewrite HsX. simpl fst. simpl snd.
  destruct (buffer_spec H W kh kw) as (Y0 & -> & HwfY0 & HsY0 & _); try lia.
  simpl.
  apply (fill_first (fun i j Y =>
           v <- tmean Integral (slice X i (i + kh) j (j + kw)) ;;
           setitem Y i j v));
    try (rewrite HsY0; simpl; lia); try discriminate.
  reflexivity.
Qed.

(** C3, as the code has it.  On a grid of a floating-point element type,
    of shape (H, W), and a window (kh, kw) with 1 <= kh <= H and
    1 <= kw <= W, [pool2d] in mode 'avg' returns a grid of shape
    (H - kh + 1, W - kw + 1) whose cell (i, j) is the sum of the kh * kw
    entries of the window divided by kh * kw.  On a grid of integers the
    same call does not return: it fails at its first cell with the
    framework's error for the mean of a tensor that is not floating point.
    On the notebook's float grid with window (2, 2) the result is
    [[2, 3], [5, 6]]. *)
Theorem pool2d_avg_is_window_mean (d : dtype) (X : tensor)
  (H W kh kw : nat) :
  wf X -> shape X = (H, W) -> 1 <= kh <= H -> 1 <= kw <= W ->
  match d with
  | Floating =>
      exists Y, pool2d_on Floating X (kh, kw) "avg" = Ok Y /\ wf Y
        /\ shape Y = (H - kh + 1, W - kw + 1)
        /\ forall i j, i < H - kh + 1 -> j < W - kw + 1 ->
             cell Y i j =
             (sum_upto kh (fun p => sum_upto kw (fun q =>
                cell X (i + p) (j + q)))
              / qc (Z.of_nat (kh * kw)))%Qc
  | Integral =>
      pool2d_on Integral X (kh, kw) "avg"
      = Raise (RuntimeError NotFloatingPoint)
  end
  /\ pool2d_on Floating X_demo (2, 2) "avg"
     = Ok (tensor_of [[2; 3]; [5; 6]]%Z).
Proof.
  intros HX HsX Hh Hw. split; [|apply Ok_by_eqb; vm_compute; reflexivity].
  destruct d.
  - replace (H - kh + 1) with (H + 1 - kh) by lia.
    replace (W - kw + 1) with (W + 1 - kw) by lia.
    now apply pool2d_avg_cells.
  - apply (pool2d_on_integral_avg X H W); [assumption | lia | lia].
Qed.

Lemma pool2d_avg_is_window_mean_witness :
  (wf X_demo /\
   exists Y, pool2d_on Floating X_demo (2, 2) "avg" = Ok Y /\ wf Y
     /\ shape Y = (2, 2)
     /\ forall i j, i < 2 -> j < 2 ->
          cell Y i j =
          (sum_upto 2 (fun p => sum_upto 2 (fun q =>
             cell X_demo (i + p) (j + q)))
           / qc 4)%Qc)
  /\ pool2d_on Integral X_demo (2, 2) "avg"
     = Raise (RuntimeError NotFloatingPoint).
Proof.
  split; [split; [reflexivity|]|].
  - apply (pool2d_avg_is_window_mean Floating X_demo 3 3 2 2);
      try reflexivity; lia.
  - apply (pool2d_avg_is_window_mean Integral X_demo 3 3 2 2);
      try reflexivity; lia.
Defined.

(** C3 fails as it is written: the grid of the integers 0 .. 8, which is
    what [torch.tensor] gives for integer literals, has a numeric element
    type and the window (2, 2) fits it, yet mode 'avg' returns no mean,
    computed in floating point or otherwise; the call raises. *)
Lemma pool2d_avg_of_integers_counterexample :
  wf X_demo /\ shape X_demo = (3, 3) /\ 1 <= 2 <= 3
  /\ pool2d_on Integral X_demo (2, 2) "avg"
     = Raise (RuntimeError NotFloatingPoint)
  /\ ~ exists Y, pool2d_on Integral X_demo (2, 2) "avg" = Ok Y.
Proof.
  split; [reflexivity|]. split; [reflexivity|]. split; [lia|].
  split; [reflexivity|]. intros [Y HY]. discriminate HY.
Qed.

(** ** Shapes and failures *)

(** In every mode a window that fits the grid gives a grid of shape
    (H + 1 - kh, W + 1 - kw). *)
Lemma pool2d_shape X H W kh kw mode :
  wf X -> shape X = (H, W) -> 1 <= kh <= H -> 1 <= kw <= W ->
  exists Y, pool2d X (kh, kw) mode = Ok Y /\ wf Y
    /\ shape Y = (H + 1 - kh, W + 1 - kw).
Proof.
  intros HX HsX Hh Hw.
  destruct (String.eqb_spec mode "max") as [->|Hmax].
  - destruct (pool2d_max_cells X H W kh kw HX HsX Hh Hw) as (Y & ? & ? & ? & _); eauto.
  - destruct (String.eqb_spec mode "avg") as [->|Havg].
    + destruct (pool2d_avg_cells X H W kh kw HX HsX Hh Hw) as (Y & ? & ? & ? & _); eauto.
    + destruct (pool2d_other_cells X H W kh kw mode HsX) as (Y & ? & _ & ? & ? & _);
        try lia; eauto.
Qed.








(** A window without cells on a grid that has room for it: the first
    round of the loops reduces an empty tensor. *)
Lemma pool2d_max_empty X H W kh kw :
  wf X -> shape X = (H, W) -> kh * kw = 0 -> kh <= H -> kw <= W ->
  pool2d X (kh, kw) "max" = Raise (RuntimeError EmptyReduction).
Proof.
  intros HX HsX H0 Hh Hw. unfold pool2d, pool2d_on. rewrite HsX. simpl fst. simpl snd.
  destruct (buffer_spec H W kh kw) as (Y0 & -> & HwfY0 & HsY0 & _); try lia.
  simpl.
  apply (fill_first (fun i j Y =>
           v <- tmax (slice X i (i + kh) j (j + kw)) ;; setitem Y i j v));
    try (rewrite HsY0; simpl; lia); try discriminate.
  destruct (slice_spec X H W 0 kh 0 kw HX HsX) as (HwS & HsS & _); try lia.
  now rewrite (tmax_empty _ kh kw HwS HsS H0).
Qed.

Lemma pool2d_avg_empty X H W kh kw :
  wf X -> shape X = (H, W) -> kh * kw = 0 -> kh <= H -> kw <= W ->
  pool2d X (kh, kw) "avg" = NotANumber.
Proof.
  intros HX HsX H0 Hh Hw. unfold pool2d, pool2d_on. rewrite HsX. simpl fst. simpl snd.
  destruct (buffer_spec H W kh kw) as (Y0 & -> & HwfY0 & HsY0 & _); try lia.
  simpl.
  apply (fill_first (fun i j Y =>
           v <- tmean Floating (slice X i (i + kh) j (j + kw)) ;; setitem Y i j v));
    try (rewrite HsY0; simpl; lia); try discriminate.
  destruct (slice_spec X H W 0 kh 0 kw HX HsX) as (HwS & HsS & _); try lia.
  pose proof (flat_length _ kh kw HwS HsS) as Hlen.
  unfold tmean. destruct (concat (rows (slice X 0 (0 + kh) 0 (0 + kw)))).
  - reflexivity.
  - simpl in Hlen. lia.
Qed.

(** The only exceptions [pool2d] lets out on a well-formed grid. *)
Lemma pool2d_exceptions X kh kw mode e :
  wf X -> pool2d X (kh, kw) mode = Raise e ->
  e = RuntimeError NegativeDimension \/ e = RuntimeError EmptyReduction.
Proof.
  intros HX He. destruct (shape X) as [H W] eqn:HsX.
  destruct (Nat.lt_ge_cases (H + 1) kh) as [Hh|Hh];
    [rewrite (pool2d_negative X H W kh kw mode HsX (or_introl Hh)) in He; injection He; auto|].
  destruct (Nat.lt_ge_cases (W + 1) kw) as [Hw|Hw];
    [rewrite (pool2d_negative X H W kh kw mode HsX (or_intror Hw)) in He; injection He; auto|].
  destruct (Nat.eq_dec kh (H + 1)) as [Eh|Eh];
    [destruct (pool2d_no_cell X H W kh kw mode HsX Hh Hw (or_introl Eh))
       as (Y & HY & _); congruence|].
  destruct (Nat.eq_dec kw (W + 1)) as [Ew|Ew];
    [destruct (pool2d_no_cell X H W kh kw mode HsX Hh Hw (or_intror Ew))
       as (Y & HY & _); congruence|].
  destruct (Nat.eq_dec (kh * kw) 0) as [E0|E0].
  - destruct (String.eqb_spec mode "max") as [->|Hmax].
    + rewrite (pool2d_max_empty X H W kh kw HX HsX E0) in He by lia.
      injection He; auto.
    + destruct (String.eqb_spec mode "avg") as [->|Havg].
      * rewrite (pool2d_avg_empty X H W kh kw HX HsX E0) in He by lia.
        discriminate.
      * destruct (pool2d_other_cells X H W kh kw mode HsX Hh Hw Hmax Havg)
          as (Y & HY & _). congruence.
  - destruct (pool2d_shape X H W kh kw mode HX HsX) as (Y & HY & _);
      try lia; try nia. congruence.
Qed.

Lemma pool2d_on_negative d X H W kh kw mode :
  shape X = (H, W) -> H + 1 < kh \/ W + 1 < kw ->
  pool2d_on d X (kh, kw) mode = Raise (RuntimeError NegativeDimension).
Proof.
  intros HsX Hbig. unfold pool2d_on. rewrite HsX. simpl fst. simpl snd.
  rewrite zeros_negative by lia. reflexivity.
Qed.

(** The only exceptions [pool2d] lets out on a well-formed grid of any
    element type: the third one needs a grid of integers and mode 'avg'. *)
Lemma pool2d_on_exceptions d X kh kw mode e :
  wf X -> pool2d_on d X (kh, kw) mode = Raise e ->
  e = RuntimeError NegativeDimension \/ e = RuntimeError EmptyReduction
  \/ (e = RuntimeError NotFloatingPoint /\ d = Integral
      /\ mode = "avg"%string).
Proof.
  intros HX He. destruct d.
  - destruct (pool2d_exceptions X kh kw mode e HX He); auto.
  - destruct (String.eqb_spec mode "avg") as [->|Hm].
    + destruct (shape X) as [H W] eqn:HsX.
      destruct (Nat.lt_ge_cases (H + 1) kh) as [Hh|Hh];
        [rewrite (pool2d_on_negative Integral X H W kh kw "avg" HsX
                    (or_introl Hh)) in He; injection He; auto|].
      destruct (Nat.lt_ge_cases (W + 1) kw) as [Hw|Hw];
        [rewrite (pool2d_on_negative Integral X H W kh kw "avg" HsX
                    (or_intror Hw)) in He; injection He; auto|].
      destruct (Nat.eq_dec kh (H + 1)) as [Eh|Eh];
        [destruct (pool2d_on_cells Integral X H W kh kw "avg"
                     (fun _ _ => 0%Qc) HsX Hh Hw) as (Y & HY & _);
         [intros; lia | congruence]|].
      destruct (Nat.eq_dec kw (W + 1)) as [Ew|Ew];
        [destruct (pool2d_on_cells Integral X H W kh kw "avg"
                     (fun _ _ => 0%Qc) HsX Hh Hw) as (Y & HY & _);
         [intros; lia | congruence]|].
      rewrite (pool2d_on_integral_avg X H W kh kw HsX) in He by lia.
      injection He as <-. auto.
    + rewrite pool2d_on_other_modes in He by assumption.
      destruct (pool2d_exceptions X kh kw mode e HX He); auto.
Qed.

(** C6, as the code has it.  In mode 'max' a window without cells
    (kh * kw = 0) on a grid that has room for it (kh <= H, kw <= W) makes
    the call fail at its first cell, with the framework's error for the
    maximum of an empty tensor, whatever the element type of the grid.
    The code declares no error kinds and catches nothing: the only
    exceptions that leave [pool2d] on a well-formed grid are this one, the
    framework's error for a negative dimension and, in mode 'avg' on a grid
    of integers only, the framework's error for the mean of a tensor that
    is not floating point, which the same window meets on such a grid. *)
Theorem max_of_empty_window (d : dtype) (X : tensor) (H W kh kw : nat) :
  wf X -> shape X = (H, W) -> kh * kw = 0 -> kh <= H -> kw <= W ->
  pool2d_on d X (kh, kw) "max" = Raise (RuntimeError EmptyReduction)
  /\ (forall d' kh' kw' mode e,
        pool2d_on d' X (kh', kw') mode = Raise e ->
        e = RuntimeError NegativeDimension
        \/ e = RuntimeError EmptyReduction
        \/ (e = RuntimeError NotFloatingPoint /\ d' = Integral
            /\ mode = "avg"%string))
  /\ pool2d_on Integral X (kh, kw) "avg"
     = Raise (RuntimeError NotFloatingPoint).
Proof.
  intros HX HsX H0 Hh Hw. split; [|split].
  - rewrite pool2d_on_other_modes by discriminate.
    now apply pool2d_max_empty with (H := H) (W := W).
  - intros d' kh' kw' mode e. now apply pool2d_on_exceptions.
  - now apply pool2d_on_integral_avg with (H := H) (W := W).
Qed.

Lemma max_of_empty_window_witness :
  pool2d_on Integral X_demo (0, 2) "max"
  = Raise (RuntimeError EmptyReduction)
  /\ (forall d' kh' kw' mode e,
        pool2d_on d' X_demo (kh', kw') mode = Raise e ->
        e = RuntimeError NegativeDimension
        \/ e = RuntimeError EmptyReduction
        \/ (e = RuntimeError NotFloatingPoint /\ d' = Integral
            /\ mode = "avg"%string))
  /\ pool2d_on Integral X_demo (0, 2) "avg"
     = Raise (RuntimeError NotFloatingPoint).
Proof.
  apply (max_of_empty_window Integral X_demo 3 3 0 2); try reflexivity; lia.
Defined.

(** C6 fails as it is written: with the window (0, 4) on the 3 x 3 grid
    the window has no cell, yet the output buffer has no column, no
    maximum is ever taken and the call returns. *)
Lemma max_of_empty_window_counterexample :
  0 * 4 = 0
  /\ pool2d X_demo (0, 4) "max" = Ok (Tensor (4, 0) [[]; []; []; []]).
Proof. split; reflexivity. Qed.

(** C10.  For a window with kh <= H and kw <= W and a mode that is neither
    'max' nor 'avg', [pool2d] raises nothing and returns the buffer it
    allocated, untouched: a grid of shape (H - kh + 1, W - kw + 1) whose
    cells are all zero. *)
Theorem pool2d_unknown_mode_zeros (X : tensor) (H W kh kw : nat)
  (mode : string) :
  shape X = (H, W) -> kh <= H -> kw <= W ->
  mode <> "max"%string -> mode <> "avg"%string ->
  pool2d X (kh, kw) mode
  = Ok (Tensor (H - kh + 1, W - kw + 1)
               (repeat (repeat 0%Qc (W - kw + 1)) (H - kh + 1)))
  /\ zeros (Z.of_nat H - Z.of_nat kh + 1) (Z.of_nat W - Z.of_nat kw + 1)
     = pool2d X (kh, kw) mode.
Proof.
  intros HsX Hh Hw Hmax Havg.
  destruct (pool2d_other_cells X H W kh kw mode HsX) as (Y & HY & HZ & _);
    try lia; try assumption.
  rewrite HY, HZ. split; [|reflexivity]. rewrite <- HZ. unfold zeros.
  destruct (Z.ltb_spec (Z.of_nat H - Z.of_nat kh + 1) 0); [lia|].
  destruct (Z.ltb_spec (Z.of_nat W - Z.of_nat kw + 1) 0); [lia|]. simpl.
  replace (Z.to_nat (Z.of_nat H - Z.of_nat kh + 1)) with (H - kh + 1) by lia.
  replace (Z.to_nat (Z.of_nat W - Z.of_nat kw + 1)) with (W - kw + 1) by lia.
  reflexivity.
Qed.

Lemma pool2d_unknown_mode_zeros_witness :
  pool2d X_demo (2, 2) "sum"
  = Ok (Tensor (2, 2) [[0%Qc; 0%Qc]; [0%Qc; 0%Qc]])
  /\ zeros 2 2 = pool2d X_demo (2, 2) "sum".
Proof.
  apply (pool2d_unknown_mode_zeros X_demo 3 3 2 2 "sum");
    try reflexivity; try lia; discriminate.
Defined.

(** ** Several input channels *)

(** Adding a tensor to the integer 0 the builtin [sum] starts from gives
    the tensor back. *)
Lemma py_add_zero T : py_add (PyInt 0) T = Ok (PyTensor T).
Proof.
  unfold py_add. do 2 f_equal. destruct T as [s r]. simpl. f_equal.
  rewrite <- (map_id r) at 2. apply map_ext. intros row.
  rewrite <- (map_id row) at 2. apply map_ext. intros x.
  change (qc 0) with 0%Qc. apply Qcplus_0_l.
Qed.

(** [sum] over tensors of one shape, from a tensor of that shape. *)
Lemma py_sum_tensors h w Ys : forall A,
  wf A -> shape A = (h, w) ->
  Forall (fun T => wf T /\ shape T = (h, w)) Ys ->
  exists Y, py_sum (PyTensor A) (map Ok Ys) = Ok (PyTensor Y)
    /\ wf Y /\ shape Y = (h, w)
    /\ forall i j, i < h -> j < w ->
         cell Y i j
         = fold_left Qcplus (map (fun T => cell T i j) Ys) (cell A i j).
Proof.
  induction Ys as [|T Ys IH]; intros A HA HsA HYs.
  - exists A. simpl. auto.
  - inversion HYs as [|? ? [HT HsT] HYs']; subst.
    destruct (tadd_spec A T h w HA HT HsA HsT) as (R & HR & HwR & HsR & HcR).
    destruct (IH R HwR HsR HYs') as (Y & HY & HwY & HsY & HcY).
    exists Y. cbn [map py_sum bind py_add]. rewrite HR. cbn [bind]. rewrite HY.
    repeat split; auto.
    intros i j Hi Hj. rewrite HcY, HcR by assumption. reflexivity.
Qed.

(** [sum] over one or more tensors of one shape, from the integer 0. *)
Lemma py_sum_from_zero h w Y0 Ys :
  Forall (fun T => wf T /\ shape T = (h, w)) (Y0 :: Ys) ->
  exists Y, py_sum (PyInt 0) (map Ok (Y0 :: Ys)) = Ok (PyTensor Y)
    /\ wf Y /\ shape Y = (h, w)
    /\ forall i j, i < h -> j < w ->
         cell Y i j = lsum (map (fun T => cell T i j) (Y0 :: Ys)).
Proof.
  intros HYs. inversion HYs as [|? ? [H0 Hs0] HYs']; subst.
  destruct (py_sum_tensors h w Ys Y0 H0 Hs0 HYs') as (Y & HY & HwY & HsY & HcY).
  exists Y. cbn [map py_sum bind]. rewrite py_add_zero. cbn [bind]. rewrite HY.
  repeat split; auto.
  intros i j Hi Hj. rewrite HcY by assumption.
  unfold lsum. simpl. now rewrite Qcplus_0_l.
Qed.

Lemma wf3_two X H W :
  wf3 X -> shape3 X = (2, (H, W)) ->
  exists x0 x1, iter3 X = [x0; x1]
    /\ wf x0 /\ shape x0 = (H, W) /\ wf x1 /\ shape x1 = (H, W).
Proof.
  unfold wf3, wfb3, iter3. intros Hwf Hs. rewrite Hs in *. simpl in *.
  destruct (chans X) as [|c0 [|c1 [|c2 l]]]; try discriminate.
  simpl in Hwf. rewrite andb_true_r in Hwf.
  apply andb_true_iff in Hwf. destruct Hwf as [H0 H1].
  exists (Tensor (H, W) c0), (Tensor (H, W) c1). repeat split; auto.
Qed.

(** C7.  For a stack X of two grids of shape (H, W) and a stack K of two
    kernels of shape (kh, kw), [corr2d_multi_in X K] is the cell by cell
    sum of the two single-channel results [corr2d X[0] K[0]] and
    [corr2d X[1] K[1]]; when the kernels are too large for [corr2d] it
    fails as they do. *)
Theorem corr2d_multi_in_additive (X K : tensor3) (H W kh kw : nat) :
  wf3 X -> shape3 X = (2, (H, W)) -> wf3 K -> shape3 K = (2, (kh, kw)) ->
  exists x0 x1 k0 k1,
    iter3 X = [x0; x1] /\ iter3 K = [k0; k1]
    /\ (kh <= H + 1 -> kw <= W + 1 ->
        exists Y0 Y1 Y,
          corr2d x0 k0 = Ok Y0 /\ corr2d x1 k1 = Ok Y1
          /\ corr2d_multi_in X K = Ok (PyTensor Y)
          /\ wf Y /\ shape Y = (H + 1 - kh, W + 1 - kw)
          /\ shape Y0 = shape Y /\ shape Y1 = shape Y
          /\ forall i j, i < H + 1 - kh -> j < W + 1 - kw ->
               cell Y i j = (cell Y0 i j + cell Y1 i j)%Qc)
    /\ (H + 1 < kh \/ W + 1 < kw ->
        corr2d x0 k0 = Raise (RuntimeError NegativeDimension)
        /\ corr2d x1 k1 = Raise (RuntimeError NegativeDimension)
        /\ corr2d_multi_in X K = Raise (RuntimeError NegativeDimension)).
Proof.
  intros HX HsX HK HsK.
  destruct (wf3_two X H W HX HsX) as (x0 & x1 & HiX & Hx0 & Hsx0 & Hx1 & Hsx1).
  destruct (wf3_two K kh kw HK HsK) as (k0 & k1 & HiK & Hk0 & Hsk0 & Hk1 & Hsk1).
  exists x0, x1, k0, k1. split; [assumption|]. split; [assumption|].
  unfold corr2d_multi_in. rewrite HiX, HiK. simpl combine. simpl map.
  split.
  - intros Hh Hw.
    destruct (corr2d_cells x0 k0 H W kh kw Hx0 Hsx0 Hk0 Hsk0 Hh Hw)
      as (Y0 & HY0 & HwY0 & HsY0 & _).
    destruct (corr2d_cells x1 k1 H W kh kw Hx1 Hsx1 Hk1 Hsk1 Hh Hw)
      as (Y1 & HY1 & HwY1 & HsY1 & _).
    destruct (py_sum_from_zero (H + 1 - kh) (W + 1 - kw) Y0 [Y1])
      as (Y & HY & HwY & HsY & HcY).
    { repeat constructor; assumption. }
    exists Y0, Y1, Y. rewrite HY0, HY1.
    repeat split; try assumption; try congruence.
    intros i j Hi Hj. rewrite HcY by assumption.
    unfold lsum. simpl. now rewrite Qcplus_0_l.
  - intros Hbig.
    rewrite (corr2d_negative x0 k0 H W kh kw Hsx0 Hsk0 Hbig).
    rewrite (corr2d_negative x1 k1 H W kh kw Hsx1 Hsk1 Hbig).
    repeat split.
Qed.

Lemma corr2d_multi_in_additive_witness :
  exists x0 x1 k0 k1,
    iter3 X2_demo = [x0; x1] /\ iter3 K2_demo = [k0; k1]
    /\ (2 <= 3 + 1 -> 2 <= 3 + 1 ->
        exists Y0 Y1 Y,
          corr2d x0 k0 = Ok Y0 /\ corr2d x1 k1 = Ok Y1
          /\ corr2d_multi_in X2_demo K2_demo = Ok (PyTensor Y)
          /\ wf Y /\ shape Y = (3 + 1 - 2, 3 + 1 - 2)
          /\ shape Y0 = shape Y /\ shape Y1 = shape Y
          /\ forall i j, i < 3 + 1 - 2 -> j < 3 + 1 - 2 ->
               cell Y i j = (cell Y0 i j + cell Y1 i j)%Qc)
    /\ (3 + 1 < 2 \/ 3 + 1 < 2 ->
        corr2d x0 k0 = Raise (RuntimeError NegativeDimension)
        /\ corr2d x1 k1 = Raise (RuntimeError NegativeDimension)
        /\ corr2d_multi_in X2_demo K2_demo = Raise (RuntimeError NegativeDimension)).
Proof.
  apply (corr2d_multi_in_additive X2_demo K2_demo 3 3 2 2); reflexivity.
Defined.

(** ** The functions over a store *)

Lemma lookup_old (st : store) l Y : l < length st -> lookup (st ++ [Y]) l = lookup st l.
Proof. intros H. unfold lookup. now rewrite app_nth1. Qed.

Lemma lookup_new (st : store) Y : lookup (st ++ [Y]) (length st) = Y.
Proof. unfold lookup. now rewrite app_nth2, Nat.sub_diag by lia. Qed.

Lemma list_set_new {A} (l : list A) (a b : A) :
  list_set (length l) b (l ++ [a]) = l ++ [b].
Proof. induction l as [|x l IH]; simpl; [reflexivity | now rewrite IH]. Qed.

(** An item assignment to the newest object touches no other object. *)
Lemma store_item_new (st : store) Y i j v :
  store_item (length st) i j v (st ++ [Y])
  = Y' <- setitem Y i j v ;; Ok (st ++ [Y']).
Proof.
  unfold store_item. rewrite lookup_new.
  destruct (setitem Y i j v); simpl; try reflexivity.
  now rewrite list_set_new.
Qed.

(** A loop over the store that works on the newest object alone is the
    loop over that object. *)
Lemma for_each_newest (st : store) l
  (b1 : nat -> store -> result store) (b2 : nat -> tensor -> result tensor) :
  (forall i Y, b1 i (st ++ [Y]) = Y' <- b2 i Y ;; Ok (st ++ [Y'])) ->
  forall Y, for_each l b1 (st ++ [Y]) = Y' <- for_each l b2 Y ;; Ok (st ++ [Y']).
Proof.
  intros Hb. induction l as [|i l IH]; intros Y; simpl; [reflexivity|].
  rewrite Hb. destruct (b2 i Y); simpl; auto.
Qed.

Lemma fill_newest (st : store)
  (b1 : nat -> nat -> store -> result store)
  (b2 : nat -> nat -> tensor -> result tensor) :
  (forall i j Y, b1 i j (st ++ [Y]) = Y' <- b2 i j Y ;; Ok (st ++ [Y'])) ->
  forall Y0,
    for_range (fst (shape (lookup (st ++ [Y0]) (length st)))) (fun i s =>
      for_range (snd (shape (lookup s (length st)))) (fun j s => b1 i j s) s)
      (st ++ [Y0])
    = Y' <- for_range (fst (shape Y0)) (fun i Y =>
              for_range (snd (shape Y)) (fun j Y => b2 i j Y) Y) Y0 ;;
      Ok (st ++ [Y']).
Proof.
  intros Hb Y0. rewrite lookup_new. unfold for_range at 1 3.
  apply for_each_newest. intros i Y. rewrite lookup_new.
  unfold for_range. apply for_each_newest. intros j Y1. apply Hb.
Qed.

Lemma pool2d_st_pure (st : store) X ps mode :
  X < length st ->
  pool2d_st X ps mode st
  = Y <- pool2d (lookup st X) ps mode ;; Ok (length st, st ++ [Y]).
Proof.
  intros HX. destruct ps as [p_h p_w]. unfold pool2d_st, pool2d, pool2d_on, alloc_zeros.
  destruct (zeros _ _) as [Y0| |]; simpl; try reflexivity.
  rewrite (fill_newest st
    (fun i j s =>
       if String.eqb mode "max" then
         v <- tmax (slice (lookup s X) i (i + p_h) j (j + p_w)) ;;
         store_item (length st) i j v s
       else if String.eqb mode "avg" then
         v <- tmean Floating (slice (lookup s X) i (i + p_h) j (j + p_w)) ;;
         store_item (length st) i j v s
       else Ok s)
    (fun i j Y =>
       if String.eqb mode "max" then
         v <- tmax (slice (lookup st X) i (i + p_h) j (j + p_w)) ;;
         setitem Y i j v
       else if String.eqb mode "avg" then
         v <- tmean Floating (slice (lookup st X) i (i + p_h) j (j + p_w)) ;;
         setitem Y i j v
       else Ok Y)).
  - destruct (for_range _ _ Y0); reflexivity.
  - intros i j Y. rewrite lookup_old by assumption.
    destruct (String.eqb mode "max").
    + destruct (tmax _); simpl; try reflexivity. apply store_item_new.
    + destruct (String.eqb mode "avg"); [|reflexivity].
      destruct (tmean _ _); simpl; try reflexivity. apply store_item_new.
Qed.

Lemma corr2d_st_pure (st : store) X K :
  X < length st -> K < length st ->
  corr2d_st X K st
  = Y <- corr2d (lookup st X) (lookup st K) ;; Ok (length st, st ++ [Y]).
Proof.
  intros HX HK. unfold corr2d_st, corr2d, alloc_zeros.
  destruct (shape (lookup st K)) as [h w].
  destruct (zeros _ _) as [Y0| |]; simpl; try reflexivity.
  rewrite (fill_newest st
    (fun i j s =>
       P <- tmul (slice (lookup s X) i (i + h) j (j + w)) (lookup s K) ;;
       store_item (length st) i j (tsum P) s)
    (fun i j Y =>
       P <- tmul (slice (lookup st X) i (i + h) j (j + w)) (lookup st K) ;;
       setitem Y i j (tsum P))).
  - destruct (for_range _ _ Y0); reflexivity.
  - intros i j Y. rewrite !lookup_old by assumption.
    destruct (tmul _ _); simpl; try reflexivity. apply store_item_new.
Qed.

(** C9.  A call of [pool2d] or [corr2d] on objects of a store has the
    outcome the function has on the values of its arguments, whatever
    else the store holds; when it returns, the result is a new object and
    every object the store held before, the grid and the kernel among
    them, is as it was.  Calling once more on the same arguments gives a
    second object with the same value. *)
Theorem reducers_pure_and_deterministic (st : store) (X K : nat)
  (pool_size : nat * nat) (mode : string) :
  X < length st -> K < length st ->
  (pool2d_st X pool_size mode st
   = Y <- pool2d (lookup st X) pool_size mode ;; Ok (length st, st ++ [Y]))
  /\ (corr2d_st X K st
      = Y <- corr2d (lookup st X) (lookup st K) ;; Ok (length st, st ++ [Y]))
  /\ (forall Y st', pool2d_st X pool_size mode st = Ok (Y, st') ->
        firstn (length st) st' = st
        /\ exists Y2 st2, pool2d_st X pool_size mode st' = Ok (Y2, st2)
             /\ lookup st2 Y2 = lookup st' Y
             /\ firstn (length st) st2 = st)
  /\ (forall Y st', corr2d_st X K st = Ok (Y, st') ->
        firstn (length st) st' = st
        /\ exists Y2 st2, corr2d_st X K st' = Ok (Y2, st2)
             /\ lookup st2 Y2 = lookup st' Y
             /\ firstn (length st) st2 = st).
Proof.
  intros HX HK.
  assert (Hfirst : forall (a b : store), firstn (length a) (a ++ b) = a).
  { intros a b. rewrite firstn_app, Nat.sub_diag, firstn_all. simpl.
    apply app_nil_r. }
  split; [now apply pool2d_st_pure|]. split; [now apply corr2d_st_pure|].
  split.
  - intros Y st' Hrun. rewrite pool2d_st_pure in Hrun by assumption.
    destruct (pool2d (lookup st X) pool_size mode) as [Yv| |] eqn:E;
      try discriminate.
    simpl in Hrun. injection Hrun as <- <-. split; [apply Hfirst|].
    exists (length (st ++ [Yv])), ((st ++ [Yv]) ++ [Yv]).
    rewrite pool2d_st_pure by (rewrite length_app; lia).
    rewrite lookup_old, E by assumption. simpl.
    rewrite !lookup_new, <- app_assoc. auto.
  - intros Y st' Hrun. rewrite corr2d_st_pure in Hrun by assumption.
    destruct (corr2d (lookup st X) (lookup st K)) as [Yv| |] eqn:E;
      try discriminate.
    simpl in Hrun. injection Hrun as <- <-. split; [apply Hfirst|].
    exists (length (st ++ [Yv])), ((st ++ [Yv]) ++ [Yv]).
    rewrite corr2d_st_pure by (rewrite length_app; lia).
    rewrite !lookup_old, E by assumption. simpl.
    rewrite !lookup_new, <- app_assoc. auto.
Qed.

Lemma reducers_pure_and_deterministic_witness :
  0 < length demo_store /\ 1 < length demo_store
  /\ (pool2d_st 0 (2, 2) "max" demo_store
      = Y <- pool2d (lookup demo_store 0) (2, 2) "max" ;;
        Ok (length demo_store, demo_store ++ [Y]))
  /\ (corr2d_st 0 1 demo_store
      = Y <- corr2d (lookup demo_store 0) (lookup demo_store 1) ;;
        Ok (length demo_store, demo_store ++ [Y])).
Proof.
  split; [simpl; lia|]. split; [simpl; lia|].
  destruct (reducers_pure_and_deterministic demo_store 0 1 (2, 2) "max")
    as (H1 & H2 & _); [simpl; lia | simpl; lia |].
  split; assumption.
Defined.

(** ** 1 x 1 kernels *)

Lemma chunks_length {A} n c (l : list A) : length (chunks n c l) = n.
Proof. revert l; induction n as [|n IH]; intros l; simpl; auto. Qed.

Lemma nth_chunks {A} n c (l : list A) i j d :
  i < n -> j < c -> nth j (nth i (chunks n c l) []) d = nth (i * c + j) l d.
Proof.
  revert l i. induction n as [|n IH]; intros l [|i] Hi Hj; try lia; simpl.
  - rewrite nth_firstn. destruct (Nat.ltb_spec j c); [reflexivity | lia].
  - rewrite IH by lia. rewrite nth_skipn. f_equal. lia.
Qed.

Lemma chunks_row_length {A} n c (l : list A) i :
  n * c <= length l -> i < n -> length (nth i (chunks n c l) []) = c.
Proof.
  revert l i. induction n as [|n IH]; intros l [|i] Hl Hi; try lia; simpl in *.
  - rewrite length_firstn. lia.
  - apply IH; [|lia]. rewrite length_skipn. lia.
Qed.

Lemma chunks_concat {A} (ll : list (list A)) c :
  (forall r, In r ll -> length r = c) ->
  chunks (length ll) c (concat ll) = ll.
Proof.
  induction ll as [|r ll IH]; intros Hr; simpl; [reflexivity|].
  assert (Hc : length r = c) by (apply Hr; left; reflexivity).
  rewrite firstn_app, skipn_app, Hc, Nat.sub_diag. simpl.
  rewrite <- Hc, firstn_all, skipn_all, app_nil_r. simpl.
  f_equal. rewrite Hc. apply IH. intros; apply Hr; right; assumption.
Qed.

Lemma chunks_concat_len {A} (ll : list (list A)) n c :
  length ll = n -> (forall r, In r ll -> length r = c) ->
  chunks n c (concat ll) = ll.
Proof. intros <-. apply chunks_concat. Qed.

Lemma nth_concat_uniform {A} (ll : list (list A)) c i j d :
  (forall r, In r ll -> length r = c) -> i < length ll -> j < c ->
  nth (i * c + j) (concat ll) d = nth j (nth i ll []) d.
Proof.
  revert i. induction ll as [|r ll IH]; intros i Hr Hi Hj; simpl in *; [lia|].
  assert (Hc : length r = c) by (apply Hr; left; reflexivity).
  destruct i as [|i]; simpl.
  - apply app_nth1. lia.
  - rewrite app_nth2 by lia. rewrite <- IH; auto with arith.
    f_equal. lia.
Qed.

Lemma mapM_map {A B} (f : A -> result B) (g : A -> B) l :
  (forall a, In a l -> f a = Ok (g a)) -> mapM f l = Ok (map g l).
Proof.
  induction l as [|a l IH]; intros H; simpl; [reflexivity|].
  rewrite H by (left; reflexivity). simpl.
  rewrite IH by (intros; apply H; right; assumption). reflexivity.
Qed.

(** Two well-formed grids of one shape with the same cells are equal. *)
Lemma tensor_ext A B h w :
  wf A -> wf B -> shape A = (h, w) -> shape B = (h, w) ->
  (forall i j, i < h -> j < w -> cell A i j = cell B i j) -> A = B.
Proof.
  intros HA HB HsA HsB Hc. apply wf_iff in HA, HB.
  rewrite HsA in HA. rewrite HsB in HB. simpl in *.
  destruct HA as [HlA HrA], HB as [HlB HrB].
  destruct A as [sA rA], B as [sB rB]. simpl in *. subst sA sB. f_equal.
  apply (nth_ext _ _ [] []); [congruence|].
  intros i Hi. rewrite HlA in Hi.
  apply (nth_ext _ _ 0%Qc 0%Qc); [rewrite HrA, HrB; auto|].
  intros j Hj. rewrite HrA in Hj by assumption. now apply Hc.
Qed.

Lemma map2_map_combine {A B C D E} (f : C -> D -> E) (a : A -> C) (b : B -> D)
  (ks : list A) (xs : list B) :
  map2 f (map a ks) (map b xs)
  = map (fun p => f (a (snd p)) (b (fst p))) (combine xs ks).
Proof.
  revert xs. induction ks as [|k ks IH]; intros [|x xs]; simpl; auto.
  now rewrite IH.
Qed.

Lemma concat_length_eq {A} (ll : list (list A)) n :
  (forall r, In r ll -> length r = n) -> length (concat ll) = length ll * n.
Proof.
  induction ll as [|r ll IH]; intros Hr; simpl; [reflexivity|].
  rewrite length_app, IH by (intros; apply Hr; right; assumption).
  rewrite (Hr r) by (left; reflexivity). reflexivity.
Qed.

Lemma wf3_chans X C h w :
  wf3 X -> shape3 X = (C, (h, w)) ->
  length (chans X) = C /\ forall c, In c (chans X) -> wf (Tensor (h, w) c).
Proof.
  unfold wf3, wfb3. intros Hwf Hs. rewrite Hs in Hwf. simpl in Hwf.
  apply andb_true_iff in Hwf. destruct Hwf as [Hl Hc].
  apply Nat.eqb_eq in Hl. rewrite forallb_forall in Hc. auto.
Qed.

Lemma wf4_kerns K O C kh kw :
  wf4 K -> shape4 K = (O, (C, (kh, kw))) ->
  length (kerns K) = O
  /\ forall k, In k (kerns K) -> wf3 (Tensor3 (C, (kh, kw)) k).
Proof.
  unfold wf4, wfb4. intros Hwf Hs. rewrite Hs in Hwf. simpl in Hwf.
  apply andb_true_iff in Hwf. destruct Hwf as [Hl Hc].
  apply Nat.eqb_eq in Hl. rewrite forallb_forall in Hc. auto.
Qed.

(** A 1 x 1 kernel holds one entry. *)
Lemma wf_1x1 k : wf (Tensor (1, 1) k) -> k = [[cell (Tensor (1, 1) k) 0 0]].
Proof.
  unfold wf, wfb, cell. simpl.
  destruct k as [|[|x [|y r]] [|r' k]]; simpl; try discriminate; reflexivity.
Qed.

Lemma flat_1x1 (ks : list (list (list Qc))) :
  (forall k, In k ks -> wf (Tensor (1, 1) k)) ->
  concat (map (@concat Qc) ks) = map (fun k => cell (Tensor (1, 1) k) 0 0) ks.
Proof.
  induction ks as [|k ks IH]; intros H; simpl; [reflexivity|].
  rewrite IH by (intros; apply H; right; assumption).
  rewrite (wf_1x1 k) at 1 by (apply H; left; reflexivity). reflexivity.
Qed.

(** [corr2d] with a 1 x 1 kernel scales every cell. *)
Lemma corr2d_1x1 x k h w :
  wf (Tensor (h, w) x) -> wf (Tensor (1, 1) k) ->
  exists Y, corr2d (Tensor (h, w) x) (Tensor (1, 1) k) = Ok Y
    /\ wf Y /\ shape Y = (h, w)
    /\ forall i j, i < h -> j < w ->
         cell Y i j
         = Qcmult (cell (Tensor (h, w) x) i j) (cell (Tensor (1, 1) k) 0 0).
Proof.
  intros Hx Hk.
  destruct (corr2d_cells (Tensor (h, w) x) (Tensor (1, 1) k) h w 1 1)
    as (Y & HY & HwY & HsY & HcY); try reflexivity; try assumption; try lia.
  rewrite !Nat.add_sub in HsY, HcY.
  exists Y. repeat split; auto.
  intros i j Hi Hj. rewrite HcY by assumption. simpl.
  rewrite !Nat.add_0_r. ring.
Qed.

(** The per-channel results of [corr2d_multi_in] for 1 x 1 kernels. *)
Lemma corr2d_1x1_channels h w (xs ks : list (list (list Qc))) :
  (forall x, In x xs -> wf (Tensor (h, w) x)) ->
  (forall k, In k ks -> wf (Tensor (1, 1) k)) ->
  exists Ys,
    map (fun xk => corr2d (fst xk) (snd xk))
        (combine (map (Tensor (h, w)) xs) (map (Tensor (1, 1)) ks))
    = map Ok Ys
    /\ length Ys = Nat.min (length xs) (length ks)
    /\ Forall (fun T => wf T /\ shape T = (h, w)) Ys
    /\ forall i j, i < h -> j < w ->
         map (fun T => cell T i j) Ys
         = map (fun p => Qcmult (cell (Tensor (h, w) (fst p)) i j)
                                (cell (Tensor (1, 1) (snd p)) 0 0))
               (combine xs ks).
Proof.
  revert ks. induction xs as [|x xs IH]; intros ks Hxs Hks.
  - exists []. repeat split; auto.
  - destruct ks as [|k ks]; [exists []; repeat split; auto|].
    destruct (corr2d_1x1 x k h w) as (Y & HY & HwY & HsY & HcY);
      [apply Hxs; left; reflexivity | apply Hks; left; reflexivity |].
    destruct (IH ks) as (Ys & HYs & Hlen & Hall & Hcells);
      [intros; apply Hxs; right; assumption
      |intros; apply Hks; right; assumption|].
    exists (Y :: Ys). simpl. rewrite HY, HYs, Hlen. repeat split; auto.
    intros i j Hi Hj. rewrite HcY, Hcells by assumption. reflexivity.
Qed.

Lemma wf_rows h w x :
  wf (Tensor (h, w) x) -> length x = h /\ forall r, In r x -> length r = w.
Proof.
  unfold wf, wfb. simpl. intros H. apply andb_true_iff in H.
  destruct H as [Hl Hr]. apply Nat.eqb_eq in Hl.
  rewrite forallb_forall in Hr. split; [assumption|].
  intros r Hin. apply Nat.eqb_eq. auto.
Qed.

Lemma nth_map_seq {A} (f : nat -> A) m n d :
  n < m -> nth n (map f (seq 0 m)) d = f n.
Proof.
  intros H. rewrite (nth_map_lt _ _ _ 0) by now rewrite length_seq.
  now rewrite seq_nth.
Qed.

(** A flat row cut into [h] rows of [w] cells is a well-formed grid. *)
Lemma wf_chunks h w (l : list Qc) :
  length l = h * w -> wf (Tensor (h, w) (chunks h w l)).
Proof.
  intros Hl. apply wf_iff. simpl. rewrite chunks_length. split; [reflexivity|].
  intros i Hi. apply chunks_row_length; lia.
Qed.

(** [corr2d_multi_in] with 1 x 1 kernels, cell by cell, is the product of
    the row of kernel entries with the column of the flattened grid. *)
Lemma corr2d_multi_in_1x1 X c_i h w k :
  wf3 X -> shape3 X = (c_i, (h, w)) -> 1 <= c_i ->
  wf3 (Tensor3 (c_i, (1, 1)) k) ->
  corr2d_multi_in X (Tensor3 (c_i, (1, 1)) k)
  = Ok (PyTensor (Tensor (h, w)
         (chunks h w
            (map (fun n => dot (concat (map (@concat Qc) k))
                               (column n (Tensor (c_i, h * w)
                                            (map (@concat Qc) (chans X)))))
                 (seq 0 (h * w)))))).
Proof.
  intros HX HsX Hci Hk.
  destruct (wf3_chans X c_i h w HX HsX) as [HlX HcX].
  destruct (wf3_chans _ c_i 1 1 Hk eq_refl) as [Hlk Hck]. simpl in Hlk, Hck.
  unfold corr2d_multi_in, iter3. rewrite HsX. simpl.
  destruct (corr2d_1x1_channels h w (chans X) k HcX Hck)
    as (Ys & HYs & Hlen & Hall & Hcells).
  rewrite HYs.
  destruct Ys as [|Y0 Ys]; [simpl in Hlen; lia|].
  destruct (py_sum_from_zero h w Y0 Ys Hall) as (Y & HY & HwY & HsY & HcY).
  rewrite HY. do 2 f_equal.
  apply (tensor_ext _ _ h w); auto.
  - apply wf_chunks. now rewrite length_map, length_seq.
  - intros i j Hi Hj. rewrite HcY, Hcells by assumption.
    unfold cell at 3. simpl rows.
    rewrite nth_chunks by assumption.
    rewrite nth_map_seq by nia.
    unfold dot, column. simpl rows.
    rewrite flat_1x1 by assumption.
    rewrite map_map, map2_map_combine. f_equal.
    apply map_ext_in. intros [x kk] Hin. simpl.
    apply in_combine_l in Hin.
    destruct (wf_rows h w x (HcX x Hin)) as [Hlx Hrx].
    rewrite nth_concat_uniform by (auto; lia).
    apply Qcmult_comm.
Qed.

Lemma mapM_as_tensor ts : mapM as_tensor (map PyTensor ts) = Ok ts.
Proof.
  induction ts as [|t ts IH]; simpl; [reflexivity|]. now rewrite IH.
Qed.

(** Stacking one or more grids of one shape. *)
Lemma stack_tensors s ts :
  ts <> [] -> (forall u, In u ts -> shape u = s) ->
  stack (map PyTensor ts) = Ok (Tensor3 (length ts, s) (map rows ts)).
Proof.
  intros Hne Hs. unfold stack. rewrite mapM_as_tensor. cbn [bind].
  destruct ts as [|t ts]; [congruence|].
  rewrite (mapM_map _ rows).
  - cbn [bind]. now rewrite (Hs t) by (left; reflexivity).
  - intros u Hu. unfold same_shape.
    rewrite (Hs u Hu), (Hs t) by (left; reflexivity).
    replace (shape_eqb s s) with true by (symmetry; now apply shape_eqb_eq).
    reflexivity.
Qed.

(** The sliding-window computation on 1 x 1 kernels. *)
Lemma corr2d_multi_in_out_on_1x1 X K c_i c_o h w :
  wf3 X -> shape3 X = (c_i, (h, w)) ->
  wf4 K -> shape4 K = (c_o, (c_i, (1, 1))) ->
  1 <= c_i -> 1 <= c_o ->
  corr2d_multi_in_out X K
  = Ok (Tensor3 (c_o, (h, w))
         (map (fun k =>
                 chunks h w
                   (map (fun n => dot (concat (map (@concat Qc) k))
                                      (column n (Tensor (c_i, h * w)
                                                   (map (@concat Qc) (chans X)))))
                        (seq 0 (h * w))))
              (kerns K))).
Proof.
  intros HX HsX HK HsK Hci Hco.
  destruct (wf4_kerns K c_o c_i 1 1 HK HsK) as [HlK HkK].
  unfold corr2d_multi_in_out, iter4. rewrite HsK. simpl snd.
  rewrite (mapM_map _ (fun k3 =>
    PyTensor (Tensor (h, w)
      (chunks h w
         (map (fun n => dot (concat (map (@concat Qc) (chans k3)))
                            (column n (Tensor (c_i, h * w)
                                         (map (@concat Qc) (chans X)))))
              (seq 0 (h * w))))))).
  - cbn [bind]. rewrite map_map. simpl chans.
    rewrite <- (map_map (fun k => Tensor (h, w) (chunks h w
       (map (fun n => dot (concat (map (@concat Qc) k))
                          (column n (Tensor (c_i, h * w)
                                       (map (@concat Qc) (chans X)))))
            (seq 0 (h * w))))) PyTensor).
    rewrite (stack_tensors (h, w)).
    + rewrite length_map, HlK, map_map. reflexivity.
    + destruct (kerns K); [simpl in HlK; lia | discriminate].
    + intros u Hu. apply in_map_iff in Hu. destruct Hu as (k & <- & _).
      reflexivity.
  - intros a Ha. apply in_map_iff in Ha. destruct Ha as (k & <- & Hk).
    simpl chans. apply corr2d_multi_in_1x1; auto.
Qed.

(** The matrix-multiplication formulation on 1 x 1 kernels. *)
Lemma corr2d_multi_in_out_1x1_value X K c_i c_o h w :
  wf3 X -> shape3 X = (c_i, (h, w)) ->
  wf4 K -> shape4 K = (c_o, (c_i, (1, 1))) ->
  corr2d_multi_in_out_1x1 X K
  = Ok (Tensor3 (c_o, (h, w))
         (map (fun k =>
                 chunks h w
                   (map (fun n => dot (concat (map (@concat Qc) k))
                                      (column n (Tensor (c_i, h * w)
                                                   (map (@concat Qc) (chans X)))))
                        (seq 0 (h * w))))
              (kerns K))).
Proof.
  intros HX HsX HK HsK.
  destruct (wf3_chans X c_i h w HX HsX) as [HlX HcX].
  destruct (wf4_kerns K c_o c_i 1 1 HK HsK) as [HlK HkK].
  assert (Hflat : forall c, In c (map (@concat Qc) (chans X)) ->
            length c = h * w).
  { intros c Hc. apply in_map_iff in Hc. destruct Hc as (x & <- & Hx).
    apply (flat_length (Tensor (h, w) x) h w); auto. }
  assert (Hkflat : forall r,
            In r (map (fun k => concat (map (@concat Qc) k)) (kerns K)) ->
            length r = c_i).
  { intros r Hr. apply in_map_iff in Hr. destruct Hr as (k & <- & Hk).
    destruct (wf3_chans _ c_i 1 1 (HkK k Hk) eq_refl) as [Hlk Hck].
    simpl in Hlk, Hck. now rewrite flat_1x1, length_map. }
  unfold corr2d_multi_in_out_1x1. rewrite HsX, HsK. simpl fst.
  unfold reshape2, flat3, flat4. simpl fst. simpl snd.
  rewrite (concat_length_eq _ (h * w)) by assumption.
  rewrite length_map, HlX, Nat.eqb_refl. cbn [bind].
  rewrite (chunks_concat_len _ c_i (h * w))
    by (rewrite ?length_map; assumption).
  rewrite (concat_length_eq _ c_i) by assumption.
  rewrite length_map, HlK, Nat.eqb_refl. cbn [bind].
  rewrite (chunks_concat_len _ c_o c_i)
    by (rewrite ?length_map; assumption).
  unfold matmul. simpl shape. simpl fst. simpl snd.
  rewrite Nat.eqb_refl. cbn [bind].
  unfold reshape3, flat2. simpl rows.
  assert (Hrow : forall r,
            In r (map (fun a => map (fun j => dot a (column j
                     (Tensor (c_i, h * w) (map (@concat Qc) (chans X)))))
                   (seq 0 (h * w)))
                   (map (fun k => concat (map (@concat Qc) k)) (kerns K))) ->
            length r = h * w).
  { intros r Hr. apply in_map_iff in Hr. destruct Hr as (a & <- & _).
    now rewrite length_map, length_seq. }
  rewrite (concat_length_eq _ (h * w)) by assumption.
  rewrite !length_map, HlK, Nat.eqb_refl.
  rewrite (chunks_concat_len _ c_o (h * w))
    by (rewrite ?length_map; assumption).
  rewrite !map_map. reflexivity.
Qed.

(** C8, as the code has it.  For a grid stack of C >= 1 channels and a
    weight stack of O >= 1 output channels of C kernels of shape 1 x 1, the
    matrix-multiplication formulation [corr2d_multi_in_out_1x1] and the
    sliding-window computation [corr2d_multi_in_out] return the same
    tensor, of shape (O, H, W). *)
Theorem one_by_one_equivalence (X : tensor3) (K : tensor4)
  (c_i c_o h w : nat) :
  wf3 X -> shape3 X = (c_i, (h, w)) ->
  wf4 K -> shape4 K = (c_o, (c_i, (1, 1))) ->
  1 <= c_i -> 1 <= c_o ->
  exists Y, corr2d_multi_in_out_1x1 X K = Ok Y
    /\ corr2d_multi_in_out X K = Ok Y
    /\ shape3 Y = (c_o, (h, w)).
Proof.
  intros HX HsX HK HsK Hci Hco.
  rewrite (corr2d_multi_in_out_1x1_value X K c_i c_o h w) by assumption.
  rewrite (corr2d_multi_in_out_on_1x1 X K c_i c_o h w) by assumption.
  eexists. repeat split.
Qed.

Lemma one_by_one_equivalence_witness :
  wf3 X2_demo /\ wf4 K1_demo
  /\ exists Y, corr2d_multi_in_out_1x1 X2_demo K1_demo = Ok Y
       /\ corr2d_multi_in_out X2_demo K1_demo = Ok Y
       /\ shape3 Y = (3, (3, 3)).
Proof.
  split; [reflexivity|]. split; [reflexivity|].
  apply (one_by_one_equivalence X2_demo K1_demo 2 3 3 3);
    try reflexivity; lia.
Defined.

(** C8 fails as it is written for stacks without channels.  With no
    output channel the sliding-window computation stacks an empty list,
    which the framework refuses, while the matrix product returns an
    empty tensor; with no input channel the builtin [sum] returns the
    integer 0, which cannot be stacked, while the matrix product returns
    zeros. *)
Lemma one_by_one_equivalence_counterexample :
  (wf3 X2_demo /\ wf4 (Tensor4 (0, (2, (1, 1))) [])
   /\ corr2d_multi_in_out_1x1 X2_demo (Tensor4 (0, (2, (1, 1))) [])
      = Ok (Tensor3 (0, (3, 3)) [])
   /\ corr2d_multi_in_out X2_demo (Tensor4 (0, (2, (1, 1))) [])
      = Raise (RuntimeError EmptyStack))
  /\ (wf3 (Tensor3 (0, (3, 3)) []) /\ wf4 (Tensor4 (1, (0, (1, 1))) [[]])
      /\ corr2d_multi_in_out_1x1 (Tensor3 (0, (3, 3)) [])
                                 (Tensor4 (1, (0, (1, 1))) [[]])
         = Ok (Tensor3 (1, (3, 3)) [repeat (repeat 0%Qc 3) 3])
      /\ corr2d_multi_in_out (Tensor3 (0, (3, 3)) [])
                             (Tensor4 (1, (0, (1, 1))) [[]])
         = Raise TypeError).
Proof. repeat split. Qed.

(** * Further properties *)

(** ** Grids given cell by cell *)

Lemma wf_tabulate h w f : wf (tabulate h w f).
Proof.
  apply wf_iff. simpl. rewrite length_map, length_seq. split; [reflexivity|].
  intros i Hi. rewrite nth_map_seq by assumption.
  now rewrite length_map, length_seq.
Qed.

Lemma cell_tabulate h w f i j :
  i < h -> j < w -> cell (tabulate h w f) i j = f i j.
Proof.
  intros Hi Hj. unfold cell. simpl.
  rewrite nth_map_seq by assumption. now rewrite nth_map_seq.
Qed.

Lemma wf_ones r c : wf (ones r c).
Proof.
  apply wf_iff. simpl. rewrite repeat_length. split; [reflexivity|].
  intros i Hi. rewrite nth_repeat_lt by assumption. apply repeat_length.
Qed.

Lemma cell_ones r c i j : i < r -> j < c -> cell (ones r c) i j = qc 1.
Proof.
  intros Hi Hj. unfold cell. simpl. now rewrite !nth_repeat_lt.
Qed.

(** ** Cropping *)

(** X1.  [corr2d] is local: on a window of the grid that has room for the
    kernel it returns the matching window of the result on the whole grid
    (cropping the input commutes with the cross-correlation). *)
Theorem corr2d_commutes_with_cropping (X K : tensor)
  (H W kh kw r c h w : nat) :
  wf X -> shape X = (H, W) -> wf K -> shape K = (kh, kw) ->
  r + h <= H -> c + w <= W -> 1 <= kh <= h -> 1 <= kw <= w ->
  exists Y, corr2d X K = Ok Y
    /\ corr2d (slice X r (r + h) c (c + w)) K
       = Ok (slice Y r (r + (h + 1 - kh)) c (c + (w + 1 - kw))).
Proof.
  intros HX HsX HK HsK Hr Hc Hkh Hkw.
  destruct (corr2d_cells X K H W kh kw HX HsX HK HsK) as (Y & HY & HwY & HsY & HcY);
    try lia.
  exists Y. split; [assumption|].
  destruct (slice_spec X H W r h c w HX HsX Hr Hc) as (HwS & HsS & HcS).
  destruct (corr2d_cells _ K h w kh kw HwS HsS HK HsK) as (Z & HZ & HwZ & HsZ & HcZ);
    try lia.
  destruct (slice_spec Y (H + 1 - kh) (W + 1 - kw) r (h + 1 - kh) c (w + 1 - kw)
              HwY HsY) as (HwT & HsT & HcT); try lia.
  rewrite HZ. f_equal.
  apply (tensor_ext _ _ (h + 1 - kh) (w + 1 - kw)); auto.
  intros i j Hi Hj. rewrite HcZ, HcT, HcY by (assumption || lia).
  apply sum_upto_ext. intros p Hp. apply sum_upto_ext. intros q Hq.
  rewrite HcS by lia. now rewrite !Nat.add_assoc.
Qed.

Lemma corr2d_commutes_with_cropping_witness :
  exists Y, corr2d X8_demo (ones 3 5) = Ok Y
    /\ corr2d (slice X8_demo 1 (1 + 4) 2 (2 + 6)) (ones 3 5)
       = Ok (slice Y 1 (1 + (4 + 1 - 3)) 2 (2 + (6 + 1 - 5))).
Proof.
  apply (corr2d_commutes_with_cropping X8_demo (ones 3 5) 8 8 3 5 1 2 4 6);
    try reflexivity; lia.
Defined.

(** ** Edge detection *)

Lemma qc_minus_one : qc (-1) = Qcopp 1%Qc.
Proof. apply Qc_is_canon. reflexivity. Qed.

(** The kernel [[1, -1]] takes the difference of horizontal neighbours. *)
Lemma corr2d_edge_cells X H W :
  wf X -> shape X = (H, W) -> 1 <= W ->
  exists Y, corr2d X K_edge = Ok Y /\ wf Y /\ shape Y = (H, W - 1)
    /\ forall i j, i < H -> j < W - 1 ->
         cell Y i j = Qcminus (cell X i j) (cell X i (j + 1)).
Proof.
  intros HX HsX HW.
  destruct (corr2d_cells X K_edge H W 1 2 HX HsX) as (Y & HY & HwY & HsY & HcY);
    try reflexivity; try lia.
  replace (H + 1 - 1) with H in * by lia.
  replace (W + 1 - 2) with (W - 1) in * by lia.
  exists Y. repeat split; auto.
  intros i j Hi Hj. rewrite HcY by assumption. simpl.
  rewrite !Nat.add_0_r.
  change (cell K_edge 0 0) with 1%Qc.
  change (cell K_edge 0 1) with (qc (-1)). rewrite qc_minus_one. ring.
Qed.

(** X2.  With the kernel [[1, -1]], [corr2d] returns a grid one column
    narrower whose cell (i, j) is X[i, j] - X[i, j+1]: it is zero exactly
    where two horizontal neighbours are equal. *)
Theorem corr2d_edge_is_difference (X : tensor) (H W : nat) :
  wf X -> shape X = (H, W) -> 1 <= W ->
  exists Y, corr2d X K_edge = Ok Y /\ wf Y /\ shape Y = (H, W - 1)
    /\ forall i j, i < H -> j < W - 1 ->
         cell Y i j = Qcminus (cell X i j) (cell X i (j + 1))
         /\ (cell Y i j = 0%Qc <-> cell X i j = cell X i (j + 1)).
Proof.
  intros HX HsX HW.
  destruct (corr2d_edge_cells X H W HX HsX HW) as (Y & HY & HwY & HsY & HcY).
  exists Y. repeat split; auto; rewrite HcY by assumption.
  - intros E. rewrite <- (Qcplus_0_l (cell X i (j + 1))), <- E. ring.
  - intros ->. ring.
Qed.

Lemma corr2d_edge_is_difference_witness :
  exists Y, corr2d X_demo K_edge = Ok Y /\ wf Y /\ shape Y = (3, 3 - 1)
    /\ forall i j, i < 3 -> j < 3 - 1 ->
         cell Y i j = Qcminus (cell X_demo i j) (cell X_demo i (j + 1))
         /\ (cell Y i j = 0%Qc <-> cell X_demo i j = cell X_demo i (j + 1)).
Proof.
  apply (corr2d_edge_is_difference X_demo 3 3); try reflexivity; lia.
Defined.

Lemma wf_transpose X H W :
  wf X -> shape X = (H, W) ->
  wf (transpose X) /\ shape (transpose X) = (W, H)
  /\ forall i j, i < W -> j < H -> cell (transpose X) i j = cell X j i.
Proof.
  intros HX HsX. apply wf_iff in HX. rewrite HsX in HX. simpl in HX.
  destruct HX as [Hl Hr].
  unfold transpose. rewrite HsX. simpl. split; [|split; [reflexivity|]].
  - apply wf_iff. simpl. rewrite length_map, length_seq. split; [reflexivity|].
    intros i Hi. rewrite nth_map_seq by assumption.
    unfold column. now rewrite length_map.
  - intros i j Hi Hj. unfold cell. simpl.
    rewrite nth_map_seq by assumption. unfold column.
    apply (nth_map_lt (fun r => nth i r 0%Qc)). lia.
Qed.

(** X3.  The kernel [[1, -1]] only detects vertical edges: on the transpose
    of a grid whose columns are constant the result is zero everywhere. *)
Theorem corr2d_edge_vanishes_on_transpose (X : tensor) (H W : nat) :
  wf X -> shape X = (H, W) -> 1 <= H ->
  (forall i j, i < H -> j < W -> cell X i j = cell X 0 j) ->
  exists Y, corr2d (transpose X) K_edge = Ok Y /\ wf Y
    /\ shape Y = (W, H - 1)
    /\ forall i j, i < W -> j < H - 1 -> cell Y i j = 0%Qc.
Proof.
  intros HX HsX HH Hcol.
  destruct (wf_transpose X H W HX HsX) as (HwT & HsT & HcT).
  destruct (corr2d_edge_cells (transpose X) W H HwT HsT HH)
    as (Y & HY & HwY & HsY & HcY).
  exists Y. repeat split; auto.
  intros i j Hi Hj. rewrite HcY, !HcT by (assumption || lia).
  rewrite (Hcol j), (Hcol (j + 1)) by (assumption || lia). ring.
Qed.

Lemma wf_assign_cols X H W a b v :
  wf X -> shape X = (H, W) ->
  wf (assign_cols X a b v) /\ shape (assign_cols X a b v) = (H, W)
  /\ forall i j, i < H -> j < W ->
       cell (assign_cols X a b v) i j
       = if (a <=? j) && (j <? b) then v else cell X i j.
Proof.
  intros HX HsX. apply wf_iff in HX. rewrite HsX in HX. simpl in HX.
  destruct HX as [Hl Hr].
  unfold assign_cols. split; [|split; [assumption|]].
  - apply wf_iff. simpl. rewrite HsX, length_map. simpl. split; [assumption|].
    intros i Hi. rewrite (nth_map_lt _ _ _ []) by lia.
    now rewrite length_map, length_seq, Hr.
  - intros i j Hi Hj. unfold cell. simpl.
    rewrite (nth_map_lt _ _ _ []) by lia.
    rewrite nth_map_seq by (rewrite Hr; assumption). reflexivity.
Qed.

Lemma corr2d_edge_vanishes_on_transpose_witness :
  exists Y, corr2d (transpose (edge_image 6 8 2 6)) K_edge = Ok Y /\ wf Y
    /\ shape Y = (8, 6 - 1)
    /\ forall i j, i < 8 -> j < 6 - 1 -> cell Y i j = 0%Qc.
Proof.
  apply (corr2d_edge_vanishes_on_transpose (edge_image 6 8 2 6) 6 8);
    try reflexivity; try lia.
  intros i j Hi Hj.
  destruct (wf_assign_cols (ones 6 8) 6 8 2 6 0%Qc (wf_ones 6 8) eq_refl)
    as (_ & _ & Hc).
  unfold edge_image. rewrite !Hc by lia.
  rewrite !cell_ones by lia. reflexivity.
Defined.

(** X4.  On the image of ones whose columns a..b-1 are set to zero
    (a < b <= W), the kernel [[1, -1]] gives 1 at the edge from one to zero
    (column a-1), -1 at the edge from zero to one (column b-1) and 0 in
    every other cell. *)
Theorem corr2d_edge_image (H W a b : nat) :
  a < b -> b <= W ->
  exists Y, corr2d (edge_image H W a b) K_edge = Ok Y /\ wf Y
    /\ shape Y = (H, W - 1)
    /\ forall i j, i < H -> j < W - 1 ->
         cell Y i j = if j + 1 =? a then qc 1
                      else if j + 1 =? b then qc (-1) else qc 0.
Proof.
  intros Hab HbW.
  destruct (wf_assign_cols (ones H W) H W a b 0%Qc (wf_ones H W) eq_refl)
    as (HwX & HsX & HcX).
  destruct (corr2d_edge_cells (edge_image H W a b) H W HwX HsX)
    as (Y & HY & HwY & HsY & HcY); [lia|].
  exists Y. repeat split; auto.
  intros i j Hi Hj. rewrite HcY by assumption.
  unfold edge_image. rewrite !HcX by lia. rewrite !cell_ones by lia.
  rewrite qc_minus_one. change (qc 1) with 1%Qc. change (qc 0) with 0%Qc.
  destruct (Nat.eqb_spec (j + 1) a) as [Ea|Ea];
    [|destruct (Nat.eqb_spec (j + 1) b) as [Eb|Eb]];
    destruct (Nat.leb_spec a j); destruct (Nat.ltb_spec j b);
    destruct (Nat.leb_spec a (j + 1)); destruct (Nat.ltb_spec (j + 1) b);
    simpl; try lia; ring.
Qed.

Lemma corr2d_edge_image_witness :
  exists Y, corr2d (edge_image 6 8 2 6) K_edge = Ok Y /\ wf Y
    /\ shape Y = (6, 8 - 1)
    /\ forall i j, i < 6 -> j < 8 - 1 ->
         cell Y i j = if j + 1 =? 2 then qc 1
                      else if j + 1 =? 6 then qc (-1) else qc 0.
Proof. apply (corr2d_edge_image 6 8 2 6); lia. Defined.

(** ** The convolutional layer *)

Lemma add_scalar_spec Y b h w :
  wf Y -> shape Y = (h, w) ->
  wf (add_scalar Y b) /\ shape (add_scalar Y b) = (h, w)
  /\ forall i j, i < h -> j < w ->
       cell (add_scalar Y b) i j = Qcplus (cell Y i j) b.
Proof.
  intros HY HsY. apply wf_iff in HY. rewrite HsY in HY. simpl in HY.
  destruct HY as [Hl Hr].
  unfold add_scalar. split; [|split; [assumption|]].
  - apply wf_iff. simpl. rewrite HsY, length_map. simpl. split; [assumption|].
    intros i Hi. rewrite (nth_map_lt _ _ _ []) by lia.
    now rewrite length_map, Hr.
  - intros i j Hi Hj. unfold cell. simpl.
    rewrite (nth_map_lt _ _ _ []) by lia.
    apply (nth_map_lt (fun v => Qcplus v b)). rewrite Hr; assumption.
Qed.

(** X5.  The layer [Conv2D] returns the cross-correlation of its input
    with its kernel plus its bias in every cell; it fails, as [corr2d]
    does, when the kernel exceeds the input by two or more cells on an
    axis; and while the bias is zero, as it is after construction, it
    returns what [corr2d] returns. *)
Theorem Conv2D_forward_adds_bias (self : Conv2D) (x : tensor)
  (H W kh kw : nat) :
  wf x -> shape x = (H, W) ->
  wf (weight self) -> shape (weight self) = (kh, kw) ->
  (kh <= H + 1 -> kw <= W + 1 ->
   exists Y, Conv2D_forward self x = Ok Y /\ wf Y
     /\ shape Y = (H + 1 - kh, W + 1 - kw)
     /\ forall i j, i < H + 1 - kh -> j < W + 1 - kw ->
          cell Y i j
          = Qcplus (sum_upto kh (fun p => sum_upto kw (fun q =>
                      Qcmult (cell x (i + p) (j + q)) (cell (weight self) p q))))
                   (bias self))
  /\ (H + 1 < kh \/ W + 1 < kw ->
      Conv2D_forward self x = Raise (RuntimeError NegativeDimension))
  /\ (bias self = 0%Qc -> Conv2D_forward self x = corr2d x (weight self)).
Proof.
  intros Hx Hsx Hk Hsk. unfold Conv2D_forward. split; [|split].
  - intros Hh Hw.
    destruct (corr2d_cells x (weight self) H W kh kw Hx Hsx Hk Hsk Hh Hw)
      as (Y & -> & HwY & HsY & HcY).
    destruct (add_scalar_spec Y (bias self) _ _ HwY HsY) as (Ha & Hs & Hc).
    eexists. split; [reflexivity|]. repeat split; auto.
    intros i j Hi Hj. rewrite Hc, HcY by assumption. reflexivity.
  - intros Hbig.
    now rewrite (corr2d_negative x (weight self) H W kh kw Hsx Hsk Hbig).
  - intros ->. destruct (corr2d x (weight self)) as [Y| |]; try reflexivity.
    simpl. f_equal. destruct Y as [s r]. unfold add_scalar. simpl. f_equal.
    rewrite <- (map_id r) at 2. apply map_ext. intros row.
    rewrite <- (map_id row) at 2. apply map_ext. intros v.
    apply Qcplus_0_r.
Qed.

Lemma Conv2D_forward_adds_bias_witness :
  (2 <= 3 + 1 -> 2 <= 3 + 1 ->
   exists Y, Conv2D_forward {| weight := K_demo; bias := qc 5 |} X_demo = Ok Y
     /\ wf Y /\ shape Y = (3 + 1 - 2, 3 + 1 - 2)
     /\ forall i j, i < 3 + 1 - 2 -> j < 3 + 1 - 2 ->
          cell Y i j
          = Qcplus (sum_upto 2 (fun p => sum_upto 2 (fun q =>
                      Qcmult (cell X_demo (i + p) (j + q)) (cell K_demo p q))))
                   (qc 5))
  /\ (3 + 1 < 2 \/ 3 + 1 < 2 ->
      Conv2D_forward {| weight := K_demo; bias := qc 5 |} X_demo
      = Raise (RuntimeError NegativeDimension))
  /\ (qc 5 = 0%Qc ->
      Conv2D_forward {| weight := K_demo; bias := qc 5 |} X_demo
      = corr2d X_demo K_demo).
Proof.
  apply (Conv2D_forward_adds_bias {| weight := K_demo; bias := qc 5 |}
           X_demo 3 3 2 2); reflexivity.
Defined.

(** ** Pooling against cross-correlation *)

Lemma qc_plus a b : qc (a + b) = Qcplus (qc a) (qc b).
Proof.
  apply Qc_is_canon. unfold qc, Qcplus. cbn [this Q2Qc].
  rewrite !Qred_correct, inject_Z_plus. reflexivity.
Qed.
Lemma qc_mult a b : qc (a * b) = Qcmult (qc a) (qc b).
Proof.
  apply Qc_is_canon. unfold qc, Qcmult. cbn [this Q2Qc].
  rewrite !Qred_correct, inject_Z_mult. reflexivity.
Qed.
Lemma qc_pos z : (0 < z)%Z -> Qclt 0%Qc (qc z).
Proof.
  intros Hz. unfold Qclt, qc. cbn [this Q2Qc]. rewrite !Qred_correct.
  unfold Qlt. simpl. lia.
Qed.
Lemma qc_nonzero z : z <> 0%Z -> qc z <> 0%Qc.
Proof.
  intros Hz E. apply (f_equal this) in E. unfold qc in E. cbn [this Q2Qc] in E.
  assert (Hq : Qeq (inject_Z z) 0%Q).
  { rewrite <- (Qred_correct (inject_Z z)), E. apply Qred_correct. }
  unfold Qeq in Hq. simpl in Hq. lia.
Qed.

(** X6.  On a float grid average pooling is a cross-correlation with a
    kernel of ones, scaled: for a window that fits the grid, every cell of
    [pool2d X (kh, kw) 'avg'] is the cell of [corr2d X ones(kh, kw)]
    divided by kh * kw.  On a grid of integers the two part: [corr2d]
    with the kernel of ones returns, and mode 'avg' raises. *)
Theorem pool2d_avg_is_scaled_corr2d (d : dtype) (X : tensor)
  (H W kh kw : nat) :
  wf X -> shape X = (H, W) -> 1 <= kh <= H -> 1 <= kw <= W ->
  exists Yc, corr2d X (ones kh kw) = Ok Yc
    /\ match d with
       | Floating =>
           exists Ya, pool2d_on Floating X (kh, kw) "avg" = Ok Ya
             /\ shape Ya = shape Yc
             /\ forall i j, i < H + 1 - kh -> j < W + 1 - kw ->
                  cell Ya i j
                  = Qcdiv (cell Yc i j) (qc (Z.of_nat (kh * kw)))
       | Integral =>
           pool2d_on Integral X (kh, kw) "avg"
           = Raise (RuntimeError NotFloatingPoint)
       end.
Proof.
  intros HX HsX Hh Hw.
  destruct (corr2d_cells X (ones kh kw) H W kh kw HX HsX (wf_ones kh kw) eq_refl)
    as (Yc & HYc & _ & HsYc & HcYc); try lia.
  exists Yc. split; [assumption|]. destruct d.
  - destruct (pool2d_avg_cells X H W kh kw HX HsX Hh Hw)
      as (Ya & HYa & _ & HsYa & HcYa).
    exists Ya. repeat split; auto; [congruence|].
    intros i j Hi Hj. rewrite HcYa, HcYc by assumption.
    unfold Qcdiv. f_equal.
    apply sum_upto_ext. intros p Hp. apply sum_upto_ext. intros q Hq.
    rewrite cell_ones by assumption. change (qc 1) with 1%Qc.
    now rewrite Qcmult_1_r.
  - apply (pool2d_on_integral_avg X H W); [assumption | lia | lia].
Qed.

Lemma pool2d_avg_is_scaled_corr2d_witness :
  (exists Yc, corr2d X_demo (ones 2 2) = Ok Yc
     /\ exists Ya, pool2d_on Floating X_demo (2, 2) "avg" = Ok Ya
          /\ shape Ya = shape Yc
          /\ forall i j, i < 3 + 1 - 2 -> j < 3 + 1 - 2 ->
               cell Ya i j = Qcdiv (cell Yc i j) (qc (Z.of_nat (2 * 2))))
  /\ (exists Yc, corr2d X_demo (ones 2 2) = Ok Yc
        /\ pool2d_on Integral X_demo (2, 2) "avg"
           = Raise (RuntimeError NotFloatingPoint)).
Proof.
  split.
  - apply (pool2d_avg_is_scaled_corr2d Floating X_demo 3 3 2 2);
      try reflexivity; lia.
  - apply (pool2d_avg_is_scaled_corr2d Integral X_demo 3 3 2 2);
      try reflexivity; lia.
Defined.

(** X8.  A window or a kernel of one cell changes nothing: [pool2d] with
    the window (1, 1) in mode 'max', on a grid of any element type, in mode
    'avg' on a float grid, and [corr2d] with the kernel [[1]], return a
    grid with the entries of their input.  In mode 'avg' a grid of integers
    is refused as soon as it has a cell; without cells it is returned. *)
Theorem one_cell_window_is_identity (d : dtype) (X : tensor) :
  wf X ->
  pool2d_on d X (1, 1) "max" = Ok X
  /\ pool2d_on d X (1, 1) "avg"
     = match d with
       | Floating => Ok X
       | Integral =>
           if fst (shape X) * snd (shape X) =? 0 then Ok X
           else Raise (RuntimeError NotFloatingPoint)
       end
  /\ corr2d X (tensor_of [[1]]%Z) = Ok X.
Proof.
  intros HX. destruct (shape X) as [H W] eqn:HsX.
  assert (Hwin : forall i j, i < H + 1 - 1 -> j < W + 1 - 1 ->
            wf (slice X i (i + 1) j (j + 1))
            /\ shape (slice X i (i + 1) j (j + 1)) = (1, 1)
            /\ cell (slice X i (i + 1) j (j + 1)) 0 0 = cell X i j).
  { intros i j Hi Hj.
    destruct (slice_spec X H W i 1 j 1 HX HsX) as (HwS & HsS & HcS); try lia.
    rewrite HcS, !Nat.add_0_r by lia. auto. }
  assert (Hsame : forall Y, wf Y -> shape Y = (H + 1 - 1, W + 1 - 1) ->
            (forall i j, i < H + 1 - 1 -> j < W + 1 - 1 ->
               cell Y i j = cell X i j) -> Y = X).
  { intros Y HwY HsY HcY. rewrite !Nat.add_sub in *.
    now apply (tensor_ext Y X H W). }
  assert (Havg : pool2d_on Floating X (1, 1) "avg" = Ok X).
  { destruct (pool2d_on_cells Floating X H W 1 1 "avg" (cell X) HsX)
      as (Y & -> & Hw & Hs & Hc); try lia; [|f_equal; now apply Hsame].
    intros i j Y Hi Hj. simpl.
    destruct (Hwin i j Hi Hj) as (HwS & HsS & HcS).
    rewrite (tmean_spec _ 1 1 HwS HsS) by lia. simpl. f_equal.
    rewrite (tsum_spec _ 1 1 HwS HsS). simpl. rewrite HcS.
    change (qc 1) with 1%Qc. field. discriminate. }
  split; [|split].
  - rewrite pool2d_on_other_modes by discriminate.
    destruct (pool2d_cells X H W 1 1 "max" (cell X) HsX) as (Y & -> & Hw & Hs & Hc);
      try lia; [|f_equal; now apply Hsame].
    intros i j Y Hi Hj. simpl.
    destruct (Hwin i j Hi Hj) as (HwS & HsS & HcS).
    destruct (tmax_spec _ 1 1 HwS HsS) as (m & -> & (p & q & Hp & Hq & Hm) & _);
      try lia.
    replace p with 0 in Hm by lia. replace q with 0 in Hm by lia.
    simpl. congruence.
  - destruct d; [exact Havg|]. cbn [fst snd].
    destruct (Nat.eqb_spec (H * W) 0) as [E0|E0].
    + destruct (pool2d_on_cells Integral X H W 1 1 "avg" (cell X) HsX)
        as (Y & -> & Hw & Hs & Hc); try lia; try (intros; nia).
      f_equal. now apply Hsame.
    + apply (pool2d_on_integral_avg X H W); [assumption | nia | nia].
  - destruct (corr2d_cells X (tensor_of [[1]]%Z) H W 1 1 HX HsX)
      as (Y & -> & Hw & Hs & Hc); try reflexivity; try lia.
    f_equal. apply Hsame; auto.
    intros i j Hi Hj. rewrite Hc by assumption. simpl.
    rewrite !Nat.add_0_r. change (cell (tensor_of [[1]]%Z) 0 0) with 1%Qc. ring.
Qed.

Lemma one_cell_window_is_identity_witness :
  (pool2d_on Floating X_demo (1, 1) "max" = Ok X_demo
   /\ pool2d_on Floating X_demo (1, 1) "avg" = Ok X_demo
   /\ corr2d X_demo (tensor_of [[1]]%Z) = Ok X_demo)
  /\ (pool2d_on Integral X_demo (1, 1) "max" = Ok X_demo
      /\ pool2d_on Integral X_demo (1, 1) "avg"
         = Raise (RuntimeError NotFloatingPoint)
      /\ corr2d X_demo (tensor_of [[1]]%Z) = Ok X_demo).
Proof.
  split.
  - apply (one_cell_window_is_identity Floating X_demo). reflexivity.
  - apply (one_cell_window_is_identity Integral X_demo). reflexivity.
Defined.

(** ** Any number of channels *)

Lemma nth_combine {A B} (l : list A) (m : list B) n a b :
  n < Nat.min (length l) (length m) ->
  nth n (combine l m) (a, b) = (nth n l a, nth n m b).
Proof.
  revert m n. induction l as [|x l IH]; intros [|y m] [|n] H; simpl in *;
    try lia; auto.
  apply IH. lia.
Qed.

(** The per-channel results of [corr2d_multi_in]. *)
Lemma corr2d_channels H W kh kw (xs ks : list (list (list Qc))) :
  (forall x, In x xs -> wf (Tensor (H, W) x)) ->
  (forall k, In k ks -> wf (Tensor (kh, kw) k)) ->
  kh <= H + 1 -> kw <= W + 1 ->
  exists Ys,
    map (fun xk => corr2d (fst xk) (snd xk))
        (combine (map (Tensor (H, W)) xs) (map (Tensor (kh, kw)) ks))
    = map Ok Ys
    /\ length Ys = Nat.min (length xs) (length ks)
    /\ Forall (fun T => wf T /\ shape T = (H + 1 - kh, W + 1 - kw)) Ys
    /\ forall i j, i < H + 1 - kh -> j < W + 1 - kw ->
         map (fun T => cell T i j) Ys
         = map (fun xk => sum_upto kh (fun p => sum_upto kw (fun q =>
                  Qcmult (cell (Tensor (H, W) (fst xk)) (i + p) (j + q))
                         (cell (Tensor (kh, kw) (snd xk)) p q))))
               (combine xs ks).
Proof.
  intros Hxs Hks Hh Hw. revert ks Hks.
  induction xs as [|x xs IH]; intros ks Hks.
  - exists []. repeat split; auto.
  - destruct ks as [|k ks]; [exists []; repeat split; auto|].
    destruct (corr2d_cells (Tensor (H, W) x) (Tensor (kh, kw) k) H W kh kw)
      as (Y & HY & HwY & HsY & HcY); auto;
      [apply Hxs; left; reflexivity | apply Hks; left; reflexivity |].
    destruct (IH (fun x' Hx' => Hxs x' (or_intror Hx')) ks
                 (fun k' Hk' => Hks k' (or_intror Hk')))
      as (Ys & HYs & Hlen & Hall & Hcells).
    exists (Y :: Ys). simpl. rewrite HY, HYs, Hlen. repeat split; auto.
    intros i j Hi Hj. rewrite HcY, Hcells by assumption. reflexivity.
Qed.

(** [corr2d_multi_in] on at least one pair of channels. *)
Lemma corr2d_multi_in_value X K C C' H W kh kw :
  wf3 X -> shape3 X = (C, (H, W)) -> wf3 K -> shape3 K = (C', (kh, kw)) ->
  1 <= Nat.min C C' -> kh <= H + 1 -> kw <= W + 1 ->
  corr2d_multi_in X K
  = Ok (PyTensor (tabulate (H + 1 - kh) (W + 1 - kw) (fun i j =>
          sum_upto (Nat.min C C') (fun c =>
            sum_upto kh (fun p => sum_upto kw (fun q =>
              Qcmult (cell3 X c (i + p) (j + q)) (cell3 K c p q))))))).
Proof.
  intros HX HsX HK HsK Hn Hh Hw.
  destruct (wf3_chans X C H W HX HsX) as [HlX HcX].
  destruct (wf3_chans K C' kh kw HK HsK) as [HlK HcK].
  unfold corr2d_multi_in, iter3. rewrite HsX, HsK. simpl snd.
  destruct (corr2d_channels H W kh kw (chans X) (chans K) HcX HcK Hh Hw)
    as (Ys & HYs & Hlen & Hall & Hcells).
  rewrite HYs. rewrite HlX, HlK in Hlen.
  destruct Ys as [|Y0 Ys]; [simpl in Hlen; lia|].
  destruct (py_sum_from_zero _ _ Y0 Ys Hall) as (Y & HY & HwY & HsY & HcY).
  rewrite HY. do 2 f_equal.
  apply (tensor_ext _ _ (H + 1 - kh) (W + 1 - kw)); auto using wf_tabulate.
  intros i j Hi Hj. rewrite HcY, Hcells, cell_tabulate by assumption.
  rewrite lsum_nth, length_map, length_combine, HlX, HlK.
  apply sum_upto_ext. intros c Hc.
  rewrite (nth_map_lt _ _ _ ([], [])) by (rewrite length_combine; lia).
  rewrite nth_combine by lia. reflexivity.
Qed.

(** X9.  For stacks of any numbers C and C' of channels, at least one
    each, [corr2d_multi_in] returns the grid whose cell (i, j) is the sum
    over the first min(C, C') channels c and the window positions (p, q) of
    X[c, i+p, j+q] * K[c, p, q]: channels beyond the shorter stack are
    ignored and raise nothing. *)
Theorem corr2d_multi_in_sums_channels (X K : tensor3)
  (C C' H W kh kw : nat) :
  wf3 X -> shape3 X = (C, (H, W)) -> wf3 K -> shape3 K = (C', (kh, kw)) ->
  1 <= Nat.min C C' -> kh <= H + 1 -> kw <= W + 1 ->
  exists Y, corr2d_multi_in X K = Ok (PyTensor Y) /\ wf Y
    /\ shape Y = (H + 1 - kh, W + 1 - kw)
    /\ forall i j, i < H + 1 - kh -> j < W + 1 - kw ->
         cell Y i j
         = sum_upto (Nat.min C C') (fun c =>
             sum_upto kh (fun p => sum_upto kw (fun q =>
               Qcmult (cell3 X c (i + p) (j + q)) (cell3 K c p q)))).
Proof.
  intros HX HsX HK HsK Hn Hh Hw.
  rewrite (corr2d_multi_in_value X K C C' H W kh kw) by assumption.
  eexists. split; [reflexivity|]. split; [apply wf_tabulate|].
  split; [reflexivity|]. intros i j Hi Hj. now rewrite cell_tabulate.
Qed.

Lemma corr2d_multi_in_sums_channels_witness :
  exists Y, corr2d_multi_in X2_demo K2_demo = Ok (PyTensor Y) /\ wf Y
    /\ shape Y = (3 + 1 - 2, 3 + 1 - 2)
    /\ forall i j, i < 3 + 1 - 2 -> j < 3 + 1 - 2 ->
         cell Y i j
         = sum_upto (Nat.min 2 2) (fun c =>
             sum_upto 2 (fun p => sum_upto 2 (fun q =>
               Qcmult (cell3 X2_demo c (i + p) (j + q)) (cell3 K2_demo c p q)))).
Proof.
  apply (corr2d_multi_in_sums_channels X2_demo K2_demo 2 2 3 3 2 2);
    try reflexivity; simpl; lia.
Defined.

(** X10.  Without channels on either side the builtin [sum] has nothing to
    add: [corr2d_multi_in] returns the integer 0, whatever the sizes of the
    grids and kernels, and [corr2d_multi_in_out] then fails with
    [TypeError] when it stacks these integers. *)
Theorem corr2d_multi_in_without_channels (X K : tensor3) (K4 : tensor4) :
  chans X = [] \/ chans K = [] ->
  corr2d_multi_in X K = Ok (PyInt 0)
  /\ (chans X = [] -> kerns K4 <> [] ->
      corr2d_multi_in_out X K4 = Raise TypeError).
Proof.
  intros Hnone. split.
  - unfold corr2d_multi_in, iter3.
    destruct Hnone as [-> | ->]; simpl; [reflexivity|].
    now rewrite combine_nil.
  - intros HX HK. unfold corr2d_multi_in_out, iter4.
    rewrite (mapM_map _ (fun _ => PyInt 0)).
    + destruct (kerns K4) as [|k ks]; [congruence|]. reflexivity.
    + intros k _. unfold corr2d_multi_in, iter3. now rewrite HX.
Qed.

Lemma corr2d_multi_in_without_channels_witness :
  corr2d_multi_in (Tensor3 (0, (3, 3)) []) K2_demo = Ok (PyInt 0)
  /\ (chans (Tensor3 (0, (3, 3)) []) = [] -> kerns K4_demo <> [] ->
      corr2d_multi_in_out (Tensor3 (0, (3, 3)) []) K4_demo = Raise TypeError).
Proof.
  apply (corr2d_multi_in_without_channels (Tensor3 (0, (3, 3)) []) K2_demo K4_demo).
  left. reflexivity.
Defined.

(** X11.  For a grid stack of C >= 1 channels and a weight stack of O >= 1
    output channels of C' >= 1 kernels each, [corr2d_multi_in_out] returns a
    stack of O grids of shape (H + 1 - kh, W + 1 - kw): the cell (i, j) of
    the output channel o is the sum over the channels c and the window
    positions (p, q) of X[c, i+p, j+q] * K[o, c, p, q]. *)
Theorem corr2d_multi_in_out_cells (X : tensor3) (K : tensor4)
  (C C' O H W kh kw : nat) :
  wf3 X -> shape3 X = (C, (H, W)) ->
  wf4 K -> shape4 K = (O, (C', (kh, kw))) ->
  1 <= Nat.min C C' -> 1 <= O -> kh <= H + 1 -> kw <= W + 1 ->
  exists Y, corr2d_multi_in_out X K = Ok Y /\ wf3 Y
    /\ shape3 Y = (O, (H + 1 - kh, W + 1 - kw))
    /\ forall o i j, o < O -> i < H + 1 - kh -> j < W + 1 - kw ->
         cell3 Y o i j
         = sum_upto (Nat.min C C') (fun c =>
             sum_upto kh (fun p => sum_upto kw (fun q =>
               Qcmult (cell3 X c (i + p) (j + q)) (cell4 K o c p q)))).
Proof.
  intros HX HsX HK HsK Hn HO Hh Hw.
  destruct (wf4_kerns K O C' kh kw HK HsK) as [HlK HkK].
  set (T := fun k3 : tensor3 =>
         tabulate (H + 1 - kh) (W + 1 - kw) (fun i j =>
           sum_upto (Nat.min C C') (fun c =>
             sum_upto kh (fun p => sum_upto kw (fun q =>
               Qcmult (cell3 X c (i + p) (j + q)) (cell3 k3 c p q)))))).
  unfold corr2d_multi_in_out, iter4. rewrite HsK. simpl snd.
  rewrite (mapM_map _ (fun k3 => PyTensor (T k3))).
  2:{ intros a Ha. apply in_map_iff in Ha. destruct Ha as (k & <- & Hk).
      apply corr2d_multi_in_value; auto. }
  cbn [bind]. rewrite <- (map_map T PyTensor).
  rewrite (stack_tensors (H + 1 - kh, W + 1 - kw)).
  - eexists. split; [reflexivity|]. rewrite !length_map, HlK.
    split; [|split; [reflexivity|]].
    + unfold wf3, wfb3. simpl. rewrite !length_map, HlK, Nat.eqb_refl. simpl.
      apply forallb_forall. intros r Hr.
      apply in_map_iff in Hr. destruct Hr as (t & <- & Ht).
      apply in_map_iff in Ht. destruct Ht as (k3 & <- & _).
      apply (wf_tabulate (H + 1 - kh) (W + 1 - kw)).
    + intros o i j Ho Hi Hj. unfold cell3. simpl chans.
      rewrite map_map, map_map.
      rewrite (nth_map_lt _ _ _ []) by lia.
      apply (cell_tabulate (H + 1 - kh) (W + 1 - kw)); assumption.
  - destruct (kerns K); [simpl in HlK; lia | discriminate].
  - intros u Hu. apply in_map_iff in Hu. destruct Hu as (k & <- & _).
    reflexivity.
Qed.

Lemma corr2d_multi_in_out_cells_witness :
  exists Y, corr2d_multi_in_out X2_demo K4_demo = Ok Y /\ wf3 Y
    /\ shape3 Y = (3, (3 + 1 - 2, 3 + 1 - 2))
    /\ forall o i j, o < 3 -> i < 3 + 1 - 2 -> j < 3 + 1 - 2 ->
         cell3 Y o i j
         = sum_upto (Nat.min 2 2) (fun c =>
             sum_upto 2 (fun p => sum_upto 2 (fun q =>
               Qcmult (cell3 X2_demo c (i + p) (j + q)) (cell4 K4_demo o c p q)))).
Proof.
  apply (corr2d_multi_in_out_cells X2_demo K4_demo 2 2 3 3 3 2 2);
    try reflexivity; simpl; lia.
Defined.

Lemma flat3_length k C h w :
  wf3 (Tensor3 (C, (h, w)) k) ->
  length (concat (map (@concat Qc) k)) = C * (h * w).
Proof.
  intros Hk. destruct (wf3_chans _ C h w Hk eq_refl) as [Hl Hc].
  simpl in Hl, Hc.
  rewrite (concat_length_eq _ (h * w)), length_map, Hl; [reflexivity|].
  intros r Hr. apply in_map_iff in Hr. destruct Hr as (x & <- & Hx).
  apply (flat_length (Tensor (h, w) x) h w); auto.
Qed.

(** X12.  [corr2d_multi_in_out_1x1] refuses every weight stack whose number
    of entries is not c_o * c_i, with the framework's error for a reshape
    to another size: kernels larger than 1 x 1, or a number of kernels per
    output channel other than the number of channels of the grid. *)
Theorem corr2d_multi_in_out_1x1_refuses (X : tensor3) (K : tensor4)
  (C C' O H W kh kw : nat) :
  wf3 X -> shape3 X = (C, (H, W)) ->
  wf4 K -> shape4 K = (O, (C', (kh, kw))) ->
  O * (C' * (kh * kw)) <> O * C ->
  corr2d_multi_in_out_1x1 X K = Raise (RuntimeError InvalidShape).
Proof.
  intros HX HsX HK HsK Hne.
  destruct (wf4_kerns K O C' kh kw HK HsK) as [HlK HkK].
  unfold corr2d_multi_in_out_1x1. rewrite HsX, HsK. simpl fst.
  unfold reshape2, flat3, flat4. simpl fst. simpl snd.
  rewrite (flat3_length (chans X) C H W) by (destruct X; simpl in *; congruence).
  rewrite Nat.eqb_refl. cbn [bind].
  rewrite (concat_length_eq _ (C' * (kh * kw))), length_map, HlK.
  - destruct (Nat.eqb_spec (O * (C' * (kh * kw))) (O * C)); [contradiction|].
    reflexivity.
  - intros r Hr. apply in_map_iff in Hr. destruct Hr as (k & <- & Hk).
    apply flat3_length. auto.
Qed.

Lemma corr2d_multi_in_out_1x1_refuses_witness :
  corr2d_multi_in_out_1x1 X2_demo K4_demo = Raise (RuntimeError InvalidShape).
Proof.
  apply (corr2d_multi_in_out_1x1_refuses X2_demo K4_demo 2 2 3 3 3 2 2);
    try reflexivity. simpl. lia.
Defined.

(** ** The graph convolution *)

Example GCNLayer_forward_demo :
  match GCNLayer_forward layer_demo node_feats_demo adj_demo with
  | Ok Y => list_eqb (list_eqb (list_eqb Qc_eqb)) (chans Y)
              (map (map (map qc)) [[[1; 2]; [3; 4]; [4; 5]; [4; 5]]]%Z)
  | _ => false
  end = true.
Proof. vm_compute. reflexivity. Qed.

Lemma wf3_iff X B N M :
  shape3 X = (B, (N, M)) ->
  (wf3 X <->
   length (chans X) = B
   /\ forall b, b < B ->
        length (nth b (chans X) []) = N
        /\ forall i, i < N -> length (nth i (nth b (chans X) []) []) = M).
Proof.
  intros Hs. unfold wf3, wfb3. rewrite Hs. simpl.
  rewrite andb_true_iff, Nat.eqb_eq, forallb_forall. split.
  - intros [Hl Hc]. split; [assumption|]. intros b Hb.
    assert (Hw : wf (Tensor (N, M) (nth b (chans X) [])))
      by (apply Hc, nth_In; lia).
    apply wf_iff in Hw. exact Hw.
  - intros [Hl Hc]. split; [assumption|]. intros c Hin.
    destruct (In_nth _ _ [] Hin) as (b & Hb & <-).
    apply wf_iff. simpl. apply Hc. lia.
Qed.

Lemma wf3_intro B N M cs :
  length cs = B ->
  (forall b, b < B ->
     length (nth b cs []) = N
     /\ forall i, i < N -> length (nth i (nth b cs []) []) = M) ->
  wf3 (Tensor3 (B, (N, M)) cs).
Proof.
  intros Hl Hc. apply (wf3_iff (Tensor3 (B, (N, M)) cs) B N M eq_refl). auto.
Qed.

Lemma dot_sum a b n :
  length a = n -> length b = n ->
  dot a b = sum_upto n (fun c => Qcmult (nth c a 0%Qc) (nth c b 0%Qc)).
Proof.
  intros Ha Hb. unfold dot. rewrite lsum_nth, map2_length, Ha by congruence.
  apply sum_upto_ext. intros c Hc.
  apply nth_map2; congruence || lia.
Qed.

Lemma linear_vec_spec L c_in c_out v :
  wf_linear L c_in c_out -> length v = c_in ->
  length (linear_vec L v) = c_out
  /\ forall k, k < c_out ->
       nth k (linear_vec L v) 0%Qc
       = Qcplus (sum_upto c_in (fun c =>
                   Qcmult (nth c v 0%Qc) (cell (Linear.weight L) k c)))
                (nth k (Linear.bias L) 0%Qc).
Proof.
  intros (HW & HsW & Hb) Hv. apply wf_iff in HW. rewrite HsW in HW.
  simpl in HW. destruct HW as [Hl Hr]. unfold linear_vec. split.
  - rewrite map2_length; rewrite length_map; congruence.
  - intros k Hk.
    rewrite (nth_map2 _ _ _ _ 0%Qc 0%Qc) by (rewrite length_map; congruence || lia).
    f_equal. rewrite (nth_map_lt _ _ _ []) by lia.
    apply dot_sum; auto.
Qed.

Lemma Linear_forward3_spec L c_in c_out x B N :
  wf_linear L c_in c_out -> wf3 x -> shape3 x = (B, (N, c_in)) ->
  exists Y, Linear_forward3 L x = Ok Y /\ wf3 Y
    /\ shape3 Y = (B, (N, c_out))
    /\ forall b i k, b < B -> i < N -> k < c_out ->
         cell3 Y b i k
         = Qcplus (sum_upto c_in (fun c =>
                     Qcmult (cell3 x b i c) (cell (Linear.weight L) k c)))
                  (nth k (Linear.bias L) 0%Qc).
Proof.
  intros HL Hx Hsx. pose proof HL as (HW & HsW & Hb).
  apply (wf3_iff x B N c_in Hsx) in Hx. destruct Hx as [Hlx Hcx].
  unfold Linear_forward3. rewrite Hsx, HsW. simpl. rewrite Nat.eqb_refl.
  eexists. split; [reflexivity|].
  assert (Hrow : forall b i, b < B -> i < N ->
            nth i (nth b (map (map (linear_vec L)) (chans x)) []) []
            = linear_vec L (nth i (nth b (chans x) []) [])).
  { intros b i Hb' Hi. rewrite (nth_map_lt _ _ _ []) by lia.
    apply (nth_map_lt (linear_vec L)). destruct (Hcx b Hb') as [-> _]. assumption. }
  split; [|split; [reflexivity|]].
  - apply wf3_intro; [now rewrite length_map|]. intros b Hb'. split.
    + rewrite (nth_map_lt _ _ _ []) by lia. rewrite length_map.
      now destruct (Hcx b Hb').
    + intros i Hi. rewrite Hrow by assumption.
      apply (linear_vec_spec L c_in c_out); auto.
      destruct (Hcx b Hb') as [_ H]. auto.
  - intros b i k Hb' Hi Hk. unfold cell3 at 1. simpl chans.
    rewrite Hrow by assumption.
    destruct (linear_vec_spec L c_in c_out (nth i (nth b (chans x) []) []) HL)
      as [_ Hn]; [destruct (Hcx b Hb') as [_ H]; auto|].
    now rewrite Hn.
Qed.

Lemma sum_last_spec a B N M :
  wf3 a -> shape3 a = (B, (N, M)) ->
  wf3 (sum_last a) /\ shape3 (sum_last a) = (B, (N, 1))
  /\ forall b i, b < B -> i < N ->
       nth i (nth b (chans (sum_last a)) []) []
       = [sum_upto M (fun j => cell3 a b i j)].
Proof.
  intros Ha Hsa. apply (wf3_iff a B N M Hsa) in Ha. destruct Ha as [Hl Hc].
  unfold sum_last. rewrite Hsa.
  assert (Hrow : forall b i, b < B -> i < N ->
            nth i (nth b (map (map (fun row => [lsum row])) (chans a)) []) []
            = [sum_upto M (fun j => cell3 a b i j)]).
  { intros b i Hb Hi. destruct (Hc b Hb) as [HN HM].
    rewrite (nth_map_lt _ _ _ []) by lia.
    rewrite (nth_map_lt _ _ _ []) by lia.
    rewrite lsum_nth, HM by assumption. reflexivity. }
  split; [|split; [reflexivity | exact Hrow]].
  apply wf3_intro; [now rewrite length_map|]. intros b Hb. split.
  - rewrite (nth_map_lt _ _ _ []) by lia. rewrite length_map.
    now destruct (Hc b Hb).
  - intros i Hi. now rewrite Hrow.
Qed.

Lemma bmm_spec a b B n m p :
  wf3 a -> shape3 a = (B, (n, m)) -> wf3 b -> shape3 b = (B, (m, p)) ->
  exists Y, bmm a b = Ok Y /\ wf3 Y /\ shape3 Y = (B, (n, p))
    /\ forall c i k, c < B -> i < n -> k < p ->
         cell3 Y c i k
         = sum_upto m (fun j => Qcmult (cell3 a c i j) (cell3 b c j k)).
Proof.
  intros Ha Hsa Hb Hsb.
  apply (wf3_iff a B n m Hsa) in Ha. destruct Ha as [Hla Hca].
  apply (wf3_iff b B m p Hsb) in Hb. destruct Hb as [Hlb Hcb].
  unfold bmm, iter3. rewrite Hsa, Hsb. simpl snd. rewrite !Nat.eqb_refl.
  cbn [andb].
  rewrite (mapM_map _ (fun ab =>
    Tensor (n, p)
      (map (fun r => map (fun j => dot r (column j (snd ab))) (seq 0 p))
           (rows (fst ab))))).
  2:{ intros [x y] Hin.
      pose proof (in_combine_l _ _ _ _ Hin) as Hx.
      pose proof (in_combine_r _ _ _ _ Hin) as Hy.
      apply in_map_iff in Hx. destruct Hx as (rx & <- & _).
      apply in_map_iff in Hy. destruct Hy as (ry & <- & _).
      unfold matmul. simpl. now rewrite Nat.eqb_refl. }
  cbn [bind]. eexists. split; [reflexivity|].
  rewrite map_map. simpl rows.
  assert (Hrow : forall c i, c < B -> i < n ->
            nth i (nth c (map (fun ab : tensor * tensor =>
                     map (fun r => map (fun j => dot r (column j (snd ab)))
                                       (seq 0 p))
                         (rows (fst ab)))
                   (combine (map (Tensor (n, m)) (chans a))
                            (map (Tensor (m, p)) (chans b)))) []) []
            = map (fun j => dot (nth i (nth c (chans a) []) [])
                                (column j (Tensor (m, p) (nth c (chans b) []))))
                  (seq 0 p)).
  { intros c i Hc Hi.
    rewrite (nth_map_lt _ _ _ (Tensor (n, m) [], Tensor (m, p) []))
      by (rewrite length_combine, !length_map; lia).
    rewrite nth_combine by (rewrite !length_map; lia).
    simpl fst. simpl snd.
    rewrite (nth_map_lt (Tensor (n, m)) (chans a) c []) by lia.
    rewrite (nth_map_lt (Tensor (m, p)) (chans b) c []) by lia.
    simpl rows.
    rewrite (nth_map_lt _ _ _ []) by (destruct (Hca c Hc) as [-> _]; assumption).
    reflexivity. }
  split; [|split; [reflexivity|]].
  - apply wf3_intro; [rewrite length_map, length_combine, !length_map; lia|]. intros c Hc. split.
    + rewrite (nth_map_lt _ _ _ (Tensor (n, m) [], Tensor (m, p) []))
        by (rewrite length_combine, !length_map; lia).
      rewrite nth_combine by (rewrite !length_map; lia).
      rewrite length_map. simpl fst.
      rewrite (nth_map_lt (Tensor (n, m)) (chans a) c []) by lia. simpl.
      now destruct (Hca c Hc).
    + intros i Hi. rewrite Hrow by assumption.
      now rewrite length_map, length_seq.
  - intros c i k Hc Hi Hk. unfold cell3 at 1. simpl chans.
    rewrite Hrow by assumption. rewrite nth_map_seq by assumption.
    destruct (Hca c Hc) as [_ Hra]. destruct (Hcb c Hc) as [Hnb Hrb].
    unfold column. simpl rows.
    rewrite (dot_sum _ _ m); [|auto|rewrite length_map; assumption].
    apply sum_upto_ext. intros j Hj. f_equal.
    apply (nth_map_lt (fun r => nth k r 0%Qc)). lia.
Qed.

Lemma Qc_eqb_neq a b : a <> b -> Qc_eqb a b = false.
Proof.
  intros H. destruct (Qc_eqb a b) eqn:E; [|reflexivity].
  apply Qc_eqb_eq in E. contradiction.
Qed.

Lemma Qc_eqb_refl a : Qc_eqb a a = true.
Proof. unfold Qc_eqb. apply Qeq_bool_iff. reflexivity. Qed.

(** [mapM] stops without a value as soon as one item gives none. *)
Lemma mapM_nan {A B} (f : A -> result B) l :
  (forall a, In a l -> f a = NotANumber \/ exists b, f a = Ok b) ->
  (exists a, In a l /\ f a = NotANumber) ->
  mapM f l = NotANumber.
Proof.
  induction l as [|a l IH]; intros Hall (a0 & Hin & Ha0); [destruct Hin|].
  simpl. destruct (Hall a (or_introl eq_refl)) as [-> | (b & Hb)]; [reflexivity|].
  rewrite Hb. simpl.
  destruct Hin as [<- | Hin]; [congruence|].
  rewrite IH; [reflexivity | intros; apply Hall; right; assumption | eauto].
Qed.

Lemma mapM_ok_or_nan {A B} (f : A -> result B) l :
  (forall a, In a l -> f a = NotANumber \/ exists b, f a = Ok b) ->
  mapM f l = NotANumber \/ exists bs, mapM f l = Ok bs.
Proof.
  induction l as [|a l IH]; intros Hall; simpl; [right; eexists; reflexivity|].
  destruct (Hall a (or_introl eq_refl)) as [-> | (b & ->)]; [left; reflexivity|].
  simpl.
  assert (Hl : forall a', In a' l ->
            f a' = NotANumber \/ exists b', f a' = Ok b')
    by (intros; apply Hall; right; assumption).
  destruct (IH Hl) as [-> | (bs & ->)]; [left; reflexivity | right; eexists; reflexivity].
Qed.

Lemma div_row_ok row d :
  d <> 0%Qc ->
  mapM (fun a => div_entry a d) row = Ok (map (fun a => Qcdiv a d) row).
Proof.
  intros Hd. apply mapM_map. intros a _. unfold div_entry.
  now rewrite Qc_eqb_neq.
Qed.

(** The entries of the divisor met by [div_last], by their indices. *)
Lemma in_combine_nth {A B} (l : list A) (m : list B) (p : A * B) a b :
  In p (combine l m) ->
  exists n, n < Nat.min (length l) (length m) /\ p = (nth n l a, nth n m b).
Proof.
  intros Hin. destruct (In_nth _ _ (a, b) Hin) as (n & Hn & <-).
  rewrite length_combine in Hn. exists n. split; [assumption|].
  now apply nth_combine.
Qed.

Lemma div_last_spec x d B N P (dv : nat -> nat -> Qc) :
  wf3 x -> shape3 x = (B, (N, P)) -> wf3 d -> shape3 d = (B, (N, 1)) ->
  (forall b i, b < B -> i < N -> nth i (nth b (chans d) []) [] = [dv b i]) ->
  (forall b i, b < B -> i < N -> dv b i <> 0%Qc) ->
  exists Y, div_last x d = Ok Y /\ wf3 Y /\ shape3 Y = (B, (N, P))
    /\ forall b i k, b < B -> i < N -> k < P ->
         cell3 Y b i k = Qcdiv (cell3 x b i k) (dv b i).
Proof.
  intros Hx Hsx Hd Hsd Hdv Hnz.
  apply (wf3_iff x B N P Hsx) in Hx. destruct Hx as [Hlx Hcx].
  apply (wf3_iff d B N 1 Hsd) in Hd. destruct Hd as [Hld Hcd].
  unfold div_last. rewrite Hsx.
  rewrite (mapM_map _ (fun xd =>
    map (fun rd => map (fun a => Qcdiv a (hd 0%Qc (snd rd))) (fst rd))
        (combine (fst xd) (snd xd)))).
  2:{ intros xd Hxd.
      destruct (in_combine_nth _ _ _ [] [] Hxd) as (b & Hb & ->).
      rewrite Hlx, Hld in Hb. simpl fst. simpl snd.
      apply mapM_map. intros rd Hrd.
      destruct (in_combine_nth _ _ _ [] [] Hrd) as (i & Hi & ->).
      destruct (Hcx b) as [HN _]; [lia|]. destruct (Hcd b) as [HN' _]; [lia|].
      rewrite HN, HN' in Hi. simpl fst. simpl snd.
      rewrite Hdv by lia. simpl hd. apply div_row_ok. apply Hnz; lia. }
  cbn [bind]. eexists. split; [reflexivity|].
  assert (Hrow : forall b i, b < B -> i < N ->
            nth i (nth b (map (fun xd : list (list Qc) * list (list Qc) =>
                     map (fun rd => map (fun a => Qcdiv a (hd 0%Qc (snd rd)))
                                        (fst rd))
                         (combine (fst xd) (snd xd)))
                   (combine (chans x) (chans d))) []) []
            = map (fun a => Qcdiv a (dv b i)) (nth i (nth b (chans x) []) [])).
  { intros b i Hb Hi.
    destruct (Hcx b Hb) as [HN _]. destruct (Hcd b Hb) as [HN' _].
    rewrite (nth_map_lt _ _ _ ([], [])) by (rewrite length_combine; lia).
    rewrite nth_combine by lia. simpl fst. simpl snd.
    rewrite (nth_map_lt _ _ _ ([], [])) by (rewrite length_combine; lia).
    rewrite nth_combine by lia. simpl fst. simpl snd.
    now rewrite Hdv. }
  split; [|split; [reflexivity|]].
  - apply wf3_intro; [rewrite length_map, length_combine; lia|].
    intros b Hb. destruct (Hcx b Hb) as [HN HP]. destruct (Hcd b Hb) as [HN' _].
    split.
    + rewrite (nth_map_lt _ _ _ ([], [])) by (rewrite length_combine; lia).
      rewrite nth_combine by lia. rewrite length_map, length_combine. simpl. lia.
    + intros i Hi. rewrite Hrow by assumption. rewrite length_map. auto.
  - intros b i k Hb Hi Hk. unfold cell3 at 1. simpl chans.
    rewrite Hrow by assumption.
    apply (nth_map_lt (fun a => Qcdiv a (dv b i))).
    destruct (Hcx b Hb) as [_ HP]. rewrite HP; assumption.
Qed.

Lemma div_last_by_zero x d B N P (dv : nat -> nat -> Qc) b0 i0 :
  wf3 x -> shape3 x = (B, (N, P)) -> wf3 d -> shape3 d = (B, (N, 1)) ->
  (forall b i, b < B -> i < N -> nth i (nth b (chans d) []) [] = [dv b i]) ->
  b0 < B -> i0 < N -> 1 <= P -> dv b0 i0 = 0%Qc ->
  div_last x d = NotANumber.
Proof.
  intros Hx Hsx Hd Hsd Hdv Hb0 Hi0 HP Hz.
  apply (wf3_iff x B N P Hsx) in Hx. destruct Hx as [Hlx Hcx].
  apply (wf3_iff d B N 1 Hsd) in Hd. destruct Hd as [Hld Hcd].
  assert (Hentry : forall dd (row : list Qc) a, In a row ->
            div_entry a dd = NotANumber \/ exists q, div_entry a dd = Ok q).
  { intros dd row a _. unfold div_entry. destruct (Qc_eqb dd 0%Qc); eauto. }
  assert (Hrows : forall (xb db : list (list Qc)) rd, In rd (combine xb db) ->
            mapM (fun a => div_entry a (hd 0%Qc (snd rd))) (fst rd) = NotANumber
            \/ exists r, mapM (fun a => div_entry a (hd 0%Qc (snd rd))) (fst rd)
                         = Ok r).
  { intros xb db rd _. apply mapM_ok_or_nan. apply Hentry. }
  unfold div_last. rewrite mapM_nan; [reflexivity| |].
  - intros xd _. apply mapM_ok_or_nan. apply Hrows.
  - exists (nth b0 (chans x) [], nth b0 (chans d) []). split.
    + rewrite <- (nth_combine _ _ _ [] []) by lia.
      apply nth_In. rewrite length_combine. lia.
    + simpl fst. simpl snd.
      destruct (Hcx b0 Hb0) as [HN HPx]. destruct (Hcd b0 Hb0) as [HN' _].
      apply mapM_nan; [apply Hrows|].
      exists (nth i0 (nth b0 (chans x) []) [], nth i0 (nth b0 (chans d) []) []).
      split.
      * rewrite <- (nth_combine _ _ _ [] []) by lia.
        apply nth_In. rewrite length_combine. lia.
      * simpl fst. simpl snd. rewrite Hdv by assumption. simpl hd.
        apply mapM_nan; [apply Hentry|].
        exists (nth 0 (nth i0 (nth b0 (chans x) []) []) 0%Qc). split.
        -- apply nth_In. rewrite HPx by assumption. lia.
        -- unfold div_entry. now rewrite Hz, Qc_eqb_refl.
Qed.

(** What the layer returns when every node has a non-zero row sum. *)
Lemma GCNLayer_forward_value self x adj B N c_in c_out :
  wf_linear (projection self) c_in c_out ->
  wf3 x -> shape3 x = (B, (N, c_in)) ->
  wf3 adj -> shape3 adj = (B, (N, N)) ->
  (forall b i, b < B -> i < N ->
     sum_upto N (fun j => cell3 adj b i j) <> 0%Qc) ->
  exists Y, GCNLayer_forward self x adj = Ok Y /\ wf3 Y
    /\ shape3 Y = (B, (N, c_out))
    /\ forall b i k, b < B -> i < N -> k < c_out ->
         cell3 Y b i k
         = Qcdiv
             (sum_upto N (fun j =>
                Qcmult (cell3 adj b i j)
                  (Qcplus (sum_upto c_in (fun c =>
                             Qcmult (cell3 x b j c)
                                    (cell (Linear.weight (projection self)) k c)))
                          (nth k (Linear.bias (projection self)) 0%Qc))))
             (sum_upto N (fun j => cell3 adj b i j)).
Proof.
  intros HL Hx Hsx Ha Hsa Hnz. unfold GCNLayer_forward.
  destruct (Linear_forward3_spec _ c_in c_out x B N HL Hx Hsx)
    as (P & -> & HwP & HsP & HcP). cbn [bind].
  destruct (bmm_spec adj P B N N c_out Ha Hsa HwP HsP)
    as (M & -> & HwM & HsM & HcM). cbn [bind].
  destruct (sum_last_spec adj B N N Ha Hsa) as (HwS & HsS & HcS).
  destruct (div_last_spec M (sum_last adj) B N c_out
              (fun b i => sum_upto N (fun j => cell3 adj b i j))
              HwM HsM HwS HsS HcS Hnz) as (Y & HY & HwY & HsY & HcY).
  exists Y. repeat split; auto.
  intros b i k Hb Hi Hk. rewrite HcY, HcM by assumption. f_equal.
  apply sum_upto_ext. intros j Hj. now rewrite HcP.
Qed.

(** X13.  For node features of shape (B, N, c_in) and adjacency matrices of
    shape (B, N, N) whose rows all have a non-zero sum, [GCNLayer.forward]
    returns features of shape (B, N, c_out): the feature k of the node i is
    the sum over the nodes j of adj[b, i, j] times the projected feature
    (W x[b, j] + bias)[k], divided by the sum of the row i of the adjacency
    matrix. *)
Theorem GCNLayer_forward_averages_messages (self : GCNLayer)
  (x adj : tensor3) (B N c_in c_out : nat) :
  wf_linear (projection self) c_in c_out ->
  wf3 x -> shape3 x = (B, (N, c_in)) ->
  wf3 adj -> shape3 adj = (B, (N, N)) ->
  (forall b i, b < B -> i < N ->
     sum_upto N (fun j => cell3 adj b i j) <> 0%Qc) ->
  exists Y, GCNLayer_forward self x adj = Ok Y /\ wf3 Y
    /\ shape3 Y = (B, (N, c_out))
    /\ forall b i k, b < B -> i < N -> k < c_out ->
         cell3 Y b i k
         = Qcdiv
             (sum_upto N (fun j =>
                Qcmult (cell3 adj b i j)
                  (Qcplus (sum_upto c_in (fun c =>
                             Qcmult (cell3 x b j c)
                                    (cell (Linear.weight (projection self)) k c)))
                          (nth k (Linear.bias (projection self)) 0%Qc))))
             (sum_upto N (fun j => cell3 adj b i j)).
Proof. apply GCNLayer_forward_value. Qed.

Lemma GCNLayer_forward_averages_messages_witness :
  exists Y, GCNLayer_forward layer_demo node_feats_demo adj_demo = Ok Y
    /\ wf3 Y /\ shape3 Y = (1, (4, 2))
    /\ forall b i k, b < 1 -> i < 4 -> k < 2 ->
         cell3 Y b i k
         = Qcdiv
             (sum_upto 4 (fun j =>
                Qcmult (cell3 adj_demo b i j)
                  (Qcplus (sum_upto 2 (fun c =>
                             Qcmult (cell3 node_feats_demo b j c)
                                    (cell (Linear.weight (projection layer_demo)) k c)))
                          (nth k (Linear.bias (projection layer_demo)) 0%Qc))))
             (sum_upto 4 (fun j => cell3 adj_demo b i j)).
Proof.
  apply (GCNLayer_forward_averages_messages layer_demo node_feats_demo adj_demo
           1 4 2 2); try reflexivity.
  - repeat split.
  - intros b i Hb Hi. destruct b as [|b]; [|lia].
    do 4 (destruct i as [|i];
          [intro E; apply (f_equal (fun q => Qc_eqb q 0%Qc)) in E;
           vm_compute in E; discriminate|]).
    lia.
Defined.

(** ** Nodes with and without neighbours *)

Lemma Qc_add_pos_nonneg a b :
  Qclt 0%Qc a -> Qcle 0%Qc b -> Qclt 0%Qc (Qcplus a b).
Proof.
  unfold Qclt, Qcle, Qcplus. cbn [this Q2Qc]. rewrite !Qred_correct.
  intros Ha Hb. apply (Qplus_lt_le_compat 0 a 0 b); assumption.
Qed.

Lemma Qc_add_nonneg_pos a b :
  Qcle 0%Qc a -> Qclt 0%Qc b -> Qclt 0%Qc (Qcplus a b).
Proof. intros Ha Hb. rewrite Qcplus_comm. now apply Qc_add_pos_nonneg. Qed.

Lemma sum_upto_nonneg n f :
  (forall j, j < n -> Qcle 0%Qc (f j)) -> Qcle 0%Qc (sum_upto n f).
Proof.
  intros Hf. induction n as [|n IH]; simpl; [apply Qcle_refl|].
  rewrite <- (Qcplus_0_l 0%Qc).
  apply Qcplus_le_compat; [apply IH; intros; apply Hf; lia | apply Hf; lia].
Qed.

Lemma sum_upto_pos n f i :
  (forall j, j < n -> Qcle 0%Qc (f j)) -> i < n -> Qclt 0%Qc (f i) ->
  Qclt 0%Qc (sum_upto n f).
Proof.
  intros Hf Hi Hpos. induction n as [|n IH]; [lia|]. simpl.
  destruct (Nat.eq_dec i n) as [->|Hne].
  - apply Qc_add_nonneg_pos; [|assumption].
    apply sum_upto_nonneg. intros; apply Hf; lia.
  - apply Qc_add_pos_nonneg; [|apply Hf; lia].
    apply IH; [intros; apply Hf; lia | lia].
Qed.

(** X14.  Under the assumption the layer documents, adjacency matrices
    without negative entries and with the self-connections added
    (adj[b, i, i] > 0), no node is divided by zero: [GCNLayer.forward]
    returns features of shape (B, N, c_out). *)
Theorem GCNLayer_forward_with_self_connections (self : GCNLayer)
  (x adj : tensor3) (B N c_in c_out : nat) :
  wf_linear (projection self) c_in c_out ->
  wf3 x -> shape3 x = (B, (N, c_in)) ->
  wf3 adj -> shape3 adj = (B, (N, N)) ->
  (forall b i j, b < B -> i < N -> j < N -> Qcle 0%Qc (cell3 adj b i j)) ->
  (forall b i, b < B -> i < N -> Qclt 0%Qc (cell3 adj b i i)) ->
  exists Y, GCNLayer_forward self x adj = Ok Y /\ wf3 Y
    /\ shape3 Y = (B, (N, c_out)).
Proof.
  intros HL Hx Hsx Ha Hsa Hnn Hself.
  destruct (GCNLayer_forward_value self x adj B N c_in c_out HL Hx Hsx Ha Hsa)
    as (Y & HY & HwY & HsY & _); [|eauto].
  intros b i Hb Hi E.
  apply (Qclt_not_eq 0%Qc (sum_upto N (fun j => cell3 adj b i j)));
    [|congruence].
  apply (sum_upto_pos N _ i); auto.
Qed.

Lemma GCNLayer_forward_with_self_connections_witness :
  exists Y, GCNLayer_forward layer_demo node_feats_demo adj_demo = Ok Y
    /\ wf3 Y /\ shape3 Y = (1, (4, 2)).
Proof.
  apply (GCNLayer_forward_with_self_connections layer_demo node_feats_demo
           adj_demo 1 4 2 2); try reflexivity.
  - repeat split.
  - intros b i j Hb Hi Hj. destruct b as [|b]; [|lia].
    do 4 (destruct i as [|i];
          [do 4 (destruct j as [|j]; [vm_compute; discriminate|]); lia|]).
    lia.
  - intros b i Hb Hi. destruct b as [|b]; [|lia].
    do 4 (destruct i as [|i]; [vm_compute; reflexivity|]). lia.
Defined.

(** X15.  A node whose row of the adjacency matrix sums to zero, a node
    without neighbours and without self-connection, is divided by zero:
    when the layer has at least one output feature the result holds an
    entry that is infinite or not a number, and no exception is raised. *)
Theorem GCNLayer_forward_isolated_node (self : GCNLayer)
  (x adj : tensor3) (B N c_in c_out b0 i0 : nat) :
  wf_linear (projection self) c_in c_out ->
  wf3 x -> shape3 x = (B, (N, c_in)) ->
  wf3 adj -> shape3 adj = (B, (N, N)) ->
  b0 < B -> i0 < N -> 1 <= c_out ->
  sum_upto N (fun j => cell3 adj b0 i0 j) = 0%Qc ->
  GCNLayer_forward self x adj = NotANumber.
Proof.
  intros HL Hx Hsx Ha Hsa Hb0 Hi0 Hc Hz. unfold GCNLayer_forward.
  destruct (Linear_forward3_spec _ c_in c_out x B N HL Hx Hsx)
    as (P & -> & HwP & HsP & _). cbn [bind].
  destruct (bmm_spec adj P B N N c_out Ha Hsa HwP HsP)
    as (M & -> & HwM & HsM & _). cbn [bind].
  destruct (sum_last_spec adj B N N Ha Hsa) as (HwS & HsS & HcS).
  apply (div_last_by_zero M (sum_last adj) B N c_out
           (fun b i => sum_upto N (fun j => cell3 adj b i j)) b0 i0); auto.
Qed.

Lemma GCNLayer_forward_isolated_node_witness :
  GCNLayer_forward layer_demo
    (Tensor3 (1, (2, 2)) (map (map (map qc)) [[[0; 1]; [2; 3]]]%Z))
    (Tensor3 (1, (2, 2)) (map (map (map qc)) [[[1; 1]; [0; 0]]]%Z))
  = NotANumber.
Proof.
  apply (GCNLayer_forward_isolated_node layer_demo _ _ 1 2 2 2 0 1);
    try reflexivity; try lia.
  repeat split.
Defined.

(** X16.  The output of a node depends on the graph only through the
    node's own row of the adjacency matrix: two nodes with equal rows, that
    is with the same neighbours, get the same output features. *)
Theorem GCNLayer_forward_same_neighbours (self : GCNLayer)
  (x adj : tensor3) (B N c_in c_out : nat) :
  wf_linear (projection self) c_in c_out ->
  wf3 x -> shape3 x = (B, (N, c_in)) ->
  wf3 adj -> shape3 adj = (B, (N, N)) ->
  (forall b i, b < B -> i < N ->
     sum_upto N (fun j => cell3 adj b i j) <> 0%Qc) ->
  exists Y, GCNLayer_forward self x adj = Ok Y
    /\ forall b i i', b < B -> i < N -> i' < N ->
         (forall j, j < N -> cell3 adj b i j = cell3 adj b i' j) ->
         forall k, k < c_out -> cell3 Y b i k = cell3 Y b i' k.
Proof.
  intros HL Hx Hsx Ha Hsa Hnz.
  destruct (GCNLayer_forward_value self x adj B N c_in c_out HL Hx Hsx Ha Hsa Hnz)
    as (Y & HY & _ & _ & HcY).
  exists Y. split; [assumption|].
  intros b i i' Hb Hi Hi' Hrows k Hk. rewrite !HcY by assumption.
  f_equal; apply sum_upto_ext; intros j Hj; now rewrite Hrows.
Qed.

Lemma GCNLayer_forward_same_neighbours_witness :
  exists Y, GCNLayer_forward layer_demo node_feats_demo adj_demo = Ok Y
    /\ forall b i i', b < 1 -> i < 4 -> i' < 4 ->
         (forall j, j < 4 -> cell3 adj_demo b i j = cell3 adj_demo b i' j) ->
         forall k, k < 2 -> cell3 Y b i k = cell3 Y b i' k.
Proof.
  apply (GCNLayer_forward_same_neighbours layer_demo node_feats_demo adj_demo
           1 4 2 2); try reflexivity.
  - repeat split.
  - intros b i Hb Hi. destruct b as [|b]; [|lia].
    do 4 (destruct i as [|i];
          [intro E; apply (f_equal (fun q => Qc_eqb q 0%Qc)) in E;
           vm_compute in E; discriminate|]).
    lia.
Defined.

Lemma sum_upto_delta n k f :
  k < n ->
  sum_upto n (fun c => Qcmult (f c) (if k =? c then 1%Qc else 0%Qc)) = f k.
Proof.
  intros Hk. induction n as [|n IH]; [lia|]. simpl.
  destruct (Nat.eqb_spec k n) as [->|Hne].
  - rewrite (sum_upto_ext n _ (fun _ => 0%Qc)).
    + assert (Hz : forall m, sum_upto m (fun _ => 0%Qc) = 0%Qc)
        by (induction m; simpl; [reflexivity | rewrite IHm; ring]).
      rewrite Hz. ring.
    + intros c Hc. destruct (Nat.eqb_spec n c); [lia | ring].
  - rewrite IH by lia. ring.
Qed.

(** X17.  With the weight set to the identity and the bias to zero, as in
    the notebook, the messages are the input features themselves: the
    feature k of the node i is the average of the feature k over the
    nodes, weighted by the row i of the adjacency matrix (for a 0/1 matrix,
    the mean over the neighbours of i). *)
Theorem GCNLayer_forward_identity_projection (self : GCNLayer)
  (x adj : tensor3) (B N c : nat) :
  wf_linear (projection self) c c ->
  (forall k c', k < c -> c' < c ->
     cell (Linear.weight (projection self)) k c'
     = if k =? c' then 1%Qc else 0%Qc) ->
  (forall k, k < c -> nth k (Linear.bias (projection self)) 0%Qc = 0%Qc) ->
  wf3 x -> shape3 x = (B, (N, c)) ->
  wf3 adj -> shape3 adj = (B, (N, N)) ->
  (forall b i, b < B -> i < N ->
     sum_upto N (fun j => cell3 adj b i j) <> 0%Qc) ->
  exists Y, GCNLayer_forward self x adj = Ok Y
    /\ shape3 Y = (B, (N, c))
    /\ forall b i k, b < B -> i < N -> k < c ->
         cell3 Y b i k
         = Qcdiv (sum_upto N (fun j =>
                    Qcmult (cell3 adj b i j) (cell3 x b j k)))
                 (sum_upto N (fun j => cell3 adj b i j)).
Proof.
  intros HL HW Hbias Hx Hsx Ha Hsa Hnz.
  destruct (GCNLayer_forward_value self x adj B N c c HL Hx Hsx Ha Hsa Hnz)
    as (Y & HY & _ & HsY & HcY).
  exists Y. repeat split; auto.
  intros b i k Hb Hi Hk. rewrite HcY by assumption. f_equal.
  apply sum_upto_ext. intros j Hj. f_equal.
  rewrite Hbias, Qcplus_0_r by assumption.
  rewrite <- (sum_upto_delta c k (fun c' => cell3 x b j c')) by assumption.
  apply sum_upto_ext. intros c' Hc'. now rewrite HW.
Qed.

Lemma GCNLayer_forward_identity_projection_witness :
  exists Y, GCNLayer_forward layer_demo node_feats_demo adj_demo = Ok Y
    /\ shape3 Y = (1, (4, 2))
    /\ forall b i k, b < 1 -> i < 4 -> k < 2 ->
         cell3 Y b i k
         = Qcdiv (sum_upto 4 (fun j =>
                    Qcmult (cell3 adj_demo b i j) (cell3 node_feats_demo b j k)))
                 (sum_upto 4 (fun j => cell3 adj_demo b i j)).
Proof.
  apply (GCNLayer_forward_identity_projection layer_demo node_feats_demo
           adj_demo 1 4 2); try reflexivity.
  - repeat split.
  - intros k c' Hk Hc'.
    do 2 (destruct k as [|k]; [do 2 (destruct c' as [|c']; [reflexivity|]); lia|]).
    lia.
  - intros k Hk. do 2 (destruct k as [|k]; [reflexivity|]). lia.
  - intros b i Hb Hi. destruct b as [|b]; [|lia].
    do 4 (destruct i as [|i];
          [intro E; apply (f_equal (fun q => Qc_eqb q 0%Qc)) in E;
           vm_compute in E; discriminate|]).
    lia.
Defined.

(** ** Sequences of blocks *)

Lemma str_inj n m : str n = str m -> n = m.
Proof.
  unfold str. intros E. apply DecimalNat.Unsigned.to_uint_inj.
  apply (f_equal DecimalString.NilEmpty.uint_of_string) in E.
  rewrite !DecimalString.NilEmpty.usu in E. congruence.
Qed.

Lemma od_set_new {V} key (value : V) d :
  (forall p, In p d -> fst p <> key) ->
  od_set key value d = d ++ [(key, value)].
Proof.
  induction d as [|[k v] d IH]; intros Hfresh; simpl; [reflexivity|].
  destruct (String.eqb_spec k key) as [E|_].
  - exfalso. apply (Hfresh (k, v)); [left; reflexivity | assumption].
  - f_equal. apply IH. intros p Hp. apply Hfresh. right. assumption.
Qed.

(** Filling the dictionary from the index [s] on, when it holds the
    indices below [s]. *)
Lemma fill_modules (args : list block) : forall s (d : list (string * block)),
  (forall p, In p d -> exists i, i < s /\ fst p = str i) ->
  fold_left (fun d im => od_set (str (fst im)) (snd im) d)
            (combine (seq s (length args)) args) d
  = d ++ combine (map str (seq s (length args))) args.
Proof.
  induction args as [|m args IH]; intros s d Hd; simpl.
  - now rewrite app_nil_r.
  - rewrite od_set_new.
    + rewrite IH.
      * now rewrite <- app_assoc.
      * intros p Hp. apply in_app_iff in Hp. destruct Hp as [Hp|[<-|[]]].
        -- destruct (Hd p Hp) as (i & Hi & E). exists i. split; [lia | assumption].
        -- exists s. split; [lia | reflexivity].
    + intros p Hp E. destruct (Hd p Hp) as (i & Hi & Ei).
      rewrite Ei in E. apply str_inj in E. lia.
Qed.

Lemma MySequential_modules args :
  _modules (MySequential_init args)
  = combine (map str (seq 0 (length args))) args.
Proof.
  unfold MySequential_init, enumerate. simpl.
  now rewrite (fill_modules args 0 []) by (intros p []).
Qed.

Lemma map_snd_combine {A B} (l : list A) (m : list B) :
  length l = length m -> map snd (combine l m) = m.
Proof.
  revert m. induction l as [|a l IH]; intros [|b m] H; simpl in *;
    try discriminate; auto.
  f_equal. apply IH. lia.
Qed.

Lemma map_fst_combine {A B} (l : list A) (m : list B) :
  length l = length m -> map fst (combine l m) = l.
Proof.
  revert m. induction l as [|a l IH]; intros [|b m] H; simpl in *;
    try discriminate; auto.
  f_equal. apply IH. lia.
Qed.

Lemma MySequential_forward_runs args X :
  MySequential_forward (MySequential_init args) X = run_blocks args X.
Proof.
  unfold MySequential_forward. rewrite MySequential_modules.
  now rewrite map_snd_combine by now rewrite length_map, length_seq.
Qed.

Lemma run_blocks_app a b X :
  run_blocks (a ++ b) X = X' <- run_blocks a X ;; run_blocks b X'.
Proof.
  revert X. induction a as [|m a IH]; intros X; simpl; [reflexivity|].
  destruct (m X); simpl; auto.
Qed.

(** X18.  [MySequential] keeps its blocks under the keys "0", "1", ... in
    the order they were given, and its forward pass feeds the input
    through them in that order, each one once: a sequence of no block
    returns its input, a sequence of one block does what the block does,
    and the sequence of two lists of blocks does what the sequence of the
    first list followed by the sequence of the second does, the blocks
    after a failing one never being called. *)
Theorem MySequential_runs_blocks_in_order (a b : list block) (m : block)
  (X : tensor) :
  map fst (_modules (MySequential_init a)) = map str (seq 0 (length a))
  /\ map snd (_modules (MySequential_init a)) = a
  /\ MySequential_forward (MySequential_init []) X = Ok X
  /\ MySequential_forward (MySequential_init [m]) X = m X
  /\ MySequential_forward (MySequential_init (a ++ b)) X
     = X' <- MySequential_forward (MySequential_init a) X ;;
       MySequential_forward (MySequential_init b) X'.
Proof.
  rewrite MySequential_modules.
  rewrite map_fst_combine, map_snd_combine
    by now rewrite length_map, length_seq.
  repeat split.
  - rewrite MySequential_forward_runs. simpl. destruct (m X); reflexivity.
  - rewrite !MySequential_forward_runs, run_blocks_app.
    destruct (run_blocks a X); simpl; try reflexivity.
    now rewrite MySequential_forward_runs.
Qed.

(** X19.  The chain [MySequential(hidden, nn.ReLU(), out)] computes what
    the class [MLP] with the same two layers computes, on every input,
    failures included. *)
Theorem MySequential_of_layers_is_MLP (self : MLP) (X : tensor) :
  MySequential_forward
    (MySequential_init
       [Linear_forward (hidden self); ReLU; Linear_forward (out self)]) X
  = MLP_forward self X.
Proof.
  rewrite MySequential_forward_runs. unfold MLP_forward. simpl.
  destruct (Linear_forward (hidden self) X); simpl; try reflexivity.
  destruct (Linear_forward (out self) (relu a)); reflexivity.
Qed.


(** ** Calling a layer on one grid *)

Lemma length_one {A} (l : list A) : length l = 1 -> exists a, l = [a].
Proof.
  destruct l as [|a [|b l]]; simpl; intros H; try discriminate.
  now exists a.
Qed.

Lemma flat4_length Y b c h w :
  wf4 Y -> shape4 Y = (b, (c, (h, w))) ->
  length (flat4 Y) = b * (c * (h * w)).
Proof.
  intros Hwf Hs. destruct (wf4_kerns _ _ _ _ _ Hwf Hs) as [Hl Hk].
  unfold flat4. rewrite (concat_length_eq _ (c * (h * w))).
  - now rewrite length_map, Hl.
  - intros r Hr. apply in_map_iff in Hr. destruct Hr as (k & <- & Hin).
    apply flat3_length. auto.
Qed.

Lemma reshape2_of_rows X h w :
  wf X -> shape X = (h, w) ->
  reshape2 (concat (rows X)) (h, w) = Ok X.
Proof.
  intros Hwf Hs. destruct X as [s x]. simpl in *. subst s.
  destruct (wf_rows _ _ _ Hwf) as [Hl Hr].
  unfold reshape2. cbn [fst snd].
  pose proof (flat_length (Tensor (h, w) x) h w Hwf eq_refl) as Hf.
  simpl in Hf. rewrite Hf, Nat.eqb_refl.
  now rewrite chunks_concat_len.
Qed.

(** X21.  [comp_conv2d] hands the layer the grid as a batch of one example
    with one channel.  When the layer answers with a batch of one example
    with one channel, the result is that one grid, with the layer's output
    size; with a layer that returns its input, the grid itself comes
    back. *)
Theorem comp_conv2d_returns_the_grid (conv2d : tensor4 -> result tensor4)
  (X : tensor) (Y : tensor4) (h w : nat) :
  wf X ->
  conv2d (Tensor4 (1, (1, shape X)) [[rows X]]) = Ok Y ->
  wf4 Y -> shape4 Y = (1, (1, (h, w))) ->
  (exists g, kerns Y = [[g]] /\ comp_conv2d conv2d X = Ok (Tensor (h, w) g))
  /\ comp_conv2d Ok X = Ok X.
Proof.
  intros HX HY Hwf Hs. split.
  - destruct (wf4_kerns _ _ _ _ _ Hwf Hs) as [Hl Hk].
    destruct (length_one _ Hl) as [k Ek].
    assert (Hk3 : wf3 (Tensor3 (1, (h, w)) k))
      by (apply Hk; rewrite Ek; left; reflexivity).
    destruct (wf3_chans _ _ _ _ Hk3 eq_refl) as [Hlk Hg]. simpl in Hlk, Hg.
    destruct (length_one _ Hlk) as [g Eg]. subst k.
    exists g. split; [assumption|].
    unfold comp_conv2d. rewrite HY. cbn [bind]. rewrite Hs. cbn [snd].
    unfold flat4. rewrite Ek. simpl. rewrite !app_nil_r.
    apply (reshape2_of_rows (Tensor (h, w) g)); [|reflexivity].
    apply Hg. left. reflexivity.
  - unfold comp_conv2d. cbn [bind shape4 snd]. unfold flat4. simpl.
    rewrite !app_nil_r. destruct (shape X) as [a b] eqn:Es.
    now apply reshape2_of_rows.
Qed.

Lemma comp_conv2d_returns_the_grid_witness :
  (exists g, kerns (Tensor4 (1, (1, (2, 2))) [[rows K_demo]]) = [[g]]
     /\ comp_conv2d (fun _ => Ok (Tensor4 (1, (1, (2, 2))) [[rows K_demo]]))
          X_demo = Ok (Tensor (2, 2) g))
  /\ comp_conv2d Ok X_demo = Ok X_demo.
Proof.
  apply (comp_conv2d_returns_the_grid
           (fun _ => Ok (Tensor4 (1, (1, (2, 2))) [[rows K_demo]]))
           X_demo (Tensor4 (1, (1, (2, 2))) [[rows K_demo]]) 2 2);
    reflexivity.
Defined.

(** X22.  [comp_conv2d] is for single grids only: when the layer answers
    with more, or fewer, than one grid of a size other than zero (several
    examples or several output channels), the final reshape is refused;
    and an exception of the layer leaves [comp_conv2d] as it is. *)
Theorem comp_conv2d_refuses_several_grids
  (conv2d : tensor4 -> result tensor4) (X : tensor) (Y : tensor4)
  (b c h w : nat) :
  conv2d (Tensor4 (1, (1, shape X)) [[rows X]]) = Ok Y ->
  wf4 Y -> shape4 Y = (b, (c, (h, w))) ->
  b * c <> 1 -> h * w <> 0 ->
  comp_conv2d conv2d X = Raise (RuntimeError InvalidShape)
  /\ forall e, comp_conv2d (fun _ => Raise e) X = Raise e.
Proof.
  intros HY Hwf Hs Hbc Hhw. split; [|reflexivity].
  unfold comp_conv2d. rewrite HY. cbn [bind]. rewrite Hs. cbn [snd].
  unfold reshape2. rewrite (flat4_length Y b c h w Hwf Hs). cbn [fst snd].
  destruct (Nat.eqb_spec (b * (c * (h * w))) (h * w)) as [E|_];
    [|reflexivity].
  exfalso. rewrite Nat.mul_assoc in E. nia.
Qed.

Lemma comp_conv2d_refuses_several_grids_witness :
  comp_conv2d
    (fun _ => Ok (Tensor4 (1, (2, (2, 2))) [[rows K_demo; rows K_demo]]))
    X_demo = Raise (RuntimeError InvalidShape)
  /\ forall e, comp_conv2d (fun _ => Raise e) X_demo = Raise e.
Proof.
  apply (comp_conv2d_refuses_several_grids
           (fun _ => Ok (Tensor4 (1, (2, (2, 2))) [[rows K_demo; rows K_demo]]))
           X_demo (Tensor4 (1, (2, (2, 2))) [[rows K_demo; rows K_demo]])
           1 2 2 2); try reflexivity; lia.
Defined.
